(** * threeMenu: the ring navigation engine of [Menu.js]

    A shallow embedding of the carousel menu of kjcabPL/threeMenu (the
    second, later revision of [Menu.js]: the one with [isMoving],
    [menuOffsetItems] and [clickItem]) and the properties of its layout,
    rotation and hit-target code.

    Modelling conventions.
    - JavaScript numbers are modelled by [Z]: ids, counters and the
      coordinates of integer-valued spacing vectors are exact in a double.
    - Objects live in a store: [heap] holds the [MenuNode]s, [menus] the
      [Menu] instances; a reference is an index, [None] is [null] or
      [undefined].  Reading a property of [None] is a [TypeError].
    - The module-level [let] variables of the file are fields of [World],
      shared by every [Menu] instance, as in the source.
    - The mesh of an item is folded into its node: [position] is
      [node.node.item.position], [itemTag] is [mesh.itemTag].  Scale,
      rotation and material belong to the renderer and are left out; the
      requests sent to the animation engine (gsap) are logged in [motions].
      The engine moves things after the call has returned, so [position]
      holds what the code itself has written.
    - A [do ... while] loop takes fuel; a loop that runs out of fuel is
      reported as [Diverges]. *)

From Stdlib Require Import ZArith Lia Bool.
From Stdlib Require QArith.
From stdpp Require Import base list strings.

(** ** Results of a JavaScript call *)

Inductive Result (A : Type) : Type :=
| Ok (a : A)
| TypeError
| Diverges.
Arguments Ok {A} a.
Arguments TypeError {A}.
Arguments Diverges {A}.

Definition bind {A B : Type} (r : Result A) (k : A -> Result B) : Result B :=
  match r with
  | Ok a => k a
  | TypeError => TypeError
  | Diverges => Diverges
  end.

Notation "'do' x <- e ; k" := (bind e (fun x => k))
  (at level 10, x pattern, e at level 100, k at level 200).

Definition isFailure {A : Type} (r : Result A) : Prop :=
  match r with Ok _ => False | _ => True end.

(** ** Vectors *)

Record Vec3 : Type := mkVec3 { vx : Z; vy : Z; vz : Z }.

Definition vadd (a b : Vec3) : Vec3 :=
  mkVec3 (vx a + vx b) (vy a + vy b) (vz a + vz b).
Definition vsub (a b : Vec3) : Vec3 :=
  mkVec3 (vx a - vx b) (vy a - vy b) (vz a - vz b).
Definition vneg (a : Vec3) : Vec3 :=
  mkVec3 (- vx a) (- vy a) (- vz a).
Definition vscale (k : Z) (a : Vec3) : Vec3 :=
  mkVec3 (k * vx a) (k * vy a) (k * vz a).
Definition vzero : Vec3 := mkVec3 0 0 0.

(** ** The object store *)

Abbreviation addr := nat.
Abbreviation handle := nat.

(** [function MenuNode(_node, _action, _id)], with the mesh's position and
    tag folded in. *)
Record MenuNode : Type := mkNode {
  id : Z;
  selected : bool;
  action : option nat;
  next : option addr;
  prev : option addr;
  position : Vec3;
  itemTag : Z
}.

Definition MenuNode_new (_action : option nat) (_id : Z) : MenuNode :=
  mkNode _id false _action None None vzero 0.

(** The fields of a [Menu] instance that the navigation code reads. *)
Record Menu : Type := mkMenu {
  itemTray : list addr;
  itemSelected : Z;
  enabled : bool;
  opened : bool;
  itemCount : Z;
  groupPosition : Vec3;
  gapBetweenItems : Vec3;
  menuOffsetItems : Vec3;
  revolvingMenu : bool;
  openBehavior : Z
}.

Definition OPEN_NOTRANSITION : Z := 0.
Definition OPEN_GROW : Z := 1.
Definition OPEN_TRANSPARENCY : Z := 2.

(** Requests handed to the animation engine. *)
Inductive Motion : Type :=
| MoveTo (a : addr) (target : Vec3)
| GrowTo (a : addr)
| FadeIn (a : addr)
| ShrinkTo (a : addr)
| Pulse (a : addr) (act : option nat).

(** A live [setInterval] of [clickItem]: the menu it belongs to, the
    direction it repeats and the tag it waits for. *)
Record Timer : Type := mkTimer {
  t_menu : handle;
  t_forward : bool;
  t_target : Z
}.

Record World : Type := mkWorld {
  heap : list MenuNode;
  menus : list Menu;
  keyPressed : bool;
  clicked : bool;
  isMoving : bool;
  leftEdge : option addr;
  rightEdge : option addr;
  firstNode : option addr;
  latestNode : option addr;
  nodeToSelect : option addr;
  nextNodeID : Z;
  motions : list Motion;
  timers : list (option Timer)
}.

(** The state when the module has just been loaded. *)
Definition initial : World :=
  mkWorld [] [] false false false None None None None None 0 [] [].

(** *** Field updates *)

Definition set_heap (h : list MenuNode) (w : World) : World :=
  mkWorld h (menus w) (keyPressed w) (clicked w) (isMoving w) (leftEdge w)
    (rightEdge w) (firstNode w) (latestNode w) (nodeToSelect w)
    (nextNodeID w) (motions w) (timers w).
Definition set_menus (ms : list Menu) (w : World) : World :=
  mkWorld (heap w) ms (keyPressed w) (clicked w) (isMoving w) (leftEdge w)
    (rightEdge w) (firstNode w) (latestNode w) (nodeToSelect w)
    (nextNodeID w) (motions w) (timers w).
Definition set_keyPressed (b : bool) (w : World) : World :=
  mkWorld (heap w) (menus w) b (clicked w) (isMoving w) (leftEdge w)
    (rightEdge w) (firstNode w) (latestNode w) (nodeToSelect w)
    (nextNodeID w) (motions w) (timers w).
Definition set_isMoving (b : bool) (w : World) : World :=
  mkWorld (heap w) (menus w) (keyPressed w) (clicked w) b (leftEdge w)
    (rightEdge w) (firstNode w) (latestNode w) (nodeToSelect w)
    (nextNodeID w) (motions w) (timers w).
Definition set_leftEdge (a : option addr) (w : World) : World :=
  mkWorld (heap w) (menus w) (keyPressed w) (clicked w) (isMoving w) a
    (rightEdge w) (firstNode w) (latestNode w) (nodeToSelect w)
    (nextNodeID w) (motions w) (timers w).
Definition set_rightEdge (a : option addr) (w : World) : World :=
  mkWorld (heap w) (menus w) (keyPressed w) (clicked w) (isMoving w)
    (leftEdge w) a (firstNode w) (latestNode w) (nodeToSelect w)
    (nextNodeID w) (motions w) (timers w).
Definition set_firstNode (a : option addr) (w : World) : World :=
  mkWorld (heap w) (menus w) (keyPressed w) (clicked w) (isMoving w)
    (leftEdge w) (rightEdge w) a (latestNode w) (nodeToSelect w)
    (nextNodeID w) (motions w) (timers w).
Definition set_latestNode (a : option addr) (w : World) : World :=
  mkWorld (heap w) (menus w) (keyPressed w) (clicked w) (isMoving w)
    (leftEdge w) (rightEdge w) (firstNode w) a (nodeToSelect w)
    (nextNodeID w) (motions w) (timers w).
Definition set_nodeToSelect (a : option addr) (w : World) : World :=
  mkWorld (heap w) (menus w) (keyPressed w) (clicked w) (isMoving w)
    (leftEdge w) (rightEdge w) (firstNode w) (latestNode w) a
    (nextNodeID w) (motions w) (timers w).
Definition set_nextNodeID (n : Z) (w : World) : World :=
  mkWorld (heap w) (menus w) (keyPressed w) (clicked w) (isMoving w)
    (leftEdge w) (rightEdge w) (firstNode w) (latestNode w) (nodeToSelect w)
    n (motions w) (timers w).
Definition set_motions (l : list Motion) (w : World) : World :=
  mkWorld (heap w) (menus w) (keyPressed w) (clicked w) (isMoving w)
    (leftEdge w) (rightEdge w) (firstNode w) (latestNode w) (nodeToSelect w)
    (nextNodeID w) l (timers w).
Definition set_timers (l : list (option Timer)) (w : World) : World :=
  mkWorld (heap w) (menus w) (keyPressed w) (clicked w) (isMoving w)
    (leftEdge w) (rightEdge w) (firstNode w) (latestNode w) (nodeToSelect w)
    (nextNodeID w) (motions w) l.

Definition set_selected (b : bool) (nd : MenuNode) : MenuNode :=
  mkNode (id nd) b (action nd) (next nd) (prev nd) (position nd) (itemTag nd).
Definition set_next (a : option addr) (nd : MenuNode) : MenuNode :=
  mkNode (id nd) (selected nd) (action nd) a (prev nd) (position nd) (itemTag nd).
Definition set_prev (a : option addr) (nd : MenuNode) : MenuNode :=
  mkNode (id nd) (selected nd) (action nd) (next nd) a (position nd) (itemTag nd).
Definition set_position (p : Vec3) (nd : MenuNode) : MenuNode :=
  mkNode (id nd) (selected nd) (action nd) (next nd) (prev nd) p (itemTag nd).
Definition set_itemTag (t : Z) (nd : MenuNode) : MenuNode :=
  mkNode (id nd) (selected nd) (action nd) (next nd) (prev nd) (position nd) t.

Definition set_itemTray (l : list addr) (m : Menu) : Menu :=
  mkMenu l (itemSelected m) (enabled m) (opened m) (itemCount m)
    (groupPosition m) (gapBetweenItems m) (menuOffsetItems m)
    (revolvingMenu m) (openBehavior m).
Definition set_itemSelected (n : Z) (m : Menu) : Menu :=
  mkMenu (itemTray m) n (enabled m) (opened m) (itemCount m)
    (groupPosition m) (gapBetweenItems m) (menuOffsetItems m)
    (revolvingMenu m) (openBehavior m).
Definition set_opened_enabled (b : bool) (m : Menu) : Menu :=
  mkMenu (itemTray m) (itemSelected m) b b (itemCount m)
    (groupPosition m) (gapBetweenItems m) (menuOffsetItems m)
    (revolvingMenu m) (openBehavior m).
Definition set_itemCount (n : Z) (m : Menu) : Menu :=
  mkMenu (itemTray m) (itemSelected m) (enabled m) (opened m) n
    (groupPosition m) (gapBetweenItems m) (menuOffsetItems m)
    (revolvingMenu m) (openBehavior m).
Definition set_groupPosition (p : Vec3) (m : Menu) : Menu :=
  mkMenu (itemTray m) (itemSelected m) (enabled m) (opened m) (itemCount m)
    p (gapBetweenItems m) (menuOffsetItems m)
    (revolvingMenu m) (openBehavior m).
Definition set_revolvingMenu (b : bool) (m : Menu) : Menu :=
  mkMenu (itemTray m) (itemSelected m) (enabled m) (opened m) (itemCount m)
    (groupPosition m) (gapBetweenItems m) (menuOffsetItems m)
    b (openBehavior m).

(** *** Store access *)

(** [a.f] for a node reference [a]: a [TypeError] when [a] is [null]. *)
Definition getNode (a : option addr) (w : World) : Result MenuNode :=
  match a with
  | None => TypeError
  | Some i => match heap w !! i with Some nd => Ok nd | None => TypeError end
  end.

Definition getMenu (m : handle) (w : World) : Result Menu :=
  match menus w !! m with Some mn => Ok mn | None => TypeError end.

Definition updNode (a : addr) (f : MenuNode -> MenuNode) (w : World) : World :=
  set_heap (alter f a (heap w)) w.

Definition updMenu (m : handle) (f : Menu -> Menu) (w : World) : World :=
  set_menus (alter f m (menus w)) w.

Definition logMotion (mo : Motion) (w : World) : World :=
  set_motions (motions w ++ [mo]) w.

(** [a == b] on references, [a] being an object. *)
Definition sameRef (a b : option addr) : bool :=
  match a, b with
  | Some i, Some j => Nat.eqb i j
  | _, _ => false
  end.

(** Iterations any walk along [next] or [prev] can make before it comes
    back to a node it has seen: the loops below write neither links nor
    ids, so a walk that has not stopped by then never stops. *)
Definition walkFuel (w : World) : nat := S (length (heap w)).

(** ** Construction *)

(** The optional [_properties] argument of [new Menu]; an absent key is
    [None]. *)
Record Vec3Props : Type := mkVec3Props {
  p_x : option Z;
  p_y : option Z;
  p_z : option Z
}.

Record Properties : Type := mkProperties {
  p_gapBetweenItems : option Vec3Props;
  p_menuOffsetItems : option Vec3Props;
  p_revolvingMenu : option bool;
  p_openBehavior : option Z
}.

Definition noProperties : Properties := mkProperties None None None None.

(** [(typeof p.x === "number") ? p.x : dflt], component by component. *)
Definition vecOr (p : option Vec3Props) (dflt : Vec3) : Vec3 :=
  match p with
  | None => dflt
  | Some v =>
      mkVec3 (default (vx dflt) (p_x v)) (default (vy dflt) (p_y v))
             (default (vz dflt) (p_z v))
  end.

(** [(_properties && _properties.revolvingMenu) ? _properties.revolvingMenu : true] *)
Definition init_revolvingMenu (_properties : option Properties) : bool :=
  match _properties with
  | Some p =>
      match p_revolvingMenu p with
      | Some true => true
      | Some false => true
      | None => true
      end
  | None => true
  end.

(** [(_properties && _properties.openBehavior && typeof ... === "number")
     ? _properties.openBehavior : this.OPEN_NOTRANSITION] *)
Definition init_openBehavior (_properties : option Properties) : Z :=
  match _properties with
  | Some p =>
      match p_openBehavior p with
      | Some n => if Z.eqb n 0 then OPEN_NOTRANSITION else n
      | None => OPEN_NOTRANSITION
      end
  | None => OPEN_NOTRANSITION
  end.

(** [Menu.prototype.init]: resets the module-level counter, selection and
    edges, then fills in the instance's settings. *)
Definition init (_properties : option Properties) (w : World) : Menu * World :=
  let w := set_nextNodeID 0 w in
  let w := set_nodeToSelect None w in
  let w := set_rightEdge None w in
  let w := set_leftEdge None w in
  let gap := vecOr (_properties ≫= p_gapBetweenItems) (mkVec3 1 0 0) in
  let off := vecOr (_properties ≫= p_menuOffsetItems) vzero in
  (mkMenu [] 0 true false 0 vzero gap off
     (init_revolvingMenu _properties) (init_openBehavior _properties), w).

(** [new Menu(_scene, _camera, _properties)]: the handle of the new
    instance and the world after [init]. *)
Definition newMenu (_properties : option Properties) (w : World) : handle * World :=
  let '(mn, w) := init _properties w in
  (length (menus w), set_menus (menus w ++ [mn]) w).

(** ** Layout *)

(** The body of the [do ... while] of [repositionNodes]. *)
Fixpoint repositionNodes_loop (fuel : nat) (gap : Vec3) (median : Z)
    (isEven : bool) (current : option addr) (pos : Vec3) (w : World)
    : Result (Vec3 * World) :=
  match fuel with
  | O => Diverges
  | S fuel' =>
      let pos := vadd pos gap in
      do cur <- getNode current w;
      let w := match current with
               | Some a => updNode a (set_position pos) w
               | None => w
               end in
      let w := if (Z.eqb (nextNodeID w) 2 && Z.eqb (id cur) 1)
                  || Z.eqb (id cur) (median + 1)
               then set_leftEdge current w else w in
      let '(pos, w) :=
        if Z.eqb (id cur) median then
          let medianFactor := (if isEven then 0 else 1)%Z in
          (vneg (vadd pos (vscale medianFactor gap)), set_rightEdge current w)
        else (pos, w) in
      let current := next cur in
      do nxt <- getNode current w;
      do fst <- getNode (firstNode w) w;
      if negb (Z.eqb (id nxt) (id fst))
      then repositionNodes_loop fuel' gap median isEven current pos w
      else Ok (pos, w)
  end.

(** [Menu.prototype.repositionNodes] *)
Definition repositionNodes (m : handle) (w : World) : Result (Vec3 * World) :=
  do mn <- getMenu m w;
  let w := updMenu m (set_groupPosition vzero) w in
  let gap := gapBetweenItems mn in
  let pos := vsub vzero gap in
  let total := nextNodeID w in
  let isEven := Z.eqb (total mod 2) 0 in
  let median := (total / 2)%Z in
  do (pos, w) <- repositionNodes_loop (walkFuel w) gap median isEven
                    (firstNode w) pos w;
  let w := updMenu m (fun mn' =>
             set_groupPosition (vadd (groupPosition mn') (menuOffsetItems mn')) mn') w in
  Ok (pos, w).

(** [Menu.prototype.add]: the node's id is the third constructor argument,
    [this.itemTray.length]; the mesh is tagged with [nextNodeID]. *)
Definition add (m : handle) (_doOnSelect : option nat) (w : World) : Result World :=
  do mn <- getMenu m w;
  let a := length (heap w) in
  let node := MenuNode_new _doOnSelect (Z.of_nat (length (itemTray mn))) in
  let w := set_heap (heap w ++ [node]) w in
  let w := if Z.eqb (nextNodeID w) 0 then
             let w := set_firstNode (Some a) w in
             let w := set_latestNode (Some a) w in
             let w := updNode a (set_selected true) w in
             set_nodeToSelect (Some a) w
           else w in
  let w := updNode a (set_prev (latestNode w)) w in
  let w := updNode a (set_next (firstNode w)) w in
  do nd <- getNode (Some a) w;
  do _ <- getNode (prev nd) w;
  let w := match prev nd with
           | Some p => updNode p (set_next (Some a)) w
           | None => w
           end in
  do nd <- getNode (Some a) w;
  do _ <- getNode (next nd) w;
  let w := match next nd with
           | Some q => updNode q (set_prev (Some a)) w
           | None => w
           end in
  let w := set_latestNode (Some a) w in
  let w := updNode a (set_itemTag (nextNodeID w)) w in
  let w := set_nextNodeID (nextNodeID w + 1)%Z w in
  let w := updNode a (set_position vzero) w in
  let w := updMenu m (fun mn' =>
             set_itemCount (itemCount mn' + 1)%Z
               (set_itemTray (itemTray mn' ++ [a]) mn')) w in
  do (_, w) <- repositionNodes m w;
  Ok w.

(** ** Navigation *)

(** The guard shared by the two rotations:
    [!this.opened || nextNodeID <= 1 || isMoving || !this.revolvingMenu && atEnd]. *)
Definition rotationBlocked (mn : Menu) (atEnd : bool) (w : World) : bool :=
  negb (opened mn) || Z.leb (nextNodeID w) 1 || isMoving w
  || (negb (revolvingMenu mn) && atEnd).

(** The [do ... while] of [moveToNext]. *)
Fixpoint moveToNext_loop (fuel : nat) (gap : Vec3) (currentNode : option addr)
    (w : World) : Result World :=
  match fuel with
  | O => Diverges
  | S fuel' =>
      do _ <- getNode currentNode w;
      do w <- (if sameRef currentNode (leftEdge w) then
                 do le <- getNode (leftEdge w) w;
                 do lp <- getNode (prev le) w;
                 let w := match leftEdge w with
                          | Some l => updNode l (set_position (vadd (position lp) gap)) w
                          | None => w
                          end in
                 Ok (set_rightEdge (leftEdge w) w)
               else Ok w);
      do cur <- getNode currentNode w;
      let w := match currentNode with
               | Some a => logMotion (MoveTo a (vsub (position cur) gap)) w
               | None => w
               end in
      let w := if selected cur then
                 let w := set_nodeToSelect (next cur) w in
                 match currentNode with
                 | Some a => updNode a (set_selected false) w
                 | None => w
                 end
               else w in
      let currentNode := next cur in
      do nxt <- getNode currentNode w;
      do fst <- getNode (firstNode w) w;
      if negb (Z.eqb (id nxt) (id fst))
      then moveToNext_loop fuel' gap currentNode w
      else Ok w
  end.

(** [Menu.prototype.moveToNext] *)
Definition moveToNext (m : handle) (w : World) : Result World :=
  do mn <- getMenu m w;
  if rotationBlocked mn
       (Z.leb (Z.of_nat (length (itemTray mn)) - 1) (itemSelected mn)) w
  then Ok (set_keyPressed false w)
  else
    let w := set_isMoving true w in
    do w <- moveToNext_loop (walkFuel w) (gapBetweenItems mn) (firstNode w) w;
    do le <- getNode (leftEdge w) w;
    let w := set_leftEdge (next le) w in
    do _ <- getNode (nodeToSelect w) w;
    let w := match nodeToSelect w with
             | Some s => updNode s (set_selected true) w
             | None => w
             end in
    do sel <- getNode (nodeToSelect w) w;
    let w := updMenu m (set_itemSelected (id sel)) w in
    Ok (set_isMoving false w).

(** The [do ... while] of [moveToPrev]. *)
Fixpoint moveToPrev_loop (fuel : nat) (gap : Vec3) (currentNode : option addr)
    (w : World) : Result World :=
  match fuel with
  | O => Diverges
  | S fuel' =>
      do _ <- getNode currentNode w;
      do w <- (if sameRef currentNode (rightEdge w) then
                 do re <- getNode (rightEdge w) w;
                 do rn <- getNode (next re) w;
                 let w := match rightEdge w with
                          | Some r => updNode r (set_position (vsub (position rn) gap)) w
                          | None => w
                          end in
                 Ok (set_leftEdge (rightEdge w) w)
               else Ok w);
      do cur <- getNode currentNode w;
      let w := match currentNode with
               | Some a => logMotion (MoveTo a (vadd (position cur) gap)) w
               | None => w
               end in
      let w := if selected cur then
                 let w := set_nodeToSelect (prev cur) w in
                 match currentNode with
                 | Some a => updNode a (set_selected false) w
                 | None => w
                 end
               else w in
      let currentNode := prev cur in
      do nxt <- getNode currentNode w;
      do fst <- getNode (firstNode w) w;
      if negb (Z.eqb (id nxt) (id fst))
      then moveToPrev_loop fuel' gap currentNode w
      else Ok w
  end.

(** [Menu.prototype.moveToPrev] *)
Definition moveToPrev (m : handle) (w : World) : Result World :=
  do mn <- getMenu m w;
  if rotationBlocked mn (Z.leb (itemSelected mn) 0) w
  then Ok (set_keyPressed false w)
  else
    let w := set_isMoving true w in
    do w <- moveToPrev_loop (walkFuel w) (gapBetweenItems mn) (firstNode w) w;
    do re <- getNode (rightEdge w) w;
    let w := set_rightEdge (prev re) w in
    do _ <- getNode (nodeToSelect w) w;
    let w := match nodeToSelect w with
             | Some s => updNode s (set_selected true) w
             | None => w
             end in
    do sel <- getNode (nodeToSelect w) w;
    let w := updMenu m (set_itemSelected (id sel)) w in
    Ok (set_isMoving false w).

(** [Menu.prototype.selectItem]: the pulse is requested; its completion
    callback (which runs the item's action) belongs to the engine. *)
Definition selectItem (m : handle) (w : World) : Result World :=
  do mn <- getMenu m w;
  if negb (opened mn) || negb (enabled mn)
  then Ok (set_keyPressed false w)
  else
    do sel <- getNode (nodeToSelect w) w;
    match nodeToSelect w with
    | Some s => Ok (logMotion (Pulse s (action sel)) w)
    | None => TypeError
    end.

(** The loops of [open] and [close]: one request per node of the ring. *)
Fixpoint forEachNode_loop (fuel : nat) (req : addr -> Motion)
    (currentNode : option addr) (w : World) : Result World :=
  match fuel with
  | O => Diverges
  | S fuel' =>
      do cur <- getNode currentNode w;
      let w := match currentNode with
               | Some a => logMotion (req a) w
               | None => w
               end in
      let currentNode := next cur in
      do nxt <- getNode currentNode w;
      do fst <- getNode (firstNode w) w;
      if negb (Z.eqb (id nxt) (id fst))
      then forEachNode_loop fuel' req currentNode w
      else Ok w
  end.

(** [Menu.prototype.open] *)
Definition open (m : handle) (w : World) : Result World :=
  do mn <- getMenu m w;
  if opened mn then Ok w
  else
    do w <- (if Z.eqb (openBehavior mn) OPEN_GROW
             then forEachNode_loop (walkFuel w) GrowTo (firstNode w) w
             else if Z.eqb (openBehavior mn) OPEN_TRANSPARENCY
             then forEachNode_loop (walkFuel w) FadeIn (firstNode w) w
             else Ok w);
    Ok (updMenu m (set_opened_enabled true) w).

(** [Menu.prototype.close] *)
Definition close (m : handle) (w : World) : Result World :=
  do mn <- getMenu m w;
  if negb (opened mn) then Ok w
  else
    do w <- forEachNode_loop (walkFuel w) ShrinkTo (firstNode w) w;
    Ok (updMenu m (set_opened_enabled false) w).

(** ** Hit-target resolution *)

(** The [while] of [traversalCheck]. *)
Fixpoint traversalCheck_loop (fuel : nat) (endNode current : option addr)
    (targetID : Z) (isLeft : bool) (w : World) : Result bool :=
  do cur <- getNode current w;
  do e <- getNode endNode w;
  if negb (Z.eqb (id cur) (id e)) then
    if Z.eqb (id cur) targetID then Ok true
    else
      match fuel with
      | O => Diverges
      | S fuel' =>
          traversalCheck_loop fuel' endNode
            (if isLeft then prev cur else next cur) targetID isLeft w
      end
  else Ok (Z.eqb (id cur) targetID).

(** [traversalCheck(selectedNode, endNode, targetID, isLeft)] *)
Definition traversalCheck (selectedNode endNode : option addr) (targetID : Z)
    (isLeft : bool) (w : World) : Result bool :=
  traversalCheck_loop (walkFuel w) endNode selectedNode targetID isLeft w.

(** Which branch a call of [clickItem] took: nothing done, the selection
    pulsed, or one rotation made (and the interval it started, if any).
    The source returns nothing; the tag lets a caller count rotations. *)
Inductive ClickOutcome : Type :=
| Ignored
| Selected
| Rotated (forward : bool) (timer : option nat).

(** [setInterval(callback, delay)] *)
Definition setInterval (t : Timer) (w : World) : nat * World :=
  (length (timers w), set_timers (timers w ++ [Some t]) w).

(** [clearInterval(timer)] *)
Definition clearInterval (i : nat) (w : World) : World :=
  set_timers (<[i := None]> (timers w)) w.

(** One rotation of [clickItem] and, when the target is not yet selected,
    the interval that repeats it. *)
Definition rotateToward (m : handle) (forward : bool) (tag : Z) (w : World)
    : Result (ClickOutcome * World) :=
  do w <- (if forward then moveToNext m w else moveToPrev m w);
  do sel <- getNode (nodeToSelect w) w;
  if negb (Z.eqb (id sel) tag) then
    let '(i, w) := setInterval (mkTimer m forward tag) w in
    Ok (Rotated forward (Some i), w)
  else Ok (Rotated forward None, w).

(** [Menu.prototype.clickItem]: [hit] is the [itemTag] of the first object
    the ray meets, [None] when it meets none. *)
Definition clickItem (m : handle) (hit : option Z) (w : World)
    : Result (ClickOutcome * World) :=
  do mn <- getMenu m w;
  if negb (opened mn) || clicked w then Ok (Ignored, w)
  else
    match hit with
    | None => Ok (Ignored, w)
    | Some tag =>
        do sel <- getNode (nodeToSelect w) w;
        if Z.eqb (id sel) tag then
          do w <- selectItem m w; Ok (Selected, w)
        else
          do fwd <- traversalCheck (nodeToSelect w) (rightEdge w) tag false w;
          if fwd then rotateToward m true tag w
          else
            do bwd <- traversalCheck (nodeToSelect w) (leftEdge w) tag true w;
            if bwd then rotateToward m false tag w
            else Ok (Ignored, w)
    end.

(** One firing of the interval's callback. *)
Definition tick (i : nat) (w : World) : Result World :=
  match timers w !! i with
  | Some (Some t) =>
      do w <- (if t_forward t then moveToNext (t_menu t) w
               else moveToPrev (t_menu t) w);
      do sel <- getNode (nodeToSelect w) w;
      if Z.eqb (id sel) (t_target t) then Ok (clearInterval i w) else Ok w
  | _ => Ok w
  end.

(** The interval firing until it clears itself; the number of firings. *)
Fixpoint runInterval (fuel : nat) (i : nat) (w : World) : Result (nat * World) :=
  match timers w !! i with
  | Some (Some _) =>
      match fuel with
      | O => Diverges
      | S fuel' =>
          do w <- tick i w;
          do (k, w) <- runInterval fuel' i w;
          Ok (S k, w)
      end
  | _ => Ok (O, w)
  end.

(** A click followed by its interval run to the end: the number of
    single-step rotations made in all. *)
Definition clickAndSettle (fuel : nat) (m : handle) (hit : option Z) (w : World)
    : Result (nat * World) :=
  do (o, w) <- clickItem m hit w;
  match o with
  | Ignored | Selected => Ok (O, w)
  | Rotated _ None => Ok (1, w)
  | Rotated _ (Some i) =>
      do (k, w) <- runInterval fuel i w; Ok (S k, w)
  end.

(** ** Scenarios *)

(** [n] calls of [add] on menu [m]. *)
Fixpoint addItems (n : nat) (m : handle) (w : World) : Result World :=
  match n with
  | O => Ok w
  | S n' => do w <- addItems n' m w; add m None w
  end.

(** A page that constructs one menu and adds [n] items to it. *)
Definition freshMenu (_properties : option Properties) (n : nat) : Result World :=
  addItems n 0 (snd (newMenu _properties initial)).

(** The commands of the navigation controller. *)
Inductive Cmd : Type := COpen | CClose | CNext | CPrev | CSelect.

Definition exec (m : handle) (c : Cmd) (w : World) : Result World :=
  match c with
  | COpen => open m w
  | CClose => close m w
  | CNext => moveToNext m w
  | CPrev => moveToPrev m w
  | CSelect => selectItem m w
  end.

Fixpoint run (m : handle) (cs : list Cmd) (w : World) : Result World :=
  match cs with
  | [] => Ok w
  | c :: cs' => do w <- exec m c w; run m cs' w
  end.

(** The node reached from [a] by [k] steps along [next]. *)
Fixpoint nthNext (k : nat) (a : option addr) (w : World) : option addr :=
  match k with
  | O => a
  | S k' =>
      match a with
      | Some i => match heap w !! i with
                  | Some nd => nthNext k' (next nd) w
                  | None => None
                  end
      | None => None
      end
  end.

(** The node at traversal index [k]: the walk starts at [firstNode]. *)
Definition nodeAt (k : nat) (w : World) : option addr := nthNext k (firstNode w) w.

Definition idOf (a : option addr) (w : World) : option Z :=
  a ≫= fun i => id <$> heap w !! i.
Definition prevOf (a : option addr) (w : World) : option addr :=
  a ≫= fun i => (heap w !! i) ≫= prev.
Definition nextOf (a : option addr) (w : World) : option addr :=
  a ≫= fun i => (heap w !! i) ≫= next.

(** The nodes whose [selected] flag is set. *)
Definition selectedNodes (w : World) : list addr :=
  filter (fun i => (selected <$> heap w !! i) = Some true) (seq 0 (length (heap w))).

(** * The ring, its invariants and the claims *)

(** ** The ring of a single menu

    In a page with one menu the [k]-th node added lives at address [k],
    has id [k], and is linked to its neighbours modulo the item count. *)

(** The neighbours of address [k] on a ring of [n] nodes. *)
Definition succ_mod (n k : nat) : nat := if Nat.eqb (S k) n then 0 else S k.
Definition pred_mod (n k : nat) : nat := if Nat.eqb k 0 then n - 1 else k - 1.

(** The fields of a node that make the ring: its id and its two links. *)
Definition linksOf (nd : MenuNode) : Z * option addr * option addr :=
  (id nd, next nd, prev nd).

(** The ids and links of the ring of [n] nodes. *)
Definition ringLinks (n : nat) : list (Z * option addr * option addr) :=
  (fun k => (Z.of_nat k, Some (succ_mod n k), Some (pred_mod n k))) <$> seq 0 n.

(** The heap is one cycle of [n] nodes, ids in traversal order. *)
Definition RingOK (n : nat) (h : list MenuNode) : Prop :=
  linksOf <$> h = ringLinks n.

(** Exactly the node at [s] carries the [selected] flag. *)
Definition SelIs (n s : nat) (h : list MenuNode) : Prop :=
  selected <$> h = (fun k => Nat.eqb k s) <$> seq 0 n.

(** No node carries the flag (the state in the middle of a rotation). *)
Definition NoSel (n : nat) (h : list MenuNode) : Prop :=
  selected <$> h = (fun _ => false) <$> seq 0 n.

(** [this.opened] of menu [m]. *)
Definition isOpen (m : handle) (w : World) : bool :=
  match menus w !! m with Some mn => opened mn | None => false end.

(** The slot the layout gives to traversal index [k] of [n]: multiples of
    the gap up to the median, negative multiples after it. *)
Definition slot (n : nat) (gap : Vec3) (k : nat) : Vec3 :=
  if Nat.leb k (n / 2) then vscale (Z.of_nat k) gap
  else vscale (Z.of_nat k - Z.of_nat n) gap.

(** The traversal index that becomes [leftEdge]. *)
Definition leftIndex (n : nat) : nat := if Nat.eqb n 2 then 1 else n / 2 + 1.

(** The gap and offset a menu gets from its construction properties. *)
Definition gapOf (P : option Properties) : Vec3 :=
  vecOr (P ≫= p_gapBetweenItems) (mkVec3 1 0 0).
Definition offsetOf (P : option Properties) : Vec3 :=
  vecOr (P ≫= p_menuOffsetItems) vzero.

(** A page session: one menu built with [P], [n] items added, then the
    commands [cs]. *)
Definition session (P : option Properties) (n : nat) (cs : list Cmd) : Result World :=
  do w <- freshMenu P n; run 0 cs w.

(** Updates that leave a node's id and links alone keep the ring. *)
Definition keepsLinks (f : MenuNode -> MenuNode) : Prop :=
  forall nd, linksOf (f nd) = linksOf nd.

(** ** Vocabulary of the proofs *)

(** What the loop of [repositionNodes] leaves alone. *)
Definition layoutFrame (w : World) :=
  (menus w, keyPressed w, clicked w, isMoving w, firstNode w, latestNode w,
   nodeToSelect w, nextNodeID w, motions w, timers w).

(** One pass of the body of the [repositionNodes] loop at traversal
    index [k] of a ring of [n] nodes. *)
Definition repo_iter (n : nat) (gap : Vec3) (k : nat) (pos : Vec3) (w : World)
    : Vec3 * World :=
  let p := vadd pos gap in
  let w := updNode k (set_position p) w in
  let w := if (Nat.eqb n 2 && Nat.eqb k 1) || Nat.eqb k (n / 2 + 1)
           then set_leftEdge (Some k) w else w in
  if Nat.eqb k (n / 2)
  then (vneg (vadd p (vscale (if Nat.eqb (n mod 2) 0 then 0 else 1) gap)),
        set_rightEdge (Some k) w)
  else (p, w).

(** What the [repositionNodes] loop, entered at traversal index [k], has
    done when it returns. *)
Record RepoPost (n : nat) (gap : Vec3) (k : nat) (w w' : World) : Prop := {
  rp_ring : RingOK n (heap w');
  rp_flags : selected <$> heap w' = selected <$> heap w;
  rp_new : forall j, k <= j < n ->
             (position <$> heap w') !! j = Some (slot n gap j);
  rp_old : forall j, j < k ->
             (position <$> heap w') !! j = (position <$> heap w) !! j;
  rp_left : leftEdge w'
            = if Nat.leb k (leftIndex n) && Nat.ltb (leftIndex n) n
              then Some (leftIndex n) else leftEdge w;
  rp_right : rightEdge w'
             = if Nat.leb k (n / 2) then Some (n / 2) else rightEdge w;
  rp_frame : layoutFrame w' = layoutFrame w
}.

(** The module-level state other than the edges, and the two logs. *)
Definition restOf (w : World) :=
  (keyPressed w, clicked w, isMoving w, firstNode w, latestNode w,
   nodeToSelect w, nextNodeID w, motions w, timers w).

(** The menu record after [n] items have been added. *)
Definition builtMenu (P : option Properties) (n : nat) : Menu :=
  mkMenu (seq 0 n) 0 true false (Z.of_nat n) (vadd vzero (offsetOf P))
    (gapOf P) (offsetOf P) (init_revolvingMenu P) (init_openBehavior P).

(** The page after [n >= 1] items have been added to its one menu. *)
Record Built (P : option Properties) (n : nat) (w : World) : Prop := {
  b_ring : RingOK n (heap w);
  b_sel : SelIs n 0 (heap w);
  b_pos : forall j, j < n ->
            (position <$> heap w) !! j = Some (slot n (gapOf P) j);
  b_left : leftEdge w
           = if Nat.ltb (leftIndex n) n then Some (leftIndex n) else None;
  b_right : rightEdge w = Some (n / 2);
  b_menus : menus w = [builtMenu P n];
  b_rest : restOf w
           = (false, false, false, Some 0, Some (n - 1), Some 0, Z.of_nat n,
              [], [])
}.

(** The world [add] hands to [repositionNodes] when the ring already has
    [n >= 1] nodes: the straight-line part of [add], branches resolved. *)
Definition linked (n : nat) (w : World) : World :=
  let w := set_heap (heap w ++ [MenuNode_new None (Z.of_nat n)]) w in
  let w := updNode n (set_prev (Some (n - 1))) w in
  let w := updNode n (set_next (Some 0)) w in
  let w := updNode (n - 1) (set_next (Some n)) w in
  let w := updNode 0 (set_prev (Some n)) w in
  let w := set_latestNode (Some n) w in
  let w := updNode n (set_itemTag (Z.of_nat n)) w in
  let w := set_nextNodeID (Z.of_nat n + 1)%Z w in
  let w := updNode n (set_position vzero) w in
  updMenu 0 (fun mn' =>
    set_itemCount (itemCount mn' + 1)%Z
      (set_itemTray (itemTray mn' ++ [n]) mn')) w.

(** The page after the first [add]. *)
Definition firstAdded (P : option Properties) : World :=
  mkWorld
    [mkNode 0 true None (Some 0) (Some 0)
       (vadd (vsub vzero (gapOf P)) (gapOf P)) 0]
    [builtMenu P 1] false false false None (Some 0) (Some 0) (Some 0) (Some 0)
    1 [] [].

(** The node stored at address [k] (a blank node when there is none). *)
Definition the (k : addr) (w : World) : MenuNode :=
  default (MenuNode_new None 0) (heap w !! k).

(** What the loops of [moveToNext] and [moveToPrev] leave alone. *)
Definition ctl (w : World) :=
  (menus w, keyPressed w, clicked w, isMoving w, firstNode w, latestNode w,
   nextNodeID w, timers w).

(** One pass of the body of the [moveToNext] loop at node [k] of a ring
    of [n] nodes, [l] being the left edge. *)
Definition next_iter (n : nat) (gap : Vec3) (l k : nat) (w : World) : World :=
  let w := if Nat.eqb k l
           then set_rightEdge (Some l)
                  (updNode l (set_position
                     (vadd (position (the (pred_mod n l) w)) gap)) w)
           else w in
  let cur := the k w in
  let w := logMotion (MoveTo k (vsub (position cur) gap)) w in
  if selected cur
  then updNode k (set_selected false)
         (set_nodeToSelect (Some (succ_mod n k)) w)
  else w.

(** Where the selection stands when the loop of a rotation reaches a
    node: still on [s], or already handed to [t]. *)
Definition Phase (n s t : nat) (ahead : Prop) (w : World) : Prop :=
  (ahead /\ SelIs n s (heap w))
  \/ (NoSel n (heap w) /\ nodeToSelect w = Some t).

(** The state of a one-menu page between two calls: a ring of [n >= 2]
    nodes, the selection on [s], the edges on [l] and [r]. *)
Record St (n s l r : nat) (w : World) : Prop := {
  st_ring : RingOK n (heap w);
  st_sel : SelIs n s (heap w);
  st_s : s < n;
  st_l : l < n;
  st_r : r < n;
  st_first : firstNode w = Some 0;
  st_count : nextNodeID w = Z.of_nat n;
  st_idle : isMoving w = false;
  st_nts : nodeToSelect w = Some s;
  st_left : leftEdge w = Some l;
  st_right : rightEdge w = Some r
}.

(** The part of the page a rotation never touches. *)
Definition bystanders (w : World) :=
  (keyPressed w, clicked w, latestNode w, timers w).

(** One pass of the body of the [moveToPrev] loop at node [k] of a ring
    of [n] nodes, [r] being the right edge. *)
Definition prev_iter (n : nat) (gap : Vec3) (r k : nat) (w : World) : World :=
  let w := if Nat.eqb k r
           then set_leftEdge (Some r)
                  (updNode r (set_position
                     (vsub (position (the (succ_mod n r) w)) gap)) w)
           else w in
  let cur := the k w in
  let w := logMotion (MoveTo k (vadd (position cur) gap)) w in
  if selected cur
  then updNode k (set_selected false)
         (set_nodeToSelect (Some (pred_mod n k)) w)
  else w.

(** The edges are adjacent across the seam, or the ring is the two-item
    ring as the layout leaves it. *)
Definition EdgesOK (n s l r : nat) : Prop :=
  r = pred_mod n l \/ (n = 2 /\ s = 0 /\ l = 1 /\ r = 1).

(** The states a session of a one-menu page goes through. *)
Record Good (n : nat) (w : World) : Prop := {
  g_ring : RingOK n (heap w);
  g_first : firstNode w = Some 0;
  g_count : nextNodeID w = Z.of_nat n;
  g_idle : isMoving w = false;
  g_clicked : clicked w = false;
  g_sel : exists s, s < n /\ nodeToSelect w = Some s /\ SelIs n s (heap w)
            /\ (2 <= n -> exists l r,
                  l < n /\ r < n /\ leftEdge w = Some l
                  /\ rightEdge w = Some r /\ EdgesOK n s l r);
  g_menu : exists mn, menus w = [mn] /\ revolvingMenu mn = true
                      /\ (opened mn = true -> enabled mn = true)
}.

(** The ids on the walk from [c] along [next] up to [r], as a test on the
    target. *)
Definition fwdArc (n c r : nat) (t : Z) : bool :=
  if Nat.leb c r
  then Z.leb (Z.of_nat c) t && Z.leb t (Z.of_nat r)
  else (Z.leb (Z.of_nat c) t && Z.ltb t (Z.of_nat n))
       || (Z.leb 0 t && Z.leb t (Z.of_nat r)).

(** The ids on the walk from [c] along [prev] down to [l]. *)
Definition bwdArc (n c l : nat) (t : Z) : bool :=
  if Nat.leb l c
  then Z.leb (Z.of_nat l) t && Z.leb t (Z.of_nat c)
  else (Z.leb 0 t && Z.leb t (Z.of_nat c))
       || (Z.leb (Z.of_nat l) t && Z.ltb t (Z.of_nat n)).

(** An open, enabled, revolving one-menu page at rest. *)
Definition Nav (n s l r : nat) (w : World) : Prop :=
  St n s l r w /\ clicked w = false
  /\ exists mn, menus w = [mn] /\ opened mn = true /\ enabled mn = true
                /\ revolvingMenu mn = true.

(** One step of the selection in the direction of a rotation. *)
Definition stepSel (fwd : bool) (n s : nat) : nat :=
  if fwd then succ_mod n s else pred_mod n s.

(** The number of steps from [s] to [t] in that direction. *)
Definition distTo (fwd : bool) (n s t : nat) : nat :=
  if fwd then (if Nat.leb s t then t - s else n - s + t)
  else (if Nat.leb t s then s - t else s + n - t).

(** The left and right edges after a rotation. *)
Definition stepLeft (fwd : bool) (n l r : nat) : nat :=
  if fwd then succ_mod n l else r.
Definition stepRight (fwd : bool) (n l r : nat) : nat :=
  if fwd then l else pred_mod n r.

(** A one-menu page to which nothing has been added. *)
Definition Empty (w : World) : Prop :=
  nextNodeID w = 0%Z /\ firstNode w = None /\ nodeToSelect w = None
  /\ exists mn, menus w = [mn].

(** The world a call returned ([initial] when it did not return). *)
Definition resultWorld (r : Result World) : World :=
  match r with Ok w => w | _ => initial end.


(** The ids of the selection, the left edge and the right edge. *)
Definition seamView (r : Result World) : option (option Z * option Z * option Z) :=
  match r with
  | Ok w => Some (idOf (nodeToSelect w) w, idOf (leftEdge w) w,
                  idOf (rightEdge w) w)
  | _ => None
  end.

(** The edges are set and adjacent: [rightEdge == leftEdge.prev]. *)
Definition seamAdjacent (w : World) : Prop :=
  is_Some (rightEdge w) /\ rightEdge w = prevOf (leftEdge w) w.

(** Construction properties asking for a menu that does not revolve. *)
Definition nonRevolving : option Properties :=
  Some (mkProperties None None (Some false) None).

(** The page of the two-menu scenario: menu 0 gets three items, then a
    second menu is constructed and gets two. *)
Definition twoMenus : Result World :=
  do w <- freshMenu None 3;
  let '(b, w) := newMenu None w in
  do w <- add b None w;
  add b None w.

(** ** Vocabulary of the further properties *)

(** The node reached from [a] by [k] steps along [prev]. *)
Fixpoint nthPrev (k : nat) (a : option addr) (w : World) : option addr :=
  match k with
  | O => a
  | S k' =>
      match a with
      | Some i => match heap w !! i with
                  | Some nd => nthPrev k' (prev nd) w
                  | None => None
                  end
      | None => None
      end
  end.

(** What makes a node the node it is: everything but its position and
    its [selected] flag. *)
Definition skeleton (nd : MenuNode) :=
  (id nd, action nd, next nd, prev nd, itemTag nd).

(** The settings and the tray of a menu: everything but [itemSelected],
    [opened], [enabled] and the position of its group. *)
Definition settings (mn : Menu) :=
  (itemTray mn, itemCount mn, gapBetweenItems mn, menuOffsetItems mn,
   revolvingMenu mn, openBehavior mn).

(** The part of the page that only [new Menu] and [add] write. *)
Definition structure (w : World) :=
  (skeleton <$> heap w, settings <$> menus w, firstNode w, latestNode w,
   nextNodeID w).

(** The outcome a resolved click returned ([0] rotations and [initial]
    when it did not return). *)
Definition settled (r : Result (nat * World)) : nat * World :=
  match r with Ok x => x | _ => (0, initial) end.

(** The skeleton of the [k]-th node of a one-menu page with [n] items
    added without a callback. *)
Definition ringSkeleton (n k : nat) :=
  (Z.of_nat k, @None nat, Some (succ_mod n k), Some (pred_mod n k), Z.of_nat k).

(** The structure of a one-menu page built with [P] after [n] calls of
    [add]. *)
Definition builtStructure (P : option Properties) (n : nat) :=
  (ringSkeleton n <$> seq 0 n,
   [(seq 0 n, Z.of_nat n, gapOf P, offsetOf P, true, init_openBehavior P)],
   Some 0, Some (n - 1), Z.of_nat n).

(** The order in which the loop of [moveToPrev], entered at node [k],
    visits the nodes: [k], [k-1], ..., [1]. *)
Definition downFrom (k : nat) : list nat := reverse (seq 1 k).


(** The engine's part of a request, once it has run to its end: the tween
    of a rotation has written its target into the position it animates
    and called [onComplete: () => { keyPressed = false }]; the pulse of
    [selectItem] has called its [onComplete], which clears [keyPressed]
    too (and runs the item's action, which is the page's own code); the
    scale and opacity tweens of [open] and [close] write fields that are
    not modelled. *)
Definition complete (mo : Motion) (w : World) : World :=
  match mo with
  | MoveTo a target => set_keyPressed false (updNode a (set_position target) w)
  | Pulse _ _ => set_keyPressed false w
  | GrowTo _ | FadeIn _ | ShrinkTo _ => w
  end.

(** Every request in flight has completed. *)
Definition settle (w : World) : World :=
  set_motions [] (foldl (fun w mo => complete mo w) w (motions w)).




(** The multiple of the gap at which the layout puts traversal index [k]. *)
Definition slotZ (n k : nat) : Z :=
  if Nat.leb k (n / 2) then Z.of_nat k else (Z.of_nat k - Z.of_nat n)%Z.

(** The edges sit at the far side of the ring from the selection [s]:
    [rightEdge] is [n / 2] steps along [next] from it, [leftEdge] one
    step more. *)
Definition Centred (n s l r : nat) : Prop :=
  distTo true n s r = n / 2 /\ distTo true n s l = n / 2 + 1.


(** The selection a sequence of rotations ends on. *)
Definition netSel (n : nat) (ds : list bool) (s : nat) : nat :=
  foldl (fun s d => stepSel d n s) s ds.

(** The requests [open] sends for a ring of [n] items: a grow-back or a
    fade-in for each item in ring order, or nothing, by [openBehavior]. *)
Definition openRequests (behavior : Z) (n : nat) : list Motion :=
  if Z.eqb behavior OPEN_GROW then GrowTo <$> seq 0 n
  else if Z.eqb behavior OPEN_TRANSPARENCY then FadeIn <$> seq 0 n
  else [].

(** The page after [open] has gone through on a closed menu, and after
    [close] has gone through on an open one. *)
Definition opening (n : nat) (mn : Menu) (w : World) : World :=
  set_menus [set_opened_enabled true mn]
    (set_motions (motions w ++ openRequests (openBehavior mn) n) w).
Definition closing (n : nat) (mn : Menu) (w : World) : World :=
  set_menus [set_opened_enabled false mn]
    (set_motions (motions w ++ (ShrinkTo <$> seq 0 n)) w).

(** A request that animates no position. *)
Definition keepsPlace (mo : Motion) : Prop :=
  match mo with MoveTo _ _ => False | _ => True end.

(** The command of a rotation in the given direction. *)
Definition rotCmd (forward : bool) : Cmd := if forward then CNext else CPrev.

(** How many rotations of a sequence go in direction [d]. *)
Definition steps (d : bool) (ds : list bool) : nat :=
  length (filter (fun x => x = d) ds).

(** What the state [St] of a page reads. *)
Definition navView (w : World) :=
  (linksOf <$> heap w, selected <$> heap w, firstNode w, nextNodeID w,
   isMoving w, nodeToSelect w, leftEdge w, rightEdge w).

(** The states a session of a one-menu page with three or more items goes
    through: no interval is live and the edges sit opposite the
    selection. *)
Definition Tidy (n : nat) (w : World) : Prop :=
  Good n w /\ timers w = []
  /\ exists s l r, St n s l r w /\ Centred n s l r.

(** [menu.revolvingMenu = b], an assignment made by the page: the field is
    public, and [init] cannot store [false] in it. *)
Definition setRevolving (m : handle) (b : bool) (w : World) : World :=
  updMenu m (set_revolvingMenu b) w.

(** One step of the selection of a menu that does not revolve: it stops
    at the last item going forward and at the first going backward. *)
Definition clampSel (forward : bool) (n s : nat) : nat :=
  if forward then Nat.min (S s) (n - 1) else s - 1.

(** The selection a sequence of rotations ends on when the menu does not
    revolve. *)
Definition clampWalk (n : nat) (ds : list bool) (s : nat) : nat :=
  foldl (fun s d => clampSel d n s) s ds.

(** An open one-menu page at rest whose menu does not revolve. *)
Definition Linear (n s : nat) (w : World) : Prop :=
  exists l r mn,
    St n s l r w /\ menus w = [mn] /\ opened mn = true
    /\ revolvingMenu mn = false /\ itemSelected mn = Z.of_nat s
    /\ length (itemTray mn) = n.

(** The keys [init] binds: [this.prevKey], [this.nextKey] and
    [this.selectKey].  No construction property changes them. *)
Definition prevKey : string := "ArrowLeft".
Definition nextKey : string := "ArrowRight".
Definition selectKey : string := "Enter".

(** The [keydown] listener that [registerEvents] installs for menu [m],
    run on an event whose [key] is [key]. *)
Definition keydown (m : handle) (key : string) (w : World) : Result World :=
  do mn <- getMenu m w;
  if keyPressed w || negb (enabled mn) then Ok w
  else
    let w := set_keyPressed true w in
    if String.eqb key prevKey then moveToPrev m w
    else if String.eqb key nextKey then moveToNext m w
    else if String.eqb key selectKey then selectItem m w
    else Ok (set_keyPressed false w).

(** A call [animate] makes on the item of a node:
    [item.animateSelected(elapsedTime)] or
    [item.animateDefault(elapsedTime)]. *)
Inductive AnimCall : Type :=
| AnimateSelected (a : addr) (elapsedTime : Z)
| AnimateDefault (a : addr) (elapsedTime : Z).

(** The [do ... while] of [animate]; [calls] collects the calls made so
    far. *)
Fixpoint animate_loop (fuel : nat) (elapsedTime : Z)
    (startingNode currentNode : option addr) (w : World)
    (calls : list AnimCall) : Result (list AnimCall) :=
  match fuel with
  | O => Diverges
  | S fuel' =>
      match currentNode with
      | None => Ok calls
      | Some a =>
          do cur <- getNode currentNode w;
          let calls := calls ++ [if selected cur
                                 then AnimateSelected a elapsedTime
                                 else AnimateDefault a elapsedTime] in
          let currentNode := next cur in
          do nxt <- getNode currentNode w;
          do st <- getNode startingNode w;
          if negb (Z.eqb (id nxt) (id st))
          then animate_loop fuel' elapsedTime startingNode currentNode w calls
          else Ok calls
      end
  end.

(** [Menu.prototype.animate]: the calls it makes on the items, in order.
    The method reads no field of [this]; it walks the ring of the
    module-level [firstNode].  An absent, [null] or zero [elapsedTime]
    makes it return at once. *)
Definition animate (m : handle) (elapsedTime : option Z) (w : World)
    : Result (list AnimCall) :=
  match elapsedTime with
  | None => Ok []
  | Some t =>
      if Z.eqb t 0 then Ok []
      else animate_loop (walkFuel w) t (firstNode w) (firstNode w) w []
  end.

(** The call [animate] makes on node [k] when the selection is [sel]. *)
Definition frameCall (sel : option addr) (t : Z) (k : addr) : AnimCall :=
  if sameRef (Some k) sel then AnimateSelected k t else AnimateDefault k t.

(** The world [add] hands to [repositionNodes] when the one menu of the
    page already has [n >= 1] items and the new item comes with the
    callback [act]: the straight-line part of [add], branches resolved. *)
Definition linkedWith (act : option nat) (n : nat) (w : World) : World :=
  let w := set_heap (heap w ++ [MenuNode_new act (Z.of_nat n)]) w in
  let w := updNode n (set_prev (Some (n - 1))) w in
  let w := updNode n (set_next (Some 0)) w in
  let w := updNode (n - 1) (set_next (Some n)) w in
  let w := updNode 0 (set_prev (Some n)) w in
  let w := set_latestNode (Some n) w in
  let w := updNode n (set_itemTag (Z.of_nat n)) w in
  let w := set_nextNodeID (Z.of_nat n + 1)%Z w in
  let w := updNode n (set_position vzero) w in
  updMenu 0 (fun mn' =>
    set_itemCount (itemCount mn' + 1)%Z
      (set_itemTray (itemTray mn' ++ [n]) mn')) w.

(** The menu record after one more item, node [n], has been added. *)
Definition grownMenu (n : nat) (mn : Menu) : Menu :=
  mkMenu (itemTray mn ++ [n]) (itemSelected mn) (enabled mn) (opened mn)
    (itemCount mn + 1) (vadd vzero (menuOffsetItems mn)) (gapBetweenItems mn)
    (menuOffsetItems mn) (revolvingMenu mn) (openBehavior mn).

(** The module-level state and logs that [add] leaves alone on a page
    that already has items. *)
Definition addFrame (w : World) :=
  (keyPressed w, clicked w, isMoving w, firstNode w, nodeToSelect w,
   motions w, timers w).

(** A one-menu page with [n >= 1] items, ready for the next [add]. *)
Record Ready (n : nat) (mn : Menu) (w : World) : Prop := {
  rd_ring : RingOK n (heap w);
  rd_first : firstNode w = Some 0;
  rd_latest : latestNode w = Some (n - 1);
  rd_count : nextNodeID w = Z.of_nat n;
  rd_menus : menus w = [mn];
  rd_tray : length (itemTray mn) = n
}.

(** [n] calls of [add] on menu [m], the [k]-th with callback
    [acts !! k]. *)
Fixpoint addAll (acts : list (option nat)) (m : handle) (w : World)
    : Result World :=
  match acts with
  | [] => Ok w
  | act :: acts' => do w <- add m act w; addAll acts' m w
  end.

(** A page session whose items come with callbacks: one menu built with
    [P], an item added for each entry of [acts], then the commands
    [cs]. *)
Definition sessionWith (P : option Properties) (acts : list (option nat))
    (cs : list Cmd) : Result World :=
  do w <- addAll acts 0 (snd (newMenu P initial)); run 0 cs w.

(** The callbacks the engine runs when the requests of a log complete:
    the [onComplete] of the pulse of [selectItem] calls [action] when it
    is a function. *)
Definition actionsRun (ms : list Motion) : list nat :=
  ms ≫= fun mo => match mo with
                  | Pulse _ (Some act) => [act]
                  | _ => []
                  end.

(** A value a page may put in a field of the [parms] object of [moveMenu]
    and [itemTransition]: nothing, [null], a finite number (taken exact),
    or a value that is no number, of which the code looks at the
    truthiness only. *)
Inductive JsValue : Type :=
| JUndefined
| JNull
| JNumber (q : QArith_base.Q)
| JOther (truthy : bool).

(** A number written in the source. *)
Definition lit (z : Z) : QArith_base.Q := QArith_base.inject_Z z.

(** The literal [0.5]. *)
Definition half : QArith_base.Q := QArith_base.Qmake 1 2.

(** [v ? _ : _] *)
Definition truthy (v : JsValue) : bool :=
  match v with
  | JUndefined | JNull => false
  | JNumber q => negb (QArith_base.Qeq_bool q (lit 0))
  | JOther b => b
  end.

(** [v && typeof v === "number"]: the number [v] is, when the test
    passes. *)
Definition numberIn (v : JsValue) : option QArith_base.Q :=
  match v with
  | JNumber q => if truthy v then Some q else None
  | _ => None
  end.

(** The fields [moveMenu] and [itemTransition] read in [parms]. *)
Record Parms : Type := mkParms {
  parms_duration : JsValue;
  parms_x : JsValue;
  parms_y : JsValue;
  parms_z : JsValue;
  parms_rotateX : JsValue;
  parms_rotateY : JsValue;
  parms_rotateZ : JsValue;
  parms_scale : JsValue;
  parms_scaleX : JsValue;
  parms_scaleY : JsValue;
  parms_scaleZ : JsValue
}.

(** The object [{}]. *)
Definition noParms : Parms :=
  mkParms JUndefined JUndefined JUndefined JUndefined JUndefined JUndefined
    JUndefined JUndefined JUndefined JUndefined JUndefined.

Definition set_scaleYZ (vy vz : JsValue) (p : Parms) : Parms :=
  mkParms (parms_duration p) (parms_x p) (parms_y p) (parms_z p)
    (parms_rotateX p) (parms_rotateY p) (parms_rotateZ p) (parms_scale p)
    (parms_scaleX p) vy vz.

(** What a request of [moveMenu] or [itemTransition] animates: a property
    of the group of menu [m], or of the mesh of the item of node [a].  The
    children of the group are the meshes given to [add], one for each
    entry of the tray, the page giving each call a mesh of its own. *)
Inductive TweenTarget : Type :=
| GroupPosition (m : handle)
| GroupRotation (m : handle)
| GroupScale (m : handle)
| ItemRotation (a : addr)
| ItemScale (a : addr).

(** [gsap.to(target, vars)]: the fields of [vars] in the order they are
    written. *)
Record Tween : Type := mkTween {
  tw_target : TweenTarget;
  tw_vars : list (string * JsValue)
}.

(** [moveDur], the same statement in both methods. *)
Definition moveDur (parms : Parms) : JsValue :=
  match numberIn (parms_duration parms) with
  | Some _ => parms_duration parms
  | None => JNumber half
  end.

(** The object [scale] both methods build, from [scaleTo], [scaleToX],
    [scaleToY] and [scaleToZ]. *)
Definition scaleObject (parms : Parms) : list (string * JsValue) :=
  let scaleTo := match numberIn (parms_scale parms) with
                 | Some _ => parms_scale parms
                 | None => JNull
                 end in
  let scaleToX := match numberIn (parms_scaleX parms) with
                  | Some _ => parms_scaleX parms
                  | None => JNumber (lit 1)
                  end in
  let scaleToY := match numberIn (parms_scaleX parms) with
                  | Some _ => parms_scaleY parms
                  | None => JNumber (lit 1)
                  end in
  let scaleToZ := match numberIn (parms_scaleX parms) with
                  | Some _ => parms_scaleZ parms
                  | None => JNumber (lit 1)
                  end in
  [("x", if truthy (parms_scale parms) then scaleTo else scaleToX);
   ("y", if truthy (parms_scale parms) then scaleTo else scaleToY);
   ("z", if truthy (parms_scale parms) then scaleTo else scaleToZ);
   ("duration", moveDur parms)]%string.

(** [rotateX] and the like: the field when it is a non-zero number,
    else [0]. *)
Definition angle (v : JsValue) : JsValue :=
  match numberIn v with
  | Some _ => v
  | None => JNumber (lit 0)
  end.

(** [moveX] and the like: the field, or [0], plus the offset of the
    menu. *)
Definition shifted (v : JsValue) (offset : Z) : JsValue :=
  match numberIn v with
  | Some q => JNumber (QArith_base.Qplus q (lit offset))
  | None => JNumber (QArith_base.Qplus (lit 0) (lit offset))
  end.

(** [Menu.prototype.moveMenu]: the requests it hands to the animation
    engine; [parms] is [None] for a call without argument or with
    [null]. *)
Definition moveMenu (m : handle) (parms : option Parms) (w : World)
    : Result (list Tween) :=
  do mn <- getMenu m w;
  match parms with
  | None => Ok []
  | Some parms =>
      if negb (opened mn) then Ok []
      else
        let moveX := shifted (parms_x parms) (vx (menuOffsetItems mn)) in
        let moveY := shifted (parms_y parms) (vy (menuOffsetItems mn)) in
        let moveZ := shifted (parms_z parms) (vz (menuOffsetItems mn)) in
        let rotateX := angle (parms_rotateX parms) in
        let rotateY := angle (parms_rotateY parms) in
        let rotateZ := angle (parms_rotateZ parms) in
        Ok [mkTween (GroupPosition m)
              [("x", moveX); ("y", moveY); ("z", moveZ);
               ("duration", moveDur parms)]%string;
            mkTween (GroupRotation m)
              [("x", rotateX); ("y", rotateY); ("z", rotateZ);
               ("duration", moveDur parms)]%string;
            mkTween (GroupScale m) (scaleObject parms)]
  end.

(** The body of the [for] of [itemTransition] for one child. *)
Definition itemTweens (parms : Parms) (a : addr) : list Tween :=
  [mkTween (ItemRotation a)
     [("x", angle (parms_rotateX parms)); ("duration", moveDur parms)]%string;
   mkTween (ItemRotation a)
     [("y", angle (parms_rotateY parms)); ("duration", moveDur parms)]%string;
   mkTween (ItemRotation a)
     [("z", angle (parms_rotateZ parms)); ("duration", moveDur parms)]%string;
   mkTween (ItemScale a) (scaleObject parms)].

(** [Menu.prototype.itemTransition]: without [parms] the first statement
    reads a field of [null]. *)
Definition itemTransition (m : handle) (parms : option Parms) (w : World)
    : Result (list Tween) :=
  do mn <- getMenu m w;
  match parms with
  | None => TypeError
  | Some parms => Ok (itemTray mn ≫= itemTweens parms)
  end.

(** [Menu.prototype.resetMenu] *)
Definition resetMenu (m : handle) (w : World) : Result (list Tween) :=
  do group <- moveMenu m (Some noParms) w;
  do items <- itemTransition m (Some noParms) w;
  Ok (group ++ items).

(** The requests that put the group of menu [0] back: at its offset, not
    rotated, at scale one, in half a second. *)
Definition groupReset (offset : Vec3) : list Tween :=
  [mkTween (GroupPosition 0)
     [("x", JNumber (QArith_base.Qplus (lit 0) (lit (vx offset))));
      ("y", JNumber (QArith_base.Qplus (lit 0) (lit (vy offset))));
      ("z", JNumber (QArith_base.Qplus (lit 0) (lit (vz offset))));
      ("duration", JNumber half)]%string;
   mkTween (GroupRotation 0)
     [("x", JNumber (lit 0)); ("y", JNumber (lit 0)); ("z", JNumber (lit 0));
      ("duration", JNumber half)]%string;
   mkTween (GroupScale 0)
     [("x", JNumber (lit 1)); ("y", JNumber (lit 1)); ("z", JNumber (lit 1));
      ("duration", JNumber half)]%string].

(** The requests that put one item back. *)
Definition itemReset (a : addr) : list Tween :=
  [mkTween (ItemRotation a)
     [("x", JNumber (lit 0)); ("duration", JNumber half)]%string;
   mkTween (ItemRotation a)
     [("y", JNumber (lit 0)); ("duration", JNumber half)]%string;
   mkTween (ItemRotation a)
     [("z", JNumber (lit 0)); ("duration", JNumber half)]%string;
   mkTween (ItemScale a)
     [("x", JNumber (lit 1)); ("y", JNumber (lit 1)); ("z", JNumber (lit 1));
      ("duration", JNumber half)]%string].

Definition set_clicked (b : bool) (w : World) : World :=
  mkWorld (heap w) (menus w) (keyPressed w) b (isMoving w) (leftEdge w)
    (rightEdge w) (firstNode w) (latestNode w) (nodeToSelect w)
    (nextNodeID w) (motions w) (timers w).

(** The pointer listener [registerEvents] installs for a menu, seen from
    the page: its variable [clickTimer] and the timeouts it has set, in
    the order of their ids, each holding the event it was set for until
    it fires or is cleared.  An event is represented by what the ray cast
    for it meets when [clickItem] runs.  An id is truthy whatever its
    rank. *)
Record Listener : Type := mkListener {
  clickTimer : option nat;
  timeouts : list (option (option Z))
}.

(** [setTimeout(callback, clickGap)] *)
Definition setTimeout (evt : option Z) (l : Listener) : nat * Listener :=
  (length (timeouts l), mkListener (clickTimer l) (timeouts l ++ [Some evt])).

(** [clearTimeout(id)] *)
Definition clearTimeout (i : nat) (l : Listener) : Listener :=
  mkListener (clickTimer l) (<[i := None]> (timeouts l)).

(** The listener of [pointerup]. *)
Definition pointerup (evt : option Z) (lw : Listener * World)
    : Listener * World :=
  let '(l, w) := lw in
  let '(l, w) := match clickTimer l with
                 | Some i => (clearTimeout i l, set_clicked false w)
                 | None => (l, w)
                 end in
  let '(i, l) := setTimeout evt l in
  (mkListener (Some i) (timeouts l), w).

(** The timeout with id [i] comes due: its callback runs, when it has
    not been cleared and has not run before. *)
Definition timeoutFires (m : handle) (i : nat) (lw : Listener * World)
    : Result (ClickOutcome * (Listener * World)) :=
  let '(l, w) := lw in
  match timeouts l !! i with
  | Some (Some evt) =>
      let l := mkListener (clickTimer l) (<[i := None]> (timeouts l)) in
      do (o, w) <- clickItem m evt w;
      Ok (o, (l, set_clicked true w))
  | _ => Ok (Ignored, lw)
  end.

(** Several [pointerup] events in a row, no timeout coming due in
    between. *)
Definition pointerups (evts : list (option Z)) (lw : Listener * World)
    : Listener * World :=
  foldl (fun lw evt => pointerup evt lw) lw evts.

Fixpoint pendingFrom (i : nat) (ts : list (option (option Z)))
    : list (nat * option Z) :=
  match ts with
  | [] => []
  | Some evt :: ts' => (i, evt) :: pendingFrom (S i) ts'
  | None :: ts' => pendingFrom (S i) ts'
  end.

(** The timeouts still to come due, with their ids. *)
Definition pending (l : Listener) : list (nat * option Z) :=
  pendingFrom 0 (timeouts l).

(** What holds of the listener and the page between two events: no
    timeout is left but the one [clickTimer] names, and [clicked] is
    unset as long as no [pointerup] has been seen. *)
Definition Armed (l : Listener) (w : World) : Prop :=
  match clickTimer l with
  | Some i => forall p, p ∈ pending l -> p.1 = i
  | None => pending l = [] /\ clicked w = false
  end.

(** The listener just after a [pointerup]: one timeout, the latest,
    waits to come due. *)
Definition Waiting (i : nat) (evt : option Z) (l : Listener) : Prop :=
  clickTimer l = Some i /\ pending l = [(i, evt)]
  /\ length (timeouts l) = S i.

(** [k] periods of two intervals set one after the other with the same
    delay: in each period the callback of timer [i] runs, then the
    callback of timer [j]. *)
Fixpoint periods (k : nat) (i j : nat) (w : World) : Result World :=
  match k with
  | O => Ok w
  | S k' => do w <- tick i w; do w <- tick j w; periods k' i j w
  end.

(** ** Basic facts *)

Lemma succ_mod_lt n k : k < n -> succ_mod n k < n.
Proof. unfold succ_mod. destruct (Nat.eqb_spec (S k) n); lia. Qed.

Lemma pred_mod_lt n k : k < n -> pred_mod n k < n.
Proof. unfold pred_mod. destruct (Nat.eqb_spec k 0); lia. Qed.

Lemma pred_succ_mod n k : k < n -> pred_mod n (succ_mod n k) = k.
Proof.
  unfold pred_mod, succ_mod. intros Hk.
  destruct (Nat.eqb_spec (S k) n) as [E|E]; simpl; [lia|].
  replace (k - 0) with k by lia. reflexivity.
Qed.

Lemma ringLinks_length n : length (ringLinks n) = n.
Proof. unfold ringLinks. rewrite length_fmap, length_seq. reflexivity. Qed.

Lemma ringLinks_lookup n k :
  k < n ->
  ringLinks n !! k = Some (Z.of_nat k, Some (succ_mod n k), Some (pred_mod n k)).
Proof.
  intros Hk. unfold ringLinks.
  rewrite list_lookup_fmap, lookup_seq_lt by exact Hk. reflexivity.
Qed.

Lemma RingOK_length n h : RingOK n h -> length h = n.
Proof.
  intros H. rewrite <- (length_fmap linksOf h), H. apply ringLinks_length.
Qed.

Lemma RingOK_lookup n h k :
  RingOK n h -> k < n ->
  exists nd, h !! k = Some nd /\ id nd = Z.of_nat k
             /\ next nd = Some (succ_mod n k) /\ prev nd = Some (pred_mod n k).
Proof.
  intros H Hk.
  assert (Hl : (linksOf <$> h) !! k
               = Some (Z.of_nat k, Some (succ_mod n k), Some (pred_mod n k))).
  { rewrite H. apply ringLinks_lookup, Hk. }
  rewrite list_lookup_fmap in Hl.
  destruct (h !! k) as [nd|]; [|discriminate].
  exists nd. injection Hl as E1 E2 E3. auto.
Qed.

Lemma getNode_ring n w k :
  RingOK n (heap w) -> k < n ->
  exists nd, getNode (Some k) w = Ok nd /\ heap w !! k = Some nd
             /\ id nd = Z.of_nat k
             /\ next nd = Some (succ_mod n k) /\ prev nd = Some (pred_mod n k).
Proof.
  intros H Hk. destruct (RingOK_lookup n _ k H Hk) as (nd & E & ?).
  exists nd. unfold getNode. rewrite E. auto.
Qed.

Lemma keepsLinks_position p : keepsLinks (set_position p).
Proof. intros nd. reflexivity. Qed.
Lemma keepsLinks_selected b : keepsLinks (set_selected b).
Proof. intros nd. reflexivity. Qed.
Lemma fmap_alter_same {B : Type} (f : MenuNode -> B) g a (h : list MenuNode) :
  (forall x, f (g x) = f x) -> f <$> alter g a h = f <$> h.
Proof.
  intros Hf. revert a. induction h as [|x h IH]; intros [|a]; simpl;
    try reflexivity.
  - rewrite Hf. reflexivity.
  - f_equal. apply IH.
Qed.

Lemma fmap_alter_const {B : Type} (f : MenuNode -> B) g b a (h : list MenuNode) :
  (forall x, f (g x) = b) -> f <$> alter g a h = <[a := b]> (f <$> h).
Proof.
  intros Hf. revert a. induction h as [|x h IH]; intros [|a]; simpl;
    try reflexivity.
  - rewrite Hf. reflexivity.
  - f_equal. apply IH.
Qed.

Lemma links_alter f a (h : list MenuNode) :
  keepsLinks f -> linksOf <$> alter f a h = linksOf <$> h.
Proof. intros Hf. apply fmap_alter_same, Hf. Qed.

Lemma flags_alter_position p a (h : list MenuNode) :
  selected <$> alter (set_position p) a h = selected <$> h.
Proof. apply fmap_alter_same. reflexivity. Qed.

Lemma flags_alter_selected b a (h : list MenuNode) :
  selected <$> alter (set_selected b) a h = <[a := b]> (selected <$> h).
Proof. apply fmap_alter_const. reflexivity. Qed.

Lemma positions_alter_position p a (h : list MenuNode) :
  position <$> alter (set_position p) a h = <[a := p]> (position <$> h).
Proof. apply fmap_alter_const. reflexivity. Qed.

Lemma Zeqb_of_nat a b : Z.eqb (Z.of_nat a) (Z.of_nat b) = Nat.eqb a b.
Proof.
  destruct (Z.eqb_spec (Z.of_nat a) (Z.of_nat b)), (Nat.eqb_spec a b);
    try reflexivity; lia.
Qed.

Lemma median_of_nat n : (Z.of_nat n / 2)%Z = Z.of_nat (n / 2).
Proof. rewrite (Nat2Z.inj_div n 2). reflexivity. Qed.

Lemma isEven_of_nat n : Z.eqb (Z.of_nat n mod 2) 0 = Nat.eqb (n mod 2) 0.
Proof.
  replace (Z.of_nat n mod 2)%Z with (Z.of_nat (n mod 2))
    by (rewrite Nat2Z.inj_mod; reflexivity).
  apply (Zeqb_of_nat _ 0).
Qed.

(** ** Layout: the loop of [repositionNodes] on a ring *)

Ltac wsimpl :=
  cbn [heap menus keyPressed clicked isMoving leftEdge rightEdge firstNode
       latestNode nodeToSelect nextNodeID motions timers
       set_heap set_menus set_keyPressed set_isMoving set_leftEdge
       set_rightEdge set_firstNode set_latestNode set_nodeToSelect
       set_nextNodeID set_motions set_timers updNode updMenu logMotion
       fst snd bind] in *.

Lemma repo_iter_heap n gap k pos w :
  heap (snd (repo_iter n gap k pos w))
  = alter (set_position (vadd pos gap)) k (heap w).
Proof.
  unfold repo_iter.
  destruct (Nat.eqb n 2 && Nat.eqb k 1 || Nat.eqb k (n / 2 + 1)),
    (Nat.eqb k (n / 2)); reflexivity.
Qed.

Lemma repo_iter_frame n gap k pos w :
  layoutFrame (snd (repo_iter n gap k pos w)) = layoutFrame w.
Proof.
  unfold repo_iter.
  destruct (Nat.eqb n 2 && Nat.eqb k 1 || Nat.eqb k (n / 2 + 1)),
    (Nat.eqb k (n / 2)); reflexivity.
Qed.

Lemma Zeqb_of_nat_succ a b :
  Z.eqb (Z.of_nat a) (Z.of_nat b + 1) = Nat.eqb a (b + 1).
Proof.
  destruct (Z.eqb_spec (Z.of_nat a) (Z.of_nat b + 1)), (Nat.eqb_spec a (b + 1));
    try reflexivity; lia.
Qed.

Lemma Zeqb_of_nat_1 a : Z.eqb (Z.of_nat a) 1 = Nat.eqb a 1.
Proof. apply (Zeqb_of_nat a 1). Qed.

Lemma Zeqb_of_nat_2 a : Z.eqb (Z.of_nat a) 2 = Nat.eqb a 2.
Proof. apply (Zeqb_of_nat a 2). Qed.

Lemma repositionNodes_loop_step n gap f k pos w :
  RingOK n (heap w) -> firstNode w = Some 0 -> nextNodeID w = Z.of_nat n ->
  k < n ->
  repositionNodes_loop (S f) gap (Z.of_nat n / 2) (Z.eqb (Z.of_nat n mod 2) 0)
    (Some k) pos w
  = if Nat.eqb (S k) n then Ok (repo_iter n gap k pos w)
    else repositionNodes_loop f gap (Z.of_nat n / 2)
           (Z.eqb (Z.of_nat n mod 2) 0) (Some (S k))
           (fst (repo_iter n gap k pos w)) (snd (repo_iter n gap k pos w)).
Proof.
  intros Hring Hfirst Hcount Hk.
  destruct (getNode_ring n w k Hring Hk) as (nd & Hget & Hlk & Hid & Hnx & Hpv).
  assert (Hring' : RingOK n (heap (snd (repo_iter n gap k pos w)))).
  { rewrite repo_iter_heap. unfold RingOK.
    rewrite links_alter by apply keepsLinks_position. exact Hring. }
  assert (Hfirst' : firstNode (snd (repo_iter n gap k pos w)) = Some 0).
  { pose proof (repo_iter_frame n gap k pos w) as E. unfold layoutFrame in E.
    injection E as _ _ _ _ E _ _ _ _ _. congruence. }
  destruct (getNode_ring n _ (succ_mod n k) Hring' (succ_mod_lt n k Hk))
    as (nx & Hgx & _ & Hidx & _).
  destruct (getNode_ring n _ 0 Hring' ltac:(lia)) as (n0 & Hg0 & _ & Hid0 & _).
  assert (Eexit : negb (Z.eqb (id nx) (id n0)) = negb (Nat.eqb (S k) n)).
  { rewrite Hidx, Hid0, Zeqb_of_nat. unfold succ_mod.
    destruct (Nat.eqb_spec (S k) n); reflexivity. }
  cbn [repositionNodes_loop]. rewrite Hget. cbn [bind].
  unfold repo_iter in *. wsimpl.
  rewrite Hcount, Hid, median_of_nat, isEven_of_nat.
  rewrite Zeqb_of_nat_2, Zeqb_of_nat_1, Zeqb_of_nat_succ, Zeqb_of_nat.
  destruct (Nat.eqb n 2 && Nat.eqb k 1 || Nat.eqb k (n / 2 + 1)),
    (Nat.eqb k (n / 2)); wsimpl;
    rewrite Hnx, Hgx; cbn [bind]; rewrite Hfirst, Hg0; cbn [bind]; rewrite Eexit;
    unfold succ_mod; destruct (Nat.eqb (S k) n); reflexivity.
Qed.

Lemma half_parity n :
  Z.of_nat n = (2 * Z.of_nat (n / 2)
                + (if Nat.eqb (n mod 2) 0 then 0 else 1))%Z.
Proof.
  pose proof (Nat.div_mod_eq n 2) as E.
  pose proof (Nat.mod_upper_bound n 2 ltac:(lia)) as B.
  destruct (Nat.eqb_spec (n mod 2) 0); lia.
Qed.

Lemma vadd_vsub p g : vadd (vsub p g) g = p.
Proof. destruct p, g. unfold vadd, vsub. simpl. f_equal; lia. Qed.

(** The running position handed from one pass to the next. *)
Lemma repo_iter_pos n gap k w :
  k < n ->
  fst (repo_iter n gap k (vsub (slot n gap k) gap) w)
  = vsub (slot n gap (S k)) gap.
Proof.
  intros Hk. unfold repo_iter. rewrite vadd_vsub.
  pose proof (half_parity n) as Hn.
  destruct (Nat.eqb_spec k (n / 2)) as [E|E]; cbn [fst].
  - unfold slot. destruct (Nat.leb_spec k (n / 2)); [|lia].
    destruct (Nat.leb_spec (S k) (n / 2)); [lia|].
    destruct gap as [gx gy gz]. unfold vneg, vadd, vsub, vscale. cbn [vx vy vz].
    subst k. destruct (Nat.eqb (n mod 2) 0); f_equal; lia.
  - unfold slot.
    destruct (Nat.leb_spec k (n / 2)), (Nat.leb_spec (S k) (n / 2)); try lia;
      destruct gap as [gx gy gz]; unfold vsub, vscale; cbn [vx vy vz];
      f_equal; lia.
Qed.

Lemma repo_iter_left n gap k pos w :
  k < n ->
  leftEdge (snd (repo_iter n gap k pos w))
  = if Nat.eqb k (leftIndex n) then Some k else leftEdge w.
Proof.
  intros Hk. unfold repo_iter, leftIndex.
  destruct (Nat.eqb_spec n 2), (Nat.eqb_spec k 1), (Nat.eqb_spec k (n / 2 + 1)),
    (Nat.eqb_spec k (n / 2)); cbn [orb andb snd]; wsimpl;
    try reflexivity; subst; cbn in *; try lia;
    try (destruct (Nat.eqb_spec k 1); try reflexivity; lia).
Qed.

Lemma repo_iter_right n gap k pos w :
  rightEdge (snd (repo_iter n gap k pos w))
  = if Nat.eqb k (n / 2) then Some k else rightEdge w.
Proof.
  unfold repo_iter.
  destruct (Nat.eqb n 2 && Nat.eqb k 1 || Nat.eqb k (n / 2 + 1)),
    (Nat.eqb k (n / 2)); reflexivity.
Qed.

Lemma repo_iter_post n gap k w :
  RingOK n (heap w) -> S k = n ->
  RepoPost n gap k w (snd (repo_iter n gap k (vsub (slot n gap k) gap) w)).
Proof.
  intros Hring Hk.
  pose proof (RingOK_length _ _ Hring) as Hlen.
  split.
  - rewrite repo_iter_heap. unfold RingOK.
    rewrite links_alter by apply keepsLinks_position. exact Hring.
  - rewrite repo_iter_heap. apply flags_alter_position.
  - intros j Hj. assert (j = k) by lia. subst j.
    rewrite repo_iter_heap, positions_alter_position, vadd_vsub.
    apply list_lookup_insert_eq. rewrite length_fmap. lia.
  - intros j Hj.
    rewrite repo_iter_heap, positions_alter_position.
    apply list_lookup_insert_ne. lia.
  - rewrite repo_iter_left by lia.
    destruct (Nat.eqb_spec k (leftIndex n)), (Nat.leb_spec k (leftIndex n)),
      (Nat.ltb_spec (leftIndex n) n); cbn [andb]; try reflexivity;
      try lia; congruence.
  - rewrite repo_iter_right.
    assert (n / 2 <= k).
    { pose proof (Nat.div_mod_eq n 2). lia. }
    destruct (Nat.eqb_spec k (n / 2)), (Nat.leb_spec k (n / 2));
      try reflexivity; try lia; congruence.
  - apply repo_iter_frame.
Qed.

Lemma repositionNodes_loop_ring n gap :
  forall fuel k w,
    k < n -> n - k <= fuel ->
    RingOK n (heap w) -> firstNode w = Some 0 -> nextNodeID w = Z.of_nat n ->
    exists pos' w',
      repositionNodes_loop fuel gap (Z.of_nat n / 2)
        (Z.eqb (Z.of_nat n mod 2) 0) (Some k) (vsub (slot n gap k) gap) w
      = Ok (pos', w')
      /\ RepoPost n gap k w w'.
Proof.
  induction fuel as [|f IH]; intros k w Hk Hfuel Hring Hfirst Hcount; [lia|].
  rewrite (repositionNodes_loop_step n gap f k _ w Hring Hfirst Hcount Hk).
  destruct (Nat.eqb_spec (S k) n) as [E|E].
  - exists (fst (repo_iter n gap k (vsub (slot n gap k) gap) w)),
      (snd (repo_iter n gap k (vsub (slot n gap k) gap) w)).
    split; [|apply repo_iter_post; assumption].
    destruct (repo_iter n gap k (vsub (slot n gap k) gap) w); reflexivity.
  - rewrite repo_iter_pos by exact Hk.
    set (w1 := snd (repo_iter n gap k (vsub (slot n gap k) gap) w)).
    pose proof (RingOK_length _ _ Hring) as Hlen.
    assert (Hring1 : RingOK n (heap w1)).
    { unfold w1. rewrite repo_iter_heap. unfold RingOK.
      rewrite links_alter by apply keepsLinks_position. exact Hring. }
    assert (Hfr1 : layoutFrame w1 = layoutFrame w) by apply repo_iter_frame.
    assert (Hfirst1 : firstNode w1 = Some 0).
    { unfold layoutFrame in Hfr1. injection Hfr1 as _ _ _ _ E1 _ _ _ _ _.
      congruence. }
    assert (Hcount1 : nextNodeID w1 = Z.of_nat n).
    { unfold layoutFrame in Hfr1. injection Hfr1 as _ _ _ _ _ _ _ E1 _ _.
      congruence. }
    destruct (IH (S k) w1 ltac:(lia) ltac:(lia) Hring1 Hfirst1 Hcount1)
      as (pos' & w' & Hrun & Hpost).
    exists pos', w'. split; [exact Hrun|].
    destruct Hpost as [P1 P2 P3 P4 P5 P6 P7].
    split.
    + exact P1.
    + rewrite P2. unfold w1. rewrite repo_iter_heap.
      apply flags_alter_position.
    + intros j Hj. destruct (Nat.eq_dec j k) as [->|Hne].
      * rewrite P4 by lia. unfold w1.
        rewrite repo_iter_heap, positions_alter_position, vadd_vsub.
        apply list_lookup_insert_eq. rewrite length_fmap. lia.
      * apply P3. lia.
    + intros j Hj. rewrite P4 by lia. unfold w1.
      rewrite repo_iter_heap, positions_alter_position.
      apply list_lookup_insert_ne. lia.
    + rewrite P5. unfold w1. rewrite repo_iter_left by exact Hk.
      destruct (Nat.eqb_spec k (leftIndex n)), (Nat.leb_spec k (leftIndex n)),
        (Nat.leb_spec (S k) (leftIndex n)), (Nat.ltb_spec (leftIndex n) n);
        cbn [andb]; try reflexivity; try lia; congruence.
    + rewrite P6. unfold w1. rewrite repo_iter_right.
      destruct (Nat.eqb_spec k (n / 2)), (Nat.leb_spec k (n / 2)),
        (Nat.leb_spec (S k) (n / 2)); try reflexivity; try lia; congruence.
    + rewrite P7. exact Hfr1.
Qed.

Lemma slot_zero n gap : vsub vzero gap = vsub (slot n gap 0) gap.
Proof. unfold slot. destruct gap. reflexivity. Qed.

Lemma repositionNodes_ring n w mn :
  1 <= n -> RingOK n (heap w) -> firstNode w = Some 0 ->
  nextNodeID w = Z.of_nat n -> menus w = [mn] ->
  exists pos' w',
    repositionNodes 0 w = Ok (pos', w')
    /\ RingOK n (heap w')
    /\ selected <$> heap w' = selected <$> heap w
    /\ (forall j, j < n ->
          (position <$> heap w') !! j = Some (slot n (gapBetweenItems mn) j))
    /\ leftEdge w' = (if Nat.ltb (leftIndex n) n then Some (leftIndex n)
                      else leftEdge w)
    /\ rightEdge w' = Some (n / 2)
    /\ menus w' = [set_groupPosition (vadd vzero (menuOffsetItems mn)) mn]
    /\ restOf w' = restOf w.
Proof.
  intros Hn Hring Hfirst Hcount Hmenus.
  unfold repositionNodes, getMenu. rewrite Hmenus. cbn [lookup list_lookup bind].
  set (w1 := updMenu 0 (set_groupPosition vzero) w).
  assert (Hlen : length (heap w) = n) by (apply RingOK_length, Hring).
  destruct (repositionNodes_loop_ring n (gapBetweenItems mn) (walkFuel w1) 0 w1)
    as (pos' & w' & Hrun & Hpost); try assumption; try lia.
  { unfold walkFuel, w1. wsimpl. lia. }
  change (nextNodeID w1) with (nextNodeID w). change (firstNode w1) with (firstNode w).
  rewrite Hcount, Hfirst, slot_zero with (n := n), Hrun. cbn [bind].
  destruct Hpost as [P1 P2 P3 P4 P5 P6 P7].
  unfold layoutFrame in P7. injection P7 as F1 F2 F3 F4 F5 F6 F7 F8 F9 F10.
  eexists _, _. split; [reflexivity|]. wsimpl.
  repeat split.
  - exact P1.
  - exact P2.
  - intros j Hj. apply P3. lia.
  - rewrite P5. cbn [Nat.leb andb]. reflexivity.
  - rewrite P6. reflexivity.
  - rewrite F1. unfold w1. wsimpl. rewrite Hmenus. reflexivity.
  - unfold restOf. wsimpl. congruence.
Qed.

Lemma lookup_snoc {A : Type} (l : list A) (x : A) n :
  length l = n -> (l ++ [x]) !! n = Some x.
Proof. intros <-. apply list_lookup_middle. reflexivity. Qed.

Lemma alter_snoc {A : Type} (f : A -> A) (l : list A) (x : A) n :
  length l = n -> alter f n (l ++ [x]) = l ++ [f x].
Proof.
  intros <-. replace (length l) with (length l + 0) by lia.
  rewrite alter_app_r. reflexivity.
Qed.

Lemma getNode_lt k w :
  k < length (heap w) -> exists nd, getNode (Some k) w = Ok nd.
Proof.
  intros Hk. unfold getNode.
  destruct (lookup_lt_is_Some_2 (heap w) k Hk) as [nd ->]. eauto.
Qed.

Lemma add_linked P n w :
  1 <= n -> Built P n w ->
  add 0 None w = do (_, w0) <- repositionNodes 0 (linked n w); Ok w0.
Proof.
  intros Hn [Hring Hsel Hpos Hleft Hright Hmenus Hrest].
  unfold restOf in Hrest. injection Hrest as R1 R2 R3 R4 R5 R6 R7 R8 R9.
  pose proof (RingOK_length _ _ Hring) as Hlen.
  unfold add, getMenu, linked. rewrite Hmenus. cbn [lookup list_lookup bind].
  cbn [builtMenu itemTray]. rewrite length_seq, Hlen.
  wsimpl. rewrite R7.
  replace (Z.of_nat n =? 0)%Z with false by (symmetry; apply Z.eqb_neq; lia).
  wsimpl. rewrite R4, R5.
  unfold getNode at 1. wsimpl.
  rewrite !list_lookup_alter_eq, (lookup_snoc _ _ n Hlen).
  cbn [fmap option_fmap option_map bind set_next set_prev MenuNode_new prev next].
  match goal with |- context [getNode (Some (n - 1)) ?w1] =>
    destruct (getNode_lt (n - 1) w1) as [x1 ->] end.
  { wsimpl. rewrite !length_alter, length_app, Hlen. simpl. lia. }
  cbn [bind].
  unfold getNode at 1. wsimpl.
  rewrite list_lookup_alter_ne by lia.
  rewrite !list_lookup_alter_eq, (lookup_snoc _ _ n Hlen).
  cbn [fmap option_fmap option_map bind set_next set_prev MenuNode_new prev next].
  match goal with |- context [getNode (Some 0) ?w1] =>
    destruct (getNode_lt 0 w1) as [x2 ->] end.
  { wsimpl. rewrite !length_alter, length_app, Hlen. simpl. lia. }
  cbn [bind]. wsimpl. rewrite ?R7. reflexivity.
Qed.

Lemma linked_heap n w :
  1 <= n -> length (heap w) = n ->
  heap (linked n w)
  = alter (set_prev (Some n)) 0 (alter (set_next (Some n)) (n - 1) (heap w))
    ++ [mkNode (Z.of_nat n) false None (Some 0) (Some (n - 1)) vzero (Z.of_nat n)].
Proof.
  intros Hn Hlen. unfold linked. wsimpl.
  rewrite !(alter_snoc _ _ _ n Hlen).
  rewrite alter_app_l by lia.
  rewrite alter_app_l by (rewrite length_alter; lia).
  rewrite !(alter_snoc _ _ _ n) by (rewrite !length_alter; exact Hlen).
  reflexivity.
Qed.

Lemma ringLinks_S n :
  1 <= n ->
  ringLinks (S n)
  = alter (fun l => (l.1.1, l.1.2, Some n)) 0
      (alter (fun l => (l.1.1, Some n, l.2)) (n - 1) (ringLinks n))
    ++ [(Z.of_nat n, Some 0, Some (n - 1))].
Proof.
  intros Hn. apply list_eq. intros i.
  destruct (Nat.lt_total i n) as [Hi|[->|Hi]].
  - rewrite lookup_app_l by (rewrite !length_alter, ringLinks_length; lia).
    rewrite !list_lookup_alter.
    rewrite !ringLinks_lookup by lia.
    unfold succ_mod, pred_mod.
    repeat case_decide; subst; cbn [fmap option_fmap option_map fst snd];
      repeat match goal with
             | |- context [Nat.eqb ?a ?b] => destruct (Nat.eqb_spec a b)
             end; try lia; try reflexivity;
      repeat f_equal; try lia.
  - rewrite lookup_snoc by (rewrite !length_alter; apply ringLinks_length).
    rewrite ringLinks_lookup by lia. unfold succ_mod, pred_mod.
    rewrite Nat.eqb_refl.
    destruct (Nat.eqb_spec n 0); [lia|].
    repeat f_equal; lia.
  - rewrite (lookup_ge_None_2 (ringLinks (S n)))
      by (rewrite ringLinks_length; lia).
    symmetry. apply lookup_ge_None_2.
    rewrite length_app, !length_alter, ringLinks_length. simpl. lia.
Qed.

Lemma fmap_alter_commute {A B : Type} (f : A -> B) (g : A -> A) (g' : B -> B)
    a (h : list A) :
  (forall x, f (g x) = g' (f x)) -> f <$> alter g a h = alter g' a (f <$> h).
Proof.
  intros Hf. revert a. induction h as [|x h IH]; intros [|a]; simpl;
    try reflexivity.
  - rewrite Hf. reflexivity.
  - f_equal. apply IH.
Qed.

Lemma linked_ring n w :
  1 <= n -> RingOK n (heap w) -> RingOK (S n) (heap (linked n w)).
Proof.
  intros Hn Hring. pose proof (RingOK_length _ _ Hring) as Hlen.
  unfold RingOK in *. rewrite linked_heap by assumption.
  rewrite fmap_app, ringLinks_S by exact Hn.
  rewrite (fmap_alter_commute linksOf _ (fun l => (l.1.1, l.1.2, Some n)))
    by reflexivity.
  rewrite (fmap_alter_commute linksOf _ (fun l => (l.1.1, Some n, l.2)))
    by reflexivity.
  rewrite Hring. reflexivity.
Qed.

Lemma linked_flags n w :
  1 <= n -> length (heap w) = n -> SelIs n 0 (heap w) ->
  SelIs (S n) 0 (heap (linked n w)).
Proof.
  intros Hn Hlen Hsel. unfold SelIs in *.
  rewrite linked_heap by assumption.
  rewrite fmap_app, !fmap_alter_same by reflexivity.
  rewrite Hsel, seq_S, fmap_app. cbn [fmap list_fmap selected].
  destruct (Nat.eqb_spec (0 + n) 0); [lia|]. reflexivity.
Qed.

Lemma leftIndex_lt n : 2 <= n -> leftIndex n < n.
Proof.
  intros Hn. unfold leftIndex. destruct (Nat.eqb_spec n 2); [lia|].
  pose proof (Nat.div_mod_eq n 2).
  pose proof (Nat.mod_upper_bound n 2 ltac:(lia)). lia.
Qed.

Lemma add_step P n w :
  1 <= n -> Built P n w ->
  exists w', add 0 None w = Ok w' /\ Built P (S n) w'.
Proof.
  intros Hn HB. rewrite (add_linked P n w Hn HB).
  destruct HB as [Hring Hsel Hpos Hleft Hright Hmenus Hrest].
  unfold restOf in Hrest. injection Hrest as R1 R2 R3 R4 R5 R6 R7 R8 R9.
  pose proof (RingOK_length _ _ Hring) as Hlen.
  destruct (repositionNodes_ring (S n) (linked n w)
              (mkMenu (seq 0 (S n)) 0 true false (Z.of_nat n + 1)
                 (vadd vzero (offsetOf P)) (gapOf P) (offsetOf P)
                 (init_revolvingMenu P) (init_openBehavior P)))
    as (pos' & w' & Hrun & Q1 & Q2 & Q3 & Q4 & Q5 & Q6 & Q7).
  - lia.
  - apply linked_ring; assumption.
  - unfold linked. wsimpl. exact R4.
  - unfold linked. wsimpl. lia.
  - unfold linked. wsimpl. rewrite Hmenus. unfold builtMenu.
    cbn [alter list_alter set_itemCount set_itemTray itemTray itemSelected
         enabled opened itemCount groupPosition gapBetweenItems
         menuOffsetItems revolvingMenu openBehavior].
    rewrite seq_S. reflexivity.
  - rewrite Hrun. cbn [bind]. exists w'. split; [reflexivity|].
    split.
    + exact Q1.
    + unfold SelIs. rewrite Q2. apply linked_flags; assumption.
    + exact Q3.
    + rewrite Q4.
      destruct (Nat.ltb_spec (leftIndex (S n)) (S n)) as [|Hge]; [reflexivity|].
      pose proof (leftIndex_lt (S n)). lia.
    + exact Q5.
    + rewrite Q6. unfold builtMenu, set_groupPosition. cbn.
      repeat f_equal. lia.
    + rewrite Q7. unfold restOf, linked. wsimpl.
      rewrite R1, R2, R3, R4, R6, R8, R9.
      repeat f_equal; lia.
Qed.

Lemma add_first P :
  add 0 None (snd (newMenu P initial)) = Ok (firstAdded P).
Proof. vm_compute. reflexivity. Qed.

Lemma firstAdded_built P : Built P 1 (firstAdded P).
Proof.
  split; try reflexivity.
  intros j Hj. assert (j = 0) by lia. subst j.
  cbn. rewrite vadd_vsub. unfold slot.
  destruct (gapOf P). reflexivity.
Qed.

Lemma freshMenu_built P n :
  1 <= n -> exists w, freshMenu P n = Ok w /\ Built P n w.
Proof.
  induction 1 as [|n Hn IH].
  - exists (firstAdded P). split; [apply add_first|apply firstAdded_built].
  - destruct IH as (w & Hw & HB).
    destruct (add_step P n w Hn HB) as (w' & Hadd & HB').
    exists w'. split; [|exact HB'].
    unfold freshMenu in *. cbn [addItems]. rewrite Hw. exact Hadd.
Qed.

Lemma getNode_the n w k :
  RingOK n (heap w) -> k < n ->
  getNode (Some k) w = Ok (the k w)
  /\ id (the k w) = Z.of_nat k
  /\ next (the k w) = Some (succ_mod n k)
  /\ prev (the k w) = Some (pred_mod n k).
Proof.
  intros H Hk. destruct (getNode_ring n w k H Hk) as (nd & E1 & E2 & E3).
  unfold the. rewrite E2. cbn [default]. auto.
Qed.

Lemma the_selected k w b :
  (selected <$> heap w) !! k = Some b -> selected (the k w) = b.
Proof.
  rewrite list_lookup_fmap. unfold the.
  destruct (heap w !! k); cbn; congruence.
Qed.

(** *** The loops of [open] and [close] *)

Lemma forEachNode_loop_ring n req :
  forall fuel k w,
    k < n -> n - k <= fuel -> RingOK n (heap w) -> firstNode w = Some 0 ->
    forEachNode_loop fuel req (Some k) w
    = Ok (set_motions (motions w ++ (req <$> seq k (n - k))) w).
Proof.
  induction fuel as [|f IH]; intros k w Hk Hfuel Hring Hfirst; [lia|].
  destruct (getNode_the n w k Hring Hk) as (G & I & X & V).
  cbn [forEachNode_loop]. rewrite G. cbn [bind]. rewrite X.
  destruct (getNode_the n (logMotion (req k) w) (succ_mod n k) Hring
              (succ_mod_lt n k Hk)) as (G1 & I1 & _).
  destruct (getNode_the n (logMotion (req k) w) 0 Hring ltac:(lia))
    as (G0 & I0 & _).
  rewrite G1. cbn [bind]. wsimpl. rewrite Hfirst, G0. cbn [bind].
  rewrite I1, I0, Zeqb_of_nat. unfold succ_mod.
  destruct (Nat.eqb_spec (S k) n) as [E|E]; cbn [Nat.eqb negb].
  - replace (n - k) with 1 by lia. reflexivity.
  - destruct (Nat.eqb_spec (S k) 0); [lia|]. cbn [negb].
    rewrite IH by (try assumption; lia). wsimpl.
    replace (n - k) with (S (n - S k)) by lia. cbn [seq fmap list_fmap].
    unfold set_motions. wsimpl. rewrite <- app_assoc. reflexivity.
Qed.

(** *** The loop of [moveToNext] *)

Lemma next_iter_links n gap l k w :
  linksOf <$> heap (next_iter n gap l k w) = linksOf <$> heap w.
Proof.
  unfold next_iter.
  destruct (Nat.eqb k l); wsimpl;
    match goal with |- context [if ?b then _ else _] => destruct b end;
    wsimpl; rewrite ?links_alter; try reflexivity;
    auto using keepsLinks_position, keepsLinks_selected.
Qed.

Lemma next_iter_ctl n gap l k w : ctl (next_iter n gap l k w) = ctl w.
Proof.
  unfold next_iter.
  destruct (Nat.eqb k l); wsimpl;
    match goal with |- context [if ?b then _ else _] => destruct b end;
    reflexivity.
Qed.

Lemma next_iter_left n gap l k w :
  leftEdge (next_iter n gap l k w) = leftEdge w.
Proof.
  unfold next_iter.
  destruct (Nat.eqb k l); wsimpl;
    match goal with |- context [if ?b then _ else _] => destruct b end;
    reflexivity.
Qed.

Lemma next_iter_right n gap l k w :
  rightEdge (next_iter n gap l k w)
  = if Nat.eqb k l then Some l else rightEdge w.
Proof.
  unfold next_iter.
  destruct (Nat.eqb k l); wsimpl;
    match goal with |- context [if ?b then _ else _] => destruct b end;
    reflexivity.
Qed.

Lemma the_selected_position p a k w :
  selected (the k (updNode a (set_position p) w)) = selected (the k w).
Proof.
  unfold the. wsimpl. rewrite list_lookup_alter.
  case_decide; [subst|reflexivity].
  destruct (heap w !! k); reflexivity.
Qed.

(** The flag the pass reads at node [k] is the one [w] holds there. *)
Lemma next_iter_flags n gap l k w :
  selected <$> heap (next_iter n gap l k w)
  = if selected (the k w) then <[k := false]> (selected <$> heap w)
    else selected <$> heap w.
Proof.
  unfold next_iter. cbv zeta.
  destruct (Nat.eqb k l);
    try change (the k (set_rightEdge ?a ?w0)) with (the k w0);
    rewrite ?the_selected_position;
    destruct (selected (the k w)); wsimpl;
    rewrite ?flags_alter_selected, ?flags_alter_position; reflexivity.
Qed.

Lemma next_iter_select n gap l k w :
  nodeToSelect (next_iter n gap l k w)
  = if selected (the k w) then Some (succ_mod n k) else nodeToSelect w.
Proof.
  unfold next_iter. cbv zeta.
  destruct (Nat.eqb k l);
    try change (the k (set_rightEdge ?a ?w0)) with (the k w0);
    rewrite ?the_selected_position;
    destruct (selected (the k w)); reflexivity.
Qed.

Ltac ring_node n k :=
  match goal with
  | |- context [getNode (Some k) ?w'] =>
      let G := fresh "G" in
      let I := fresh "I" in
      let X := fresh "X" in
      let V := fresh "V" in
      destruct (getNode_the n w' k) as (G & I & X & V);
      [ unfold RingOK; wsimpl; rewrite ?links_alter;
        auto using keepsLinks_position, keepsLinks_selected
      | auto using succ_mod_lt, pred_mod_lt with lia
      | rewrite G; cbn [bind] ]
  end.

Lemma moveToNext_loop_step n gap l f k w :
  RingOK n (heap w) -> firstNode w = Some 0 -> leftEdge w = Some l ->
  l < n -> k < n ->
  moveToNext_loop (S f) gap (Some k) w
  = if Nat.eqb (S k) n then Ok (next_iter n gap l k w)
    else moveToNext_loop f gap (Some (S k)) (next_iter n gap l k w).
Proof.
  intros Hring Hfirst Hleft Hl Hk.
  cbn [moveToNext_loop]. ring_node n k. rewrite Hleft. cbn [sameRef].
  unfold next_iter. cbv zeta.
  destruct (Nat.eqb_spec k l) as [E|E].
  - subst k. ring_node n l. rewrite V0. ring_node n (pred_mod n l).
    wsimpl. rewrite Hleft.
    ring_node n l. rewrite X2.
    destruct (selected (the l _)).
    + ring_node n (succ_mod n l). wsimpl. rewrite Hfirst. ring_node n 0.
      rewrite I3, I4, Zeqb_of_nat. unfold succ_mod.
      destruct (Nat.eqb_spec (S l) n); [reflexivity|].
      destruct (Nat.eqb_spec (S l) 0); [lia|]. reflexivity.
    + ring_node n (succ_mod n l). wsimpl. rewrite Hfirst. ring_node n 0.
      rewrite I3, I4, Zeqb_of_nat. unfold succ_mod.
      destruct (Nat.eqb_spec (S l) n); [reflexivity|].
      destruct (Nat.eqb_spec (S l) 0); [lia|]. reflexivity.
  - cbn [bind]. rewrite G. cbn [bind]. rewrite X.
    destruct (selected (the k w)).
    + ring_node n (succ_mod n k). wsimpl. rewrite Hfirst. ring_node n 0.
      rewrite I0, I1, Zeqb_of_nat. unfold succ_mod.
      destruct (Nat.eqb_spec (S k) n); [reflexivity|].
      destruct (Nat.eqb_spec (S k) 0); [lia|]. reflexivity.
    + ring_node n (succ_mod n k). wsimpl. rewrite Hfirst. ring_node n 0.
      rewrite I0, I1, Zeqb_of_nat. unfold succ_mod.
      destruct (Nat.eqb_spec (S k) n); [reflexivity|].
      destruct (Nat.eqb_spec (S k) 0); [lia|]. reflexivity.
Qed.

Lemma SelIs_lookup n s h k :
  SelIs n s h -> k < n -> (selected <$> h) !! k = Some (Nat.eqb k s).
Proof.
  intros H Hk. rewrite H, list_lookup_fmap, lookup_seq_lt by exact Hk.
  reflexivity.
Qed.

Lemma NoSel_lookup n h k :
  NoSel n h -> k < n -> (selected <$> h) !! k = Some false.
Proof.
  intros H Hk. rewrite H, list_lookup_fmap, lookup_seq_lt by exact Hk.
  reflexivity.
Qed.

Lemma flags_clear n s :
  <[s := false]> ((fun k => Nat.eqb k s) <$> seq 0 n)
  = (fun _ => false) <$> seq 0 n.
Proof.
  apply list_eq. intros i.
  destruct (Nat.lt_ge_cases i n) as [Hi|Hi].
  - rewrite list_lookup_insert, !list_lookup_fmap, lookup_seq_lt by exact Hi.
    rewrite length_fmap, length_seq. cbn [fmap option_fmap option_map].
    case_decide as Hd.
    + reflexivity.
    + destruct (Nat.eqb_spec (0 + i) s); [|reflexivity].
      exfalso. apply Hd. split; lia.
  - rewrite !lookup_ge_None_2; try reflexivity;
      rewrite ?length_insert, length_fmap, length_seq; exact Hi.
Qed.

Lemma flags_set n t :
  <[t := true]> ((fun _ => false) <$> seq 0 n)
  = (fun k => Nat.eqb k t) <$> seq 0 n.
Proof.
  apply list_eq. intros i.
  destruct (Nat.lt_ge_cases i n) as [Hi|Hi].
  - rewrite list_lookup_insert, !list_lookup_fmap, lookup_seq_lt by exact Hi.
    rewrite length_fmap, length_seq. cbn [fmap option_fmap option_map].
    case_decide as Hd.
    + destruct Hd as [-> _]. rewrite Nat.eqb_refl. reflexivity.
    + destruct (Nat.eqb_spec (0 + i) t); [|reflexivity].
      exfalso. apply Hd. split; lia.
  - rewrite !lookup_ge_None_2; try reflexivity;
      rewrite ?length_insert, length_fmap, length_seq; exact Hi.
Qed.

Lemma next_iter_phase n gap s l k w :
  k < n ->
  Phase n s (succ_mod n s) (k <= s) w ->
  Phase n s (succ_mod n s) (S k <= s) (next_iter n gap l k w).
Proof.
  intros Hk [[Hks Hsel]|[Hno Hnts]].
  - pose proof (the_selected k w _ (SelIs_lookup n s _ k Hsel Hk)) as Hf.
    destruct (Nat.eqb_spec k s) as [->|Hne].
    + right. split.
      * unfold NoSel. rewrite next_iter_flags, Hf, Hsel. apply flags_clear.
      * rewrite next_iter_select, Hf. reflexivity.
    + left. split; [lia|].
      unfold SelIs. rewrite next_iter_flags, Hf. exact Hsel.
  - pose proof (the_selected k w _ (NoSel_lookup n _ k Hno Hk)) as Hf.
    right. split.
    + unfold NoSel. rewrite next_iter_flags, Hf. exact Hno.
    + rewrite next_iter_select, Hf. exact Hnts.
Qed.

Lemma moveToNext_loop_ring n gap s l :
  s < n -> l < n ->
  forall fuel k w,
    k < n -> n - k <= fuel ->
    RingOK n (heap w) -> firstNode w = Some 0 -> leftEdge w = Some l ->
    Phase n s (succ_mod n s) (k <= s) w ->
    exists w',
      moveToNext_loop fuel gap (Some k) w = Ok w'
      /\ RingOK n (heap w') /\ NoSel n (heap w')
      /\ nodeToSelect w' = Some (succ_mod n s)
      /\ leftEdge w' = Some l
      /\ rightEdge w' = (if Nat.leb k l then Some l else rightEdge w)
      /\ ctl w' = ctl w.
Proof.
  intros Hs Hl.
  induction fuel as [|f IH]; intros k w Hk Hfuel Hring Hfirst Hleft Hph; [lia|].
  rewrite (moveToNext_loop_step n gap l f k w Hring Hfirst Hleft Hl Hk).
  set (w1 := next_iter n gap l k w).
  assert (Hring1 : RingOK n (heap w1)).
  { unfold RingOK, w1. rewrite next_iter_links. exact Hring. }
  assert (Hctl1 : ctl w1 = ctl w) by apply next_iter_ctl.
  assert (Hfirst1 : firstNode w1 = Some 0).
  { unfold ctl in Hctl1. injection Hctl1 as _ _ _ _ E _ _ _. congruence. }
  assert (Hleft1 : leftEdge w1 = Some l).
  { unfold w1. rewrite next_iter_left. exact Hleft. }
  assert (Hright1 : rightEdge w1 = if Nat.eqb k l then Some l else rightEdge w)
    by apply next_iter_right.
  pose proof (next_iter_phase n gap s l k w Hk Hph) as Hph1. fold w1 in Hph1.
  destruct (Nat.eqb_spec (S k) n) as [E|E].
  - exists w1. split; [reflexivity|].
    destruct Hph1 as [[Hbad _]|[Hno Hnts]]; [lia|].
    repeat split; try assumption.
    rewrite Hright1.
    destruct (Nat.eqb_spec k l), (Nat.leb_spec k l); try reflexivity; lia.
  - destruct (IH (S k) w1 ltac:(lia) ltac:(lia) Hring1 Hfirst1 Hleft1 Hph1)
      as (w' & Hrun & Q1 & Q2 & Q3 & Q4 & Q5 & Q6).
    exists w'. repeat split; try assumption.
    + rewrite Q5, Hright1.
      destruct (Nat.eqb_spec k l), (Nat.leb_spec k l), (Nat.leb_spec (S k) l);
        try reflexivity; lia.
    + rewrite Q6. exact Hctl1.
Qed.

Lemma moveToNext_St n s l r w mn :
  2 <= n -> St n s l r w -> menus w = [mn] ->
  opened mn = true -> revolvingMenu mn = true ->
  exists w',
    moveToNext 0 w = Ok w'
    /\ St n (succ_mod n s) (succ_mod n l) l w'
    /\ menus w' = [set_itemSelected (Z.of_nat (succ_mod n s)) mn]
    /\ bystanders w' = bystanders w.
Proof.
  intros Hn [Hring Hsel Hs Hl Hr Hfirst Hcount Hidle Hnts Hleft Hright]
    Hmenus Hopen Hrev.
  pose proof (RingOK_length _ _ Hring) as Hlen.
  unfold moveToNext, getMenu, rotationBlocked.
  rewrite Hmenus. cbn [lookup list_lookup bind].
  rewrite Hopen, Hrev, Hidle, Hcount.
  replace (Z.of_nat n <=? 1)%Z with false by (symmetry; apply Z.leb_gt; lia).
  cbn [negb orb andb].
  destruct (moveToNext_loop_ring n (gapBetweenItems mn) s l Hs Hl
              (walkFuel (set_isMoving true w)) 0 (set_isMoving true w))
    as (w' & Hrun & Q1 & Q2 & Q3 & Q4 & Q5 & Q6);
    try assumption; try lia.
  { unfold walkFuel. wsimpl. lia. }
  { left. split; [lia|exact Hsel]. }
  change (firstNode (set_isMoving true w)) with (firstNode w).
  rewrite Hfirst, Hrun. cbn [bind].
  unfold ctl in Q6. wsimpl. injection Q6 as C1 C2 C3 C4 C5 C6 C7 C8.
  rewrite Q4. ring_node n l. rewrite X. wsimpl. rewrite Q3.
  ring_node n (succ_mod n s). wsimpl. rewrite ?Q3. wsimpl.
  ring_node n (succ_mod n s).
  eexists. split; [reflexivity|]. wsimpl.
  split; [split|split]; wsimpl.
  - unfold RingOK. rewrite links_alter by apply keepsLinks_selected. exact Q1.
  - unfold SelIs. rewrite flags_alter_selected, Q2. apply flags_set.
  - apply succ_mod_lt, Hs.
  - apply succ_mod_lt, Hl.
  - exact Hl.
  - congruence.
  - congruence.
  - reflexivity.
  - exact Q3.
  - reflexivity.
  - exact Q5.
  - rewrite C1, Hmenus, I1. reflexivity.
  - unfold bystanders. wsimpl. congruence.
Qed.

(** *** The loop of [moveToPrev] *)

Lemma prev_iter_links n gap r k w :
  linksOf <$> heap (prev_iter n gap r k w) = linksOf <$> heap w.
Proof.
  unfold prev_iter.
  destruct (Nat.eqb k r); wsimpl;
    match goal with |- context [if ?b then _ else _] => destruct b end;
    wsimpl; rewrite ?links_alter; try reflexivity;
    auto using keepsLinks_position, keepsLinks_selected.
Qed.

Lemma prev_iter_ctl n gap r k w : ctl (prev_iter n gap r k w) = ctl w.
Proof.
  unfold prev_iter.
  destruct (Nat.eqb k r); wsimpl;
    match goal with |- context [if ?b then _ else _] => destruct b end;
    reflexivity.
Qed.

Lemma prev_iter_right n gap r k w :
  rightEdge (prev_iter n gap r k w) = rightEdge w.
Proof.
  unfold prev_iter.
  destruct (Nat.eqb k r); wsimpl;
    match goal with |- context [if ?b then _ else _] => destruct b end;
    reflexivity.
Qed.

Lemma prev_iter_left n gap r k w :
  leftEdge (prev_iter n gap r k w)
  = if Nat.eqb k r then Some r else leftEdge w.
Proof.
  unfold prev_iter.
  destruct (Nat.eqb k r); wsimpl;
    match goal with |- context [if ?b then _ else _] => destruct b end;
    reflexivity.
Qed.

Lemma prev_iter_flags n gap r k w :
  selected <$> heap (prev_iter n gap r k w)
  = if selected (the k w) then <[k := false]> (selected <$> heap w)
    else selected <$> heap w.
Proof.
  unfold prev_iter. cbv zeta.
  destruct (Nat.eqb k r);
    try change (the k (set_leftEdge ?a ?w0)) with (the k w0);
    rewrite ?the_selected_position;
    destruct (selected (the k w)); wsimpl;
    rewrite ?flags_alter_selected, ?flags_alter_position; reflexivity.
Qed.

Lemma prev_iter_select n gap r k w :
  nodeToSelect (prev_iter n gap r k w)
  = if selected (the k w) then Some (pred_mod n k) else nodeToSelect w.
Proof.
  unfold prev_iter. cbv zeta.
  destruct (Nat.eqb k r);
    try change (the k (set_leftEdge ?a ?w0)) with (the k w0);
    rewrite ?the_selected_position;
    destruct (selected (the k w)); reflexivity.
Qed.

Lemma moveToPrev_loop_step n gap r f k w :
  RingOK n (heap w) -> firstNode w = Some 0 -> rightEdge w = Some r ->
  r < n -> k < n ->
  moveToPrev_loop (S f) gap (Some k) w
  = if Nat.eqb (pred_mod n k) 0 then Ok (prev_iter n gap r k w)
    else moveToPrev_loop f gap (Some (pred_mod n k)) (prev_iter n gap r k w).
Proof.
  intros Hring Hfirst Hright Hr Hk.
  cbn [moveToPrev_loop]. ring_node n k. rewrite Hright. cbn [sameRef].
  unfold prev_iter. cbv zeta.
  destruct (Nat.eqb_spec k r) as [E|E].
  - subst k. ring_node n r. rewrite X0. ring_node n (succ_mod n r).
    wsimpl. rewrite Hright.
    ring_node n r. rewrite V2.
    destruct (selected (the r _)).
    + ring_node n (pred_mod n r). wsimpl. rewrite Hfirst. ring_node n 0.
      rewrite I3, I4, Zeqb_of_nat.
      destruct (Nat.eqb (pred_mod n r) 0); reflexivity.
    + ring_node n (pred_mod n r). wsimpl. rewrite Hfirst. ring_node n 0.
      rewrite I3, I4, Zeqb_of_nat.
      destruct (Nat.eqb (pred_mod n r) 0); reflexivity.
  - cbn [bind]. rewrite G. cbn [bind]. rewrite V.
    destruct (selected (the k w)).
    + ring_node n (pred_mod n k). wsimpl. rewrite Hfirst. ring_node n 0.
      rewrite I0, I1, Zeqb_of_nat.
      destruct (Nat.eqb (pred_mod n k) 0); reflexivity.
    + ring_node n (pred_mod n k). wsimpl. rewrite Hfirst. ring_node n 0.
      rewrite I0, I1, Zeqb_of_nat.
      destruct (Nat.eqb (pred_mod n k) 0); reflexivity.
Qed.

Lemma prev_iter_phase n gap s r k w (A A' : Prop) :
  k < n -> (A -> k <> s -> A') ->
  Phase n s (pred_mod n s) A w ->
  Phase n s (pred_mod n s) A' (prev_iter n gap r k w).
Proof.
  intros Hk HA [[Ha Hsel]|[Hno Hnts]].
  - pose proof (the_selected k w _ (SelIs_lookup n s _ k Hsel Hk)) as Hf.
    destruct (Nat.eqb_spec k s) as [->|Hne].
    + right. split.
      * unfold NoSel. rewrite prev_iter_flags, Hf, Hsel. apply flags_clear.
      * rewrite prev_iter_select, Hf. reflexivity.
    + left. split; [auto|].
      unfold SelIs. rewrite prev_iter_flags, Hf. exact Hsel.
  - pose proof (the_selected k w _ (NoSel_lookup n _ k Hno Hk)) as Hf.
    right. split.
    + unfold NoSel. rewrite prev_iter_flags, Hf. exact Hno.
    + rewrite prev_iter_select, Hf. exact Hnts.
Qed.

Lemma moveToPrev_loop_ring n gap s r :
  s < n -> r < n ->
  forall fuel k w,
    1 <= k < n -> k <= fuel ->
    RingOK n (heap w) -> firstNode w = Some 0 -> rightEdge w = Some r ->
    Phase n s (pred_mod n s) (1 <= s <= k) w ->
    exists w',
      moveToPrev_loop fuel gap (Some k) w = Ok w'
      /\ RingOK n (heap w') /\ NoSel n (heap w')
      /\ nodeToSelect w' = Some (pred_mod n s)
      /\ rightEdge w' = Some r
      /\ leftEdge w' = (if Nat.leb 1 r && Nat.leb r k then Some r
                        else leftEdge w)
      /\ ctl w' = ctl w.
Proof.
  intros Hs Hr.
  induction fuel as [|f IH]; intros k w Hk Hfuel Hring Hfirst Hright Hph; [lia|].
  rewrite (moveToPrev_loop_step n gap r f k w Hring Hfirst Hright Hr)
    by lia.
  set (w1 := prev_iter n gap r k w).
  assert (Hring1 : RingOK n (heap w1)).
  { unfold RingOK, w1. rewrite prev_iter_links. exact Hring. }
  assert (Hctl1 : ctl w1 = ctl w) by apply prev_iter_ctl.
  assert (Hfirst1 : firstNode w1 = Some 0).
  { unfold ctl in Hctl1. injection Hctl1 as _ _ _ _ E _ _ _. congruence. }
  assert (Hright1 : rightEdge w1 = Some r).
  { unfold w1. rewrite prev_iter_right. exact Hright. }
  assert (Hleft1 : leftEdge w1 = if Nat.eqb k r then Some r else leftEdge w)
    by apply prev_iter_left.
  assert (Hph1 : Phase n s (pred_mod n s) (1 <= s <= k - 1) w1).
  { apply (prev_iter_phase n gap s r k w (1 <= s <= k)); [lia|lia|exact Hph]. }
  assert (Hpred : pred_mod n k = k - 1).
  { unfold pred_mod. destruct (Nat.eqb_spec k 0); lia. }
  rewrite Hpred.
  destruct (Nat.eqb_spec (k - 1) 0) as [E|E].
  - exists w1. split; [reflexivity|].
    destruct Hph1 as [[Hbad _]|[Hno Hnts]]; [lia|].
    repeat split; try assumption.
    rewrite Hleft1.
    destruct (Nat.eqb_spec k r), (Nat.leb_spec 1 r), (Nat.leb_spec r k);
      cbn [andb]; try reflexivity; lia.
  - destruct (IH (k - 1) w1 ltac:(lia) ltac:(lia) Hring1 Hfirst1 Hright1 Hph1)
      as (w' & Hrun & Q1 & Q2 & Q3 & Q4 & Q5 & Q6).
    exists w'. repeat split; try assumption.
    + rewrite Q5, Hleft1.
      destruct (Nat.eqb_spec k r), (Nat.leb_spec 1 r), (Nat.leb_spec r k),
        (Nat.leb_spec r (k - 1)); cbn [andb]; try reflexivity; lia.
    + rewrite Q6. exact Hctl1.
Qed.

Lemma moveToPrev_St n s l r w mn :
  2 <= n -> St n s l r w -> menus w = [mn] ->
  opened mn = true -> revolvingMenu mn = true ->
  exists w',
    moveToPrev 0 w = Ok w'
    /\ St n (pred_mod n s) r (pred_mod n r) w'
    /\ menus w' = [set_itemSelected (Z.of_nat (pred_mod n s)) mn]
    /\ bystanders w' = bystanders w.
Proof.
  intros Hn [Hring Hsel Hs Hl Hr Hfirst Hcount Hidle Hnts Hleft Hright]
    Hmenus Hopen Hrev.
  pose proof (RingOK_length _ _ Hring) as Hlen.
  unfold moveToPrev, getMenu, rotationBlocked.
  rewrite Hmenus. cbn [lookup list_lookup bind].
  rewrite Hopen, Hrev, Hidle, Hcount.
  replace (Z.of_nat n <=? 1)%Z with false by (symmetry; apply Z.leb_gt; lia).
  cbn [negb orb andb].
  set (w0 := set_isMoving true w).
  assert (Hring0 : RingOK n (heap w0)) by exact Hring.
  change (firstNode w0) with (firstNode w). rewrite Hfirst.
  unfold walkFuel. change (heap w0) with (heap w). rewrite Hlen.
  rewrite (moveToPrev_loop_step n (gapBetweenItems mn) r n 0 w0 Hring0 Hfirst
             Hright Hr) by lia.
  assert (Hp0 : pred_mod n 0 = n - 1) by reflexivity.
  rewrite Hp0. destruct (Nat.eqb_spec (n - 1) 0) as [E|_]; [lia|].
  set (w1 := prev_iter n (gapBetweenItems mn) r 0 w0).
  assert (Hring1 : RingOK n (heap w1)).
  { unfold RingOK, w1. rewrite prev_iter_links. exact Hring. }
  assert (Hctl1 : ctl w1 = ctl w0) by apply prev_iter_ctl.
  assert (Hfirst1 : firstNode w1 = Some 0).
  { unfold ctl in Hctl1. injection Hctl1 as _ _ _ _ E _ _ _.
    rewrite E. exact Hfirst. }
  assert (Hright1 : rightEdge w1 = Some r).
  { unfold w1. rewrite prev_iter_right. exact Hright. }
  assert (Hleft1 : leftEdge w1 = if Nat.eqb 0 r then Some r else Some l).
  { unfold w1. rewrite prev_iter_left. destruct (Nat.eqb 0 r); auto. }
  assert (Hph1 : Phase n s (pred_mod n s) (1 <= s <= n - 1) w1).
  { apply (prev_iter_phase n _ s r 0 w0 True); [lia|lia|].
    left. split; [exact I|exact Hsel]. }
  destruct (moveToPrev_loop_ring n (gapBetweenItems mn) s r Hs Hr n (n - 1) w1)
    as (w' & Hrun & Q1 & Q2 & Q3 & Q4 & Q5 & Q6);
    try assumption; try lia.
  rewrite Hrun. cbn [bind].
  assert (Hleft' : leftEdge w' = Some r).
  { rewrite Q5, Hleft1.
    destruct (Nat.eqb_spec 0 r), (Nat.leb_spec 1 r), (Nat.leb_spec r (n - 1));
      cbn [andb]; try reflexivity; lia. }
  unfold ctl in Q6, Hctl1. unfold w0 in Hctl1. wsimpl.
  injection Q6 as C1 C2 C3 C4 C5 C6 C7 C8.
  injection Hctl1 as D1 D2 D3 D4 D5 D6 D7 D8.
  rewrite Q4. ring_node n r. rewrite V. wsimpl. rewrite Q3.
  ring_node n (pred_mod n s). wsimpl. rewrite ?Q3. wsimpl.
  ring_node n (pred_mod n s).
  eexists. split; [reflexivity|].
  split; [split|split]; wsimpl.
  - unfold RingOK. rewrite links_alter by apply keepsLinks_selected. exact Q1.
  - unfold SelIs. rewrite flags_alter_selected, Q2. apply flags_set.
  - apply pred_mod_lt, Hs.
  - exact Hr.
  - apply pred_mod_lt, Hr.
  - congruence.
  - congruence.
  - reflexivity.
  - exact Q3.
  - exact Hleft'.
  - reflexivity.
  - rewrite C1, D1, Hmenus, I1. reflexivity.
  - unfold bystanders. wsimpl. congruence.
Qed.

(** ** Sessions *)

Lemma init_revolvingMenu_true P : init_revolvingMenu P = true.
Proof. destruct P as [[? ? [[|]|] ?]|]; reflexivity. Qed.

Lemma Built_Good P n w : 1 <= n -> Built P n w -> Good n w.
Proof.
  intros Hn [Hring Hsel Hpos Hleft Hright Hmenus Hrest].
  unfold restOf in Hrest. injection Hrest as R1 R2 R3 R4 R5 R6 R7 R8 R9.
  split; try assumption.
  - exists 0. repeat split; try assumption; try lia.
    intros H2. exists (leftIndex n), (n / 2).
    pose proof (leftIndex_lt n H2) as Hlt.
    destruct (Nat.ltb_spec (leftIndex n) n); [|lia].
    pose proof (Nat.div_mod_eq n 2).
    pose proof (Nat.mod_upper_bound n 2 ltac:(lia)).
    repeat split; try assumption; try lia.
    unfold EdgesOK, leftIndex, pred_mod in *.
    destruct (Nat.eqb_spec n 2) as [->|Hne].
    + right. cbn. auto.
    + left. destruct (Nat.eqb_spec (n / 2 + 1) 0); lia.
  - exists (builtMenu P n). repeat split; try assumption.
    apply init_revolvingMenu_true.
Qed.

Lemma Good_St n w :
  2 <= n -> Good n w ->
  exists s l r, St n s l r w /\ EdgesOK n s l r.
Proof.
  intros Hn [Hring Hfirst Hcount Hidle Hclk (s & Hs & Hnts & Hsel & Hedges) _].
  destruct (Hedges Hn) as (l & r & Hl & Hr & Hle & Hre & HE).
  exists s, l, r. split; [split; assumption|exact HE].
Qed.

Lemma open_quiet n w mn :
  1 <= n -> RingOK n (heap w) -> firstNode w = Some 0 -> menus w = [mn] ->
  exists ms,
    open 0 w
    = Ok (if opened mn then w
          else set_menus [set_opened_enabled true mn]
                 (set_motions (motions w ++ ms) w)).
Proof.
  intros Hn Hring Hfirst Hmenus.
  pose proof (RingOK_length _ _ Hring) as Hlen.
  unfold open, getMenu. rewrite Hmenus. cbn [lookup list_lookup bind].
  destruct (opened mn); [exists []; reflexivity|].
  destruct (Z.eqb (openBehavior mn) OPEN_GROW).
  - rewrite Hfirst, (forEachNode_loop_ring n) by
      (try assumption; unfold walkFuel; lia).
    cbn [bind]. eexists. unfold updMenu. wsimpl. rewrite Hmenus. reflexivity.
  - destruct (Z.eqb (openBehavior mn) OPEN_TRANSPARENCY).
    + rewrite Hfirst, (forEachNode_loop_ring n) by
        (try assumption; unfold walkFuel; lia).
      cbn [bind]. eexists. unfold updMenu. wsimpl. rewrite Hmenus.
      reflexivity.
    + cbn [bind]. exists []. unfold updMenu, set_motions, set_menus. wsimpl.
      rewrite Hmenus, app_nil_r. reflexivity.
Qed.

Lemma close_quiet n w mn :
  1 <= n -> RingOK n (heap w) -> firstNode w = Some 0 -> menus w = [mn] ->
  exists ms,
    close 0 w
    = Ok (if opened mn
          then set_menus [set_opened_enabled false mn]
                 (set_motions (motions w ++ ms) w)
          else w).
Proof.
  intros Hn Hring Hfirst Hmenus.
  pose proof (RingOK_length _ _ Hring) as Hlen.
  unfold close, getMenu. rewrite Hmenus. cbn [lookup list_lookup bind].
  destruct (opened mn); cbn [negb]; [|exists []; reflexivity].
  rewrite Hfirst, (forEachNode_loop_ring n) by
    (try assumption; unfold walkFuel; lia).
  cbn [bind]. eexists. unfold updMenu. wsimpl. rewrite Hmenus. reflexivity.
Qed.

Lemma selectItem_quiet n s w mn :
  RingOK n (heap w) -> s < n -> nodeToSelect w = Some s -> menus w = [mn] ->
  selectItem 0 w
  = Ok (if negb (opened mn) || negb (enabled mn) then set_keyPressed false w
        else logMotion (Pulse s (action (the s w))) w).
Proof.
  intros Hring Hs Hnts Hmenus.
  unfold selectItem, getMenu. rewrite Hmenus. cbn [lookup list_lookup bind].
  destruct (negb (opened mn) || negb (enabled mn)); [reflexivity|].
  rewrite Hnts. ring_node n s. reflexivity.
Qed.

Lemma rotation_blocked w mn atEnd f :
  menus w = [mn] ->
  (opened mn = false \/ (nextNodeID w <= 1)%Z) ->
  (do mn' <- getMenu 0 w;
   if rotationBlocked mn' (atEnd mn') w then Ok (set_keyPressed false w)
   else f mn')
  = Ok (set_keyPressed false w).
Proof.
  intros Hmenus H. unfold getMenu, rotationBlocked. rewrite Hmenus.
  cbn [lookup list_lookup bind].
  destruct H as [->|H]; [reflexivity|].
  apply Z.leb_le in H. rewrite H, orb_true_r. reflexivity.
Qed.

Lemma moveToNext_blocked w mn :
  menus w = [mn] -> (opened mn = false \/ (nextNodeID w <= 1)%Z) ->
  moveToNext 0 w = Ok (set_keyPressed false w).
Proof.
  intros Hm H. unfold moveToNext.
  apply (rotation_blocked w mn
           (fun m => Z.leb (Z.of_nat (length (itemTray m)) - 1) (itemSelected m))
           _ Hm H).
Qed.

Lemma moveToPrev_blocked w mn :
  menus w = [mn] -> (opened mn = false \/ (nextNodeID w <= 1)%Z) ->
  moveToPrev 0 w = Ok (set_keyPressed false w).
Proof.
  intros Hm H. unfold moveToPrev.
  apply (rotation_blocked w mn (fun m => Z.leb (itemSelected m) 0) _ Hm H).
Qed.

Lemma St_Good n s l r w mn :
  St n s l r w -> EdgesOK n s l r -> clicked w = false ->
  menus w = [mn] -> revolvingMenu mn = true ->
  (opened mn = true -> enabled mn = true) ->
  Good n w.
Proof.
  intros [Hring Hsel Hs Hl Hr Hfirst Hcount Hidle Hnts Hleft Hright]
    HE Hclk Hmenus Hrev Hen.
  split; try assumption.
  - exists s. repeat split; try assumption.
    intros _. exists l, r. repeat split; assumption.
  - exists mn. auto.
Qed.

Lemma opened_cases mn : opened mn = true \/ opened mn = false.
Proof. destruct (opened mn); auto. Qed.

Lemma exec_Good n c w :
  1 <= n -> Good n w -> exists w', exec 0 c w = Ok w' /\ Good n w'.
Proof.
  intros Hn HG.
  pose proof HG as
    [Hring Hfirst Hcount Hidle Hclk (s & Hs & Hnts & Hsel & Hedges)
       (mn & Hmenus & Hrev & Hen)].
  destruct c; cbn [exec].
  - destruct (open_quiet n w mn Hn Hring Hfirst Hmenus) as (ms & ->).
    eexists. split; [reflexivity|].
    destruct (opened mn); [exact HG|].
    split; wsimpl; try assumption.
    + exists s. auto.
    + eexists. split; [reflexivity|]. split; [exact Hrev|]. reflexivity.
  - destruct (close_quiet n w mn Hn Hring Hfirst Hmenus) as (ms & ->).
    eexists. split; [reflexivity|].
    destruct (opened mn); [|exact HG].
    split; wsimpl; try assumption.
    + exists s. auto.
    + eexists. split; [reflexivity|]. split; [exact Hrev|]. discriminate.
  - destruct (opened_cases mn) as [Hop|Hop];
      [destruct (Nat.eq_dec n 1) as [->|Hn1]|].
    + rewrite (moveToNext_blocked w mn Hmenus) by (right; lia).
      eexists. split; [reflexivity|]. split; wsimpl; try assumption.
      * exists s. auto.
      * exists mn. auto.
    + destruct (Good_St n w ltac:(lia) HG) as (s' & l & r & HSt & HE).
      destruct (moveToNext_St n s' l r w mn ltac:(lia) HSt Hmenus Hop Hrev)
        as (w' & Hrun & HSt' & Hm' & Hby).
      exists w'. split; [exact Hrun|].
      unfold bystanders in Hby. injection Hby as B1 B2 B3 B4.
      eapply (St_Good n _ _ _ w');
        [exact HSt' | | congruence | exact Hm' | exact Hrev
        | exact Hen].
      left. symmetry. apply pred_succ_mod. apply (st_l _ _ _ _ _ HSt).
    + rewrite (moveToNext_blocked w mn Hmenus) by (left; exact Hop).
      eexists. split; [reflexivity|]. split; wsimpl; try assumption.
      * exists s. auto.
      * exists mn. auto.
  - destruct (opened_cases mn) as [Hop|Hop];
      [destruct (Nat.eq_dec n 1) as [->|Hn1]|].
    + rewrite (moveToPrev_blocked w mn Hmenus) by (right; lia).
      eexists. split; [reflexivity|]. split; wsimpl; try assumption.
      * exists s. auto.
      * exists mn. auto.
    + destruct (Good_St n w ltac:(lia) HG) as (s' & l & r & HSt & HE).
      destruct (moveToPrev_St n s' l r w mn ltac:(lia) HSt Hmenus Hop Hrev)
        as (w' & Hrun & HSt' & Hm' & Hby).
      exists w'. split; [exact Hrun|].
      unfold bystanders in Hby. injection Hby as B1 B2 B3 B4.
      eapply (St_Good n _ _ _ w');
        [exact HSt' | | congruence | exact Hm' | exact Hrev
        | exact Hen].
      left. reflexivity.
    + rewrite (moveToPrev_blocked w mn Hmenus) by (left; exact Hop).
      eexists. split; [reflexivity|]. split; wsimpl; try assumption.
      * exists s. auto.
      * exists mn. auto.
  - rewrite (selectItem_quiet n s w mn Hring Hs Hnts Hmenus).
    eexists. split; [reflexivity|].
    destruct (negb (opened mn) || negb (enabled mn));
      split; wsimpl; try assumption.
    + exists s. auto.
    + exists mn. auto.
    + exists s. auto.
    + exists mn. auto.
Qed.

Lemma run_Good n cs :
  1 <= n -> forall w, Good n w -> exists w', run 0 cs w = Ok w' /\ Good n w'.
Proof.
  intros Hn. induction cs as [|c cs IH]; intros w HG.
  - exists w. split; [reflexivity|exact HG].
  - destruct (exec_Good n c w Hn HG) as (w1 & Hrun & HG1).
    destruct (IH w1 HG1) as (w' & Hrun' & HG').
    exists w'. split; [|exact HG'].
    cbn [run]. rewrite Hrun. exact Hrun'.
Qed.

Lemma session_Good P n cs :
  1 <= n -> exists w, session P n cs = Ok w /\ Good n w.
Proof.
  intros Hn. destruct (freshMenu_built P n Hn) as (w0 & Hw0 & HB).
  destruct (run_Good n cs Hn w0 (Built_Good P n w0 Hn HB)) as (w & Hrun & HG).
  exists w. split; [|exact HG].
  unfold session. rewrite Hw0. exact Hrun.
Qed.

Lemma nthNext_ring n w :
  RingOK n (heap w) ->
  forall k a, a + k < n -> nthNext k (Some a) w = Some (a + k).
Proof.
  intros Hring. induction k as [|k IH]; intros a Ha.
  - cbn. f_equal. lia.
  - destruct (RingOK_lookup n _ a Hring ltac:(lia)) as (nd & E & _ & X & _).
    cbn [nthNext]. rewrite E, X.
    assert (succ_mod n a = S a) as ->.
    { unfold succ_mod. destruct (Nat.eqb_spec (S a) n); lia. }
    rewrite IH by lia. f_equal. lia.
Qed.

Lemma nodeAt_ring n w k :
  RingOK n (heap w) -> firstNode w = Some 0 -> k < n -> nodeAt k w = Some k.
Proof.
  intros Hring Hfirst Hk. unfold nodeAt. rewrite Hfirst.
  apply (nthNext_ring n w Hring k 0). lia.
Qed.

Lemma filter_seq_one (f : nat -> bool) s :
  forall n b,
    (forall i, b <= i < b + n -> f i = Nat.eqb i s) ->
    filter (fun i => f i = true) (seq b n)
    = if Nat.leb b s && Nat.ltb s (b + n) then [s] else [].
Proof.
  induction n as [|n IH]; intros b Hf.
  - cbn [seq]. rewrite filter_nil.
    destruct (Nat.leb_spec b s), (Nat.ltb_spec s (b + 0)); cbn [andb];
      try reflexivity; lia.
  - cbn [seq]. rewrite filter_cons.
    rewrite IH by (intros i Hi; apply Hf; lia).
    rewrite (Hf b) by lia.
    destruct (decide (Nat.eqb b s = true)) as [E|E].
    + apply Nat.eqb_eq in E. subst b.
      destruct (Nat.leb_spec (S s) s), (Nat.leb_spec s s),
        (Nat.ltb_spec s (s + S n)), (Nat.ltb_spec s (S s + n));
        cbn [andb]; try reflexivity; lia.
    + assert (b <> s) by (intros ->; rewrite Nat.eqb_refl in E; auto).
      destruct (Nat.leb_spec (S b) s), (Nat.leb_spec b s),
        (Nat.ltb_spec s (b + S n)), (Nat.ltb_spec s (S b + n));
        cbn [andb]; try reflexivity; lia.
Qed.

Lemma selectedNodes_SelIs n s w :
  RingOK n (heap w) -> SelIs n s (heap w) -> s < n -> selectedNodes w = [s].
Proof.
  intros Hring Hsel Hs. pose proof (RingOK_length _ _ Hring) as Hlen.
  unfold selectedNodes. rewrite Hlen.
  set (f := fun i => match selected <$> heap w !! i with
                     | Some true => true | _ => false end).
  rewrite (list_filter_iff _ (fun i => f i = true)).
  - rewrite (filter_seq_one f s n 0).
    + destruct (Nat.leb_spec 0 s), (Nat.ltb_spec s (0 + n)); cbn [andb];
        try reflexivity; lia.
    + intros i Hi. unfold f.
      rewrite <- list_lookup_fmap, (SelIs_lookup n s _ i Hsel) by lia.
      destruct (Nat.eqb i s); reflexivity.
  - intros i. unfold f.
    destruct (selected <$> heap w !! i) as [[|]|]; split; congruence.
Qed.

Lemma Good_selected n w :
  1 <= n -> Good n w ->
  exists s, selectedNodes w = [s] /\ nodeToSelect w = Some s /\ s < n.
Proof.
  intros Hn [Hring _ _ _ _ (s & Hs & Hnts & Hsel & _) _].
  exists s. split; [|auto]. apply (selectedNodes_SelIs n); assumption.
Qed.

(** ** Hit-target resolution on a ring *)

Ltac bool_cases :=
  repeat match goal with
         | |- context [Nat.eqb ?a ?b] => destruct (Nat.eqb_spec a b)
         | |- context [Z.eqb ?a ?b] => destruct (Z.eqb_spec a b)
         | |- context [Z.leb ?a ?b] => destruct (Z.leb_spec a b)
         | |- context [Z.ltb ?a ?b] => destruct (Z.ltb_spec a b)
         | |- context [Nat.leb ?a ?b] => destruct (Nat.leb_spec a b)
         | |- context [Nat.ltb ?a ?b] => destruct (Nat.ltb_spec a b)
         end;
  cbn [andb orb negb]; try reflexivity; try lia; try (exfalso; lia).

Lemma traversalCheck_loop_fwd n w r t :
  RingOK n (heap w) -> r < n ->
  forall d c fuel,
    c < n -> (if Nat.leb c r then r - c else n - c + r) = d -> d <= fuel ->
    traversalCheck_loop fuel (Some r) (Some c) t false w
    = Ok (fwdArc n c r t).
Proof.
  intros Hring Hr. induction d as [|d IH]; intros c fuel Hc Hd Hfuel.
  - assert (c = r) as -> by (destruct (Nat.leb_spec c r); lia).
    destruct fuel; cbn [traversalCheck_loop]; ring_node n r;
      rewrite Z.eqb_refl; cbn [negb];
      rewrite I; unfold fwdArc; f_equal; bool_cases.
  - assert (c <> r) by (destruct (Nat.leb_spec c r); lia).
    destruct fuel as [|fuel]; [lia|].
    cbn [traversalCheck_loop]. ring_node n c. ring_node n r.
    rewrite I, I0, Zeqb_of_nat.
    destruct (Nat.eqb_spec c r); [lia|]. cbn [negb].
    destruct (Z.eqb_spec (Z.of_nat c) t) as [E|E].
    + f_equal. unfold fwdArc. bool_cases.
    + rewrite X, (IH (succ_mod n c)).
      * f_equal. unfold fwdArc, succ_mod. bool_cases.
      * apply succ_mod_lt, Hc.
      * unfold succ_mod. revert Hd. bool_cases.
      * lia.
Qed.

Lemma traversalCheck_loop_bwd n w l t :
  RingOK n (heap w) -> l < n ->
  forall d c fuel,
    c < n -> (if Nat.leb l c then c - l else c + n - l) = d -> d <= fuel ->
    traversalCheck_loop fuel (Some l) (Some c) t true w
    = Ok (bwdArc n c l t).
Proof.
  intros Hring Hl. induction d as [|d IH]; intros c fuel Hc Hd Hfuel.
  - assert (c = l) as -> by (destruct (Nat.leb_spec l c); lia).
    destruct fuel; cbn [traversalCheck_loop]; ring_node n l;
      rewrite Z.eqb_refl; cbn [negb];
      rewrite I; unfold bwdArc; f_equal; bool_cases.
  - assert (c <> l) by (destruct (Nat.leb_spec l c); lia).
    destruct fuel as [|fuel]; [lia|].
    cbn [traversalCheck_loop]. ring_node n c. ring_node n l.
    rewrite I, I0, Zeqb_of_nat.
    destruct (Nat.eqb_spec c l); [lia|]. cbn [negb].
    destruct (Z.eqb_spec (Z.of_nat c) t) as [E|E].
    + f_equal. unfold bwdArc. bool_cases.
    + rewrite V, (IH (pred_mod n c)).
      * f_equal. unfold bwdArc, pred_mod. bool_cases.
      * apply pred_mod_lt, Hc.
      * unfold pred_mod. revert Hd. bool_cases.
      * lia.
Qed.

Lemma traversalCheck_fwd n w c r t :
  RingOK n (heap w) -> c < n -> r < n ->
  traversalCheck (Some c) (Some r) t false w = Ok (fwdArc n c r t).
Proof.
  intros Hring Hc Hr. unfold traversalCheck, walkFuel.
  rewrite (RingOK_length _ _ Hring).
  apply (traversalCheck_loop_fwd n w r t Hring Hr _ c (S n) Hc eq_refl).
  destruct (Nat.leb_spec c r); lia.
Qed.

Lemma traversalCheck_bwd n w c l t :
  RingOK n (heap w) -> c < n -> l < n ->
  traversalCheck (Some c) (Some l) t true w = Ok (bwdArc n c l t).
Proof.
  intros Hring Hc Hl. unfold traversalCheck, walkFuel.
  rewrite (RingOK_length _ _ Hring).
  apply (traversalCheck_loop_bwd n w l t Hring Hl _ c (S n) Hc eq_refl).
  destruct (Nat.leb_spec l c); lia.
Qed.

(** A target outside the ring is on neither arc. *)
Lemma arcs_missing n s l r t :
  s < n -> l < n -> r < n -> (t < 0 \/ Z.of_nat n <= t)%Z ->
  fwdArc n s r t = false /\ bwdArc n s l t = false.
Proof.
  intros Hs Hl Hr Ht. unfold fwdArc, bwdArc. split; bool_cases.
Qed.

(** A target in the ring is on one of the arcs. *)
Lemma arcs_cover n s l r t :
  2 <= n -> s < n -> l < n -> r < n -> EdgesOK n s l r ->
  (0 <= t < Z.of_nat n)%Z ->
  fwdArc n s r t || bwdArc n s l t = true.
Proof.
  intros Hn Hs Hl Hr HE Ht. unfold fwdArc, bwdArc.
  destruct HE as [->|(-> & -> & -> & ->)].
  - unfold pred_mod in *. revert Hr. bool_cases.
  - bool_cases.
Qed.

Lemma distTo_step fwd n s t :
  s < n -> t < n -> s <> t ->
  distTo fwd n s t = S (distTo fwd n (stepSel fwd n s) t).
Proof.
  intros Hs Ht Hne. unfold distTo, stepSel, succ_mod, pred_mod.
  destruct fwd; bool_cases.
Qed.

Lemma distTo_bound fwd n s t : s < n -> t < n -> distTo fwd n s t <= n - 1.
Proof. intros Hs Ht. unfold distTo. destruct fwd; bool_cases. Qed.

Lemma distTo_zero fwd n s t :
  s < n -> t < n -> distTo fwd n s t = 0 -> s = t.
Proof. intros Hs Ht. unfold distTo. destruct fwd; bool_cases. Qed.

Lemma stepRight_adjacent fwd n l r :
  l < n -> stepRight fwd n l r = pred_mod n (stepLeft fwd n l r).
Proof.
  intros Hl. destruct fwd; cbn [stepRight stepLeft]; [|reflexivity].
  symmetry. apply pred_succ_mod, Hl.
Qed.

Lemma rotate_Nav (fwd : bool) n s l r w :
  2 <= n -> Nav n s l r w ->
  exists w',
    (if fwd then moveToNext 0 w else moveToPrev 0 w) = Ok w'
    /\ Nav n (stepSel fwd n s) (stepLeft fwd n l r) (stepRight fwd n l r) w'
    /\ timers w' = timers w.
Proof.
  intros Hn (HSt & Hclk & mn & Hmenus & Hop & Hen & Hrev).
  destruct fwd.
  - destruct (moveToNext_St n s l r w mn Hn HSt Hmenus Hop Hrev)
      as (w' & Hrun & HSt' & Hm' & Hby).
    unfold bystanders in Hby. injection Hby as B1 B2 B3 B4.
    exists w'. split; [exact Hrun|]. split; [|exact B4].
    split; [exact HSt'|]. split; [congruence|].
    eexists. split; [exact Hm'|]. auto.
  - destruct (moveToPrev_St n s l r w mn Hn HSt Hmenus Hop Hrev)
      as (w' & Hrun & HSt' & Hm' & Hby).
    unfold bystanders in Hby. injection Hby as B1 B2 B3 B4.
    exists w'. split; [exact Hrun|]. split; [|exact B4].
    split; [exact HSt'|]. split; [congruence|].
    eexists. split; [exact Hm'|]. auto.
Qed.

Lemma Nav_timers n s l r w ts :
  Nav n s l r w -> Nav n s l r (set_timers ts w).
Proof.
  intros ([Hring Hsel Hs Hl Hr Hfirst Hcount Hidle Hnts Hleft Hright]
            & Hclk & Hmn).
  split; [split; assumption|]. split; assumption.
Qed.

(** The interval of a click fires until the target is selected: exactly as
    many times as there are steps left. *)
Lemma runInterval_reaches fwd n t i :
  2 <= n -> t < n ->
  forall d s l r w fuel,
    Nav n s l r w -> s <> t -> distTo fwd n s t = d -> d <= fuel ->
    timers w !! i = Some (Some (mkTimer 0 fwd (Z.of_nat t))) ->
    exists w' l' r',
      runInterval fuel i w = Ok (d, w')
      /\ Nav n t l' r' w' /\ r' = pred_mod n l'
      /\ timers w' = <[i := None]> (timers w).
Proof.
  intros Hn Ht. induction d as [|d IH];
    intros s l r w fuel HNav Hne Hd Hfuel Htimer.
  - exfalso. apply Hne. apply (distTo_zero fwd n); try assumption.
    destruct HNav as (HSt & _). apply (st_s _ _ _ _ _ HSt).
  - destruct fuel as [|fuel]; [lia|].
    pose proof HNav as (HSt & _).
    pose proof (st_s _ _ _ _ _ HSt) as Hs.
    destruct (rotate_Nav fwd n s l r w Hn HNav) as (w1 & Hrot & HNav1 & Ht1).
    set (l1 := stepLeft fwd n l r) in *. set (r1 := stepRight fwd n l r) in *.
    assert (HE1 : r1 = pred_mod n l1)
      by apply stepRight_adjacent, (st_l _ _ _ _ _ HSt).
    pose proof HNav1 as (HSt1 & _).
    rewrite (distTo_step fwd n s t Hs Ht Hne) in Hd.
    cbn [runInterval]. rewrite Htimer.
    unfold tick. rewrite Htimer. cbn [t_forward t_menu t_target].
    rewrite Hrot. cbn [bind].
    rewrite (st_nts _ _ _ _ _ HSt1).
    destruct (getNode_the n w1 (stepSel fwd n s) (st_ring _ _ _ _ _ HSt1)
                (st_s _ _ _ _ _ HSt1)) as (G & I & _).
    rewrite G. cbn [bind]. rewrite I, Zeqb_of_nat.
    destruct (Nat.eqb_spec (stepSel fwd n s) t) as [E|E].
    + cbn [bind].
      assert (Hcl : timers (clearInterval i w1) !! i = Some None).
      { unfold clearInterval. wsimpl. apply list_lookup_insert_eq.
        rewrite Ht1. apply (lookup_lt_Some _ _ _ Htimer). }
      assert (d = 0) as ->.
      { rewrite E in Hd. unfold distTo in Hd. revert Hd.
        destruct fwd; bool_cases. }
      destruct fuel; cbn [runInterval]; rewrite Hcl; cbn [bind];
        exists (clearInterval i w1), l1, r1;
        (split; [reflexivity|]);
        (split; [rewrite <- E; apply Nav_timers, HNav1|]);
        (split; [exact HE1|]);
        unfold clearInterval; wsimpl; rewrite Ht1; reflexivity.
    + cbn [bind].
      destruct (IH (stepSel fwd n s) l1 r1 w1 fuel HNav1 E
                  ltac:(lia) ltac:(lia))
        as (w' & l' & r' & Hrun & HNav' & HE' & Ht').
      { rewrite Ht1. exact Htimer. }
      rewrite Hrun. cbn [bind]. exists w', l', r'.
      repeat split; try assumption; try apply HNav'.
      rewrite Ht', Ht1. reflexivity.
Qed.

Lemma clickItem_Nav n s l r w t :
  Nav n s l r w ->
  clickItem 0 (Some t) w
  = if Z.eqb (Z.of_nat s) t then do w' <- selectItem 0 w; Ok (Selected, w')
    else if fwdArc n s r t then rotateToward 0 true t w
    else if bwdArc n s l t then rotateToward 0 false t w
    else Ok (Ignored, w).
Proof.
  intros ([Hring Hsel Hs Hl Hr Hfirst Hcount Hidle Hnts Hleft Hright]
            & Hclk & mn & Hmenus & Hop & Hen & Hrev).
  unfold clickItem, getMenu. rewrite Hmenus. cbn [lookup list_lookup bind].
  rewrite Hop, Hclk. cbn [negb orb]. rewrite Hnts. ring_node n s. rewrite I.
  destruct (Z.eqb (Z.of_nat s) t); [reflexivity|].
  rewrite Hright, (traversalCheck_fwd n w s r t Hring Hs Hr). cbn [bind].
  destruct (fwdArc n s r t); [reflexivity|].
  rewrite Hleft, (traversalCheck_bwd n w s l t Hring Hs Hl). cbn [bind].
  reflexivity.
Qed.

(** A click on a tag no node of the ring carries does nothing at all. *)
Lemma clickItem_missing n s l r w t :
  Nav n s l r w -> (t < 0 \/ Z.of_nat n <= t)%Z ->
  clickItem 0 (Some t) w = Ok (Ignored, w).
Proof.
  intros HNav Ht. rewrite (clickItem_Nav n s l r w t HNav).
  destruct HNav as (HSt & _).
  pose proof (st_s _ _ _ _ _ HSt) as Hs.
  destruct (arcs_missing n s l r t Hs (st_l _ _ _ _ _ HSt)
              (st_r _ _ _ _ _ HSt) Ht) as [-> ->].
  destruct (Z.eqb_spec (Z.of_nat s) t); [lia|reflexivity].
Qed.

Lemma rotateToward_settles (fwd : bool) n s l r w t fuel :
  2 <= n -> Nav n s l r w -> t < n -> s <> t -> n - 1 <= fuel ->
  exists o w1 w' l' r',
    rotateToward 0 fwd (Z.of_nat t) w = Ok (o, w1)
    /\ match o with
       | Rotated _ None => Ok (1, w1)
       | Rotated _ (Some i) => do (k, w2) <- runInterval fuel i w1; Ok (S k, w2)
       | _ => Ok (0, w1)
       end = Ok (distTo fwd n s t, w')
    /\ Nav n t l' r' w' /\ r' = pred_mod n l'.
Proof.
  intros Hn HNav Ht Hne Hfuel.
  pose proof HNav as (HSt & _). pose proof (st_s _ _ _ _ _ HSt) as Hs.
  destruct (rotate_Nav fwd n s l r w Hn HNav) as (w1 & Hrot & HNav1 & Ht1).
  set (l1 := stepLeft fwd n l r) in *. set (r1 := stepRight fwd n l r) in *.
  assert (HE1 : r1 = pred_mod n l1)
    by apply stepRight_adjacent, (st_l _ _ _ _ _ HSt).
  pose proof HNav1 as (HSt1 & _).
  unfold rotateToward. rewrite Hrot. cbn [bind].
  rewrite (st_nts _ _ _ _ _ HSt1).
  destruct (getNode_the n w1 (stepSel fwd n s) (st_ring _ _ _ _ _ HSt1)
              (st_s _ _ _ _ _ HSt1)) as (G & I & _).
  rewrite G. cbn [bind]. rewrite I, Zeqb_of_nat.
  rewrite (distTo_step fwd n s t Hs Ht Hne).
  pose proof (distTo_bound fwd n s t Hs Ht) as Hb.
  rewrite (distTo_step fwd n s t Hs Ht Hne) in Hb.
  destruct (Nat.eqb_spec (stepSel fwd n s) t) as [E|E]; cbn [negb].
  - exists (Rotated fwd None), w1, w1, l1, r1.
    split; [reflexivity|]. split; [|split; [rewrite <- E; exact HNav1|exact HE1]].
    rewrite E. replace (distTo fwd n t t) with 0; [reflexivity|].
    unfold distTo. destruct fwd; bool_cases.
  - unfold setInterval.
    set (w2 := set_timers (timers w1 ++ [Some (mkTimer 0 fwd (Z.of_nat t))]) w1).
    assert (HNav2 : Nav n (stepSel fwd n s) l1 r1 w2)
      by apply Nav_timers, HNav1.
    assert (Htm : timers w2 !! length (timers w1)
                  = Some (Some (mkTimer 0 fwd (Z.of_nat t)))).
    { unfold w2. wsimpl. apply lookup_snoc. reflexivity. }
    destruct (runInterval_reaches fwd n t (length (timers w1)) Hn Ht
                _ _ l1 r1 w2 fuel HNav2 E eq_refl ltac:(lia) Htm)
      as (w' & l' & r' & Hrun & HNav' & HE' & Ht').
    exists (Rotated fwd (Some (length (timers w1)))), w2, w', l', r'.
    split; [reflexivity|]. rewrite Hrun. cbn [bind]. auto.
Qed.

(** A click on an item of the ring selects it after as many rotations as
    there are steps to it along the arc that holds it. *)
Lemma clickAndSettle_present n s l r w t fuel :
  2 <= n -> Nav n s l r w -> EdgesOK n s l r -> t < n -> n - 1 <= fuel ->
  exists k w',
    clickAndSettle fuel 0 (Some (Z.of_nat t)) w = Ok (k, w')
    /\ k <= n - 1 /\ nodeToSelect w' = Some t
    /\ idOf (nodeToSelect w') w' = Some (Z.of_nat t).
Proof.
  intros Hn HNav HE Ht Hfuel.
  pose proof HNav as (HSt & Hclk & mn & Hmenus & Hop & Hen & Hrev).
  pose proof (st_s _ _ _ _ _ HSt) as Hs.
  pose proof (st_ring _ _ _ _ _ HSt) as Hring.
  assert (Hid : forall w', RingOK n (heap w') -> nodeToSelect w' = Some t ->
                  idOf (nodeToSelect w') w' = Some (Z.of_nat t)).
  { intros w' Hr' ->. unfold idOf. cbn [mbind option_bind].
    destruct (RingOK_lookup n _ t Hr' Ht) as (nd & E1 & E2 & _).
    rewrite E1. cbn [fmap option_fmap option_map]. rewrite E2. reflexivity. }
  unfold clickAndSettle. rewrite (clickItem_Nav n s l r w _ HNav).
  rewrite Zeqb_of_nat.
  destruct (Nat.eqb_spec s t) as [->|Hne].
  - rewrite (selectItem_quiet n t w mn Hring Ht (st_nts _ _ _ _ _ HSt) Hmenus).
    rewrite Hop, Hen. cbn [negb orb bind].
    eexists _, _. split; [reflexivity|]. split; [lia|].
    split; [apply (st_nts _ _ _ _ _ HSt)|].
    apply Hid; [exact Hring|apply (st_nts _ _ _ _ _ HSt)].
  - pose proof (arcs_cover n s l r (Z.of_nat t) Hn Hs (st_l _ _ _ _ _ HSt)
                  (st_r _ _ _ _ _ HSt) HE ltac:(lia)) as Hcov.
    assert (Hdir : exists fwd : bool,
               (if fwdArc n s r (Z.of_nat t) then rotateToward 0 true (Z.of_nat t) w
                else if bwdArc n s l (Z.of_nat t)
                     then rotateToward 0 false (Z.of_nat t) w
                     else Ok (Ignored, w))
               = rotateToward 0 fwd (Z.of_nat t) w).
    { destruct (fwdArc n s r (Z.of_nat t)); [exists true; reflexivity|].
      destruct (bwdArc n s l (Z.of_nat t)); [exists false; reflexivity|].
      discriminate. }
    destruct Hdir as (fwd & ->).
    destruct (rotateToward_settles fwd n s l r w t fuel Hn HNav Ht Hne Hfuel)
      as (o & w1 & w' & l' & r' & Hrot & Hrest & HNav' & _).
    rewrite Hrot. cbn [bind].
    destruct HNav' as (HSt' & _).
    exists (distTo fwd n s t), w'.
    split; [|split; [apply distTo_bound; assumption|
                     split; [apply (st_nts _ _ _ _ _ HSt')|
                             apply Hid; [apply (st_ring _ _ _ _ _ HSt')
                                        |apply (st_nts _ _ _ _ _ HSt')]]]].
    destruct o as [| |f [i|]]; exact Hrest.
Qed.

(** ** The empty ring *)

Lemma exec_Empty c w w' : Empty w -> exec 0 c w = Ok w' -> Empty w'.
Proof.
  intros (Hc & Hf & Hs & mn & Hm) Hrun.
  destruct c; cbn [exec] in Hrun.
  - unfold open, getMenu in Hrun. rewrite Hm in Hrun.
    cbn [lookup list_lookup bind] in Hrun.
    destruct (opened mn).
    + injection Hrun as <-. repeat split; eauto.
    + rewrite Hf in Hrun. unfold walkFuel in Hrun.
      cbn [forEachNode_loop getNode bind] in Hrun.
      destruct (Z.eqb (openBehavior mn) OPEN_GROW); [discriminate|].
      destruct (Z.eqb (openBehavior mn) OPEN_TRANSPARENCY); [discriminate|].
      cbn [bind] in Hrun. injection Hrun as <-.
      unfold updMenu. wsimpl. rewrite Hm. repeat split; eauto.
  - unfold close, getMenu in Hrun. rewrite Hm in Hrun.
    cbn [lookup list_lookup bind] in Hrun.
    destruct (opened mn); cbn [negb] in Hrun.
    + rewrite Hf in Hrun. unfold walkFuel in Hrun.
      cbn [forEachNode_loop getNode bind] in Hrun. discriminate.
    + injection Hrun as <-. repeat split; eauto.
  - rewrite (moveToNext_blocked w mn Hm) in Hrun by (right; lia).
    injection Hrun as <-. repeat split; eauto.
  - rewrite (moveToPrev_blocked w mn Hm) in Hrun by (right; lia).
    injection Hrun as <-. repeat split; eauto.
  - unfold selectItem, getMenu in Hrun. rewrite Hm in Hrun.
    cbn [lookup list_lookup bind] in Hrun.
    destruct (negb (opened mn) || negb (enabled mn)).
    + injection Hrun as <-. repeat split; eauto.
    + rewrite Hs in Hrun. cbn [getNode bind] in Hrun. discriminate.
Qed.

Lemma run_Empty cs :
  forall w w', Empty w -> run 0 cs w = Ok w' -> Empty w'.
Proof.
  induction cs as [|c cs IH]; intros w w' HE Hrun; cbn [run] in Hrun.
  - injection Hrun as <-. exact HE.
  - destruct (exec 0 c w) as [w1| |] eqn:E; cbn [bind] in Hrun;
      try discriminate.
    apply (IH w1 w'); [|exact Hrun]. apply (exec_Empty c w w1 HE E).
Qed.

Lemma session_Empty P cs w : session P 0 cs = Ok w -> Empty w.
Proof.
  unfold session, freshMenu. cbn [addItems bind]. apply run_Empty.
  repeat split. eexists. reflexivity.
Qed.

(** ** Several menus on one page *)

Lemma repositionNodes_loop_first gap median isEven :
  forall fuel current pos w pos' w',
    repositionNodes_loop fuel gap median isEven current pos w = Ok (pos', w') ->
    firstNode w' = firstNode w.
Proof.
  induction fuel as [|f IH]; intros current pos w pos' w' H; [discriminate|].
  cbn [repositionNodes_loop] in H.
  destruct (getNode current w) as [cur| |]; cbn [bind] in H; try discriminate.
  match type of H with
  | (let '(p, w0) := ?X in _) = _ => destruct X as [p1 w1] eqn:E1
  end.
  assert (F1 : firstNode w1 = firstNode w).
  { destruct (Z.eqb (id cur) median); injection E1 as _ <-;
      destruct current;
      match goal with |- context [if ?b then _ else _] => destruct b end;
      reflexivity. }
  destruct (getNode (next cur) w1) as [nxt| |]; cbn [bind] in H;
    try discriminate.
  destruct (getNode (firstNode w1) w1) as [fst| |]; cbn [bind] in H;
    try discriminate.
  destruct (negb (Z.eqb (id nxt) (id fst))).
  - rewrite (IH _ _ _ _ _ H). exact F1.
  - injection H as _ <-. exact F1.
Qed.

Lemma repositionNodes_first m w pos' w' :
  repositionNodes m w = Ok (pos', w') -> firstNode w' = firstNode w.
Proof.
  unfold repositionNodes. intros H.
  destruct (getMenu m w) as [mn| |]; cbn [bind] in H; try discriminate.
  match type of H with
  | bind ?X _ = _ => destruct X as [[p1 w1]| |] eqn:E1
  end; cbn [bind] in H; try discriminate.
  injection H as _ <-. wsimpl.
  rewrite (repositionNodes_loop_first _ _ _ _ _ _ _ _ _ E1). reflexivity.
Qed.

(** With the counter at zero, [add] starts a new ring at the new node,
    whichever menu it is called on. *)
Lemma add_restarts m act w w' :
  nextNodeID w = 0%Z -> add m act w = Ok w' ->
  firstNode w' = Some (length (heap w)).
Proof.
  intros Hc H. unfold add in H.
  destruct (getMenu m w) as [mn| |]; cbn [bind] in H; try discriminate.
  wsimpl. rewrite Hc in H. cbn [Z.eqb] in H. wsimpl.
  repeat match type of H with
         | bind (getNode ?a ?w0) _ = _ =>
             destruct (getNode a w0) as [?nd| |]; cbn [bind] in H;
             try discriminate
         end.
  match type of H with
  | bind ?X _ = _ => destruct X as [[p1 w1]| |] eqn:E1
  end; cbn [bind] in H; try discriminate.
  injection H as <-.
  rewrite (repositionNodes_first _ _ _ _ E1). wsimpl.
  repeat match goal with
         | |- context [match ?o with Some _ => _ | None => _ end] =>
             destruct o
         end; reflexivity.
Qed.

Lemma session_det P n cs w :
  1 <= n -> session P n cs = Ok w -> Good n w.
Proof.
  intros Hn H. destruct (session_Good P n cs Hn) as (w' & E & HG).
  rewrite H in E. injection E as <-. exact HG.
Qed.

Lemma isOpen_menu w mn : menus w = [mn] -> isOpen 0 w = opened mn.
Proof. intros H. unfold isOpen. rewrite H. reflexivity. Qed.

Lemma Good_Nav n w :
  2 <= n -> Good n w -> isOpen 0 w = true ->
  exists s l r, Nav n s l r w /\ EdgesOK n s l r.
Proof.
  intros Hn HG Hop.
  destruct (Good_St n w Hn HG) as (s & l & r & HSt & HE).
  destruct HG as [_ _ _ _ Hclk _ (mn & Hm & Hrev & Hen)].
  rewrite (isOpen_menu w mn Hm) in Hop.
  exists s, l, r. split; [|exact HE].
  split; [exact HSt|]. split; [exact Hclk|]. exists mn. auto.
Qed.

Lemma prevOf_ring n w l :
  RingOK n (heap w) -> l < n -> prevOf (Some l) w = Some (pred_mod n l).
Proof.
  intros Hring Hl. unfold prevOf. cbn [mbind option_bind].
  destruct (RingOK_lookup n _ l Hring Hl) as (nd & -> & _ & _ & V).
  exact V.
Qed.

Lemma St_seam n s l w :
  St n s l (pred_mod n l) w -> seamAdjacent w.
Proof.
  intros HSt. unfold seamAdjacent.
  rewrite (st_right _ _ _ _ _ HSt), (st_left _ _ _ _ _ HSt).
  rewrite (prevOf_ring n w l (st_ring _ _ _ _ _ HSt) (st_l _ _ _ _ _ HSt)).
  split; [eexists|]; reflexivity.
Qed.

(** * The properties of the specification *)

(** ** Layout *)




(** C2: after the layout of [n >= 2] nodes, [rightEdge] is the node at
    traversal index [n / 2] and [leftEdge] the node at index [n / 2 + 1],
    or the second item (index 1) when there are two items. *)
Theorem C2_edges_after_layout (P : option Properties) (n : nat) :
  2 <= n ->
  exists w,
    freshMenu P n = Ok w
    /\ is_Some (rightEdge w) /\ rightEdge w = nodeAt (n / 2) w
    /\ is_Some (leftEdge w)
    /\ leftEdge w = nodeAt (if Nat.eqb n 2 then 1 else n / 2 + 1) w.
Proof.
  intros Hn.
  destruct (freshMenu_built P n ltac:(lia)) as (w & Hw & HB).
  pose proof (b_ring _ _ _ HB) as Hring.
  pose proof (b_rest _ _ _ HB) as Hrest. unfold restOf in Hrest.
  injection Hrest as _ _ _ Hfirst _ _ _ _ _.
  pose proof (leftIndex_lt n Hn) as Hl.
  pose proof (Nat.div_mod_eq n 2).
  pose proof (Nat.mod_upper_bound n 2 ltac:(lia)).
  exists w. split; [exact Hw|].
  rewrite (b_right _ _ _ HB), (b_left _ _ _ HB).
  destruct (Nat.ltb_spec (leftIndex n) n); [|lia].
  fold (leftIndex n).
  rewrite !(nodeAt_ring n) by (try assumption; lia).
  repeat split; eauto.
Qed.

Lemma C2_edges_after_layout_witness :
  exists w,
    freshMenu None 2 = Ok w
    /\ is_Some (rightEdge w) /\ rightEdge w = nodeAt (2 / 2) w
    /\ is_Some (leftEdge w)
    /\ leftEdge w = nodeAt (if Nat.eqb 2 2 then 1 else 2 / 2 + 1) w.
Proof. apply (C2_edges_after_layout None 2). lia. Defined.

(** ** Rotation *)

Lemma Built_St P n w :
  2 <= n -> Built P n w -> St n 0 (leftIndex n) (n / 2) w.
Proof.
  intros Hn [Hring Hsel Hpos Hleft Hright Hmenus Hrest].
  unfold restOf in Hrest. injection Hrest as R1 R2 R3 R4 R5 R6 R7 R8 R9.
  pose proof (leftIndex_lt n Hn) as Hl.
  pose proof (Nat.div_mod_eq n 2).
  pose proof (Nat.mod_upper_bound n 2 ltac:(lia)).
  destruct (Nat.ltb_spec (leftIndex n) n); [|lia].
  split; try assumption; lia.
Qed.

(** Opening the freshly built menu of [n >= 2] items. *)
Lemma open_Built P n w :
  2 <= n -> Built P n w ->
  exists w', open 0 w = Ok w' /\ Nav n 0 (leftIndex n) (n / 2) w'.
Proof.
  intros Hn HB. pose proof (Built_St P n w Hn HB) as HSt.
  destruct HB as [Hring Hsel Hpos Hleft Hright Hmenus Hrest].
  unfold restOf in Hrest. injection Hrest as R1 R2 R3 R4 R5 R6 R7 R8 R9.
  destruct (open_quiet n w _ ltac:(lia) Hring R4 Hmenus) as (ms & ->).
  cbn [builtMenu opened]. eexists. split; [reflexivity|].
  destruct HSt as [S1 S2 S3 S4 S5 S6 S7 S8 S9 S10 S11].
  split; [split; assumption|]. split; [exact R2|].
  eexists. split; [reflexivity|]. cbn.
  repeat split. apply init_revolvingMenu_true.
Qed.

Lemma seamView_St n s l r w :
  St n s l r w ->
  seamView (Ok w)
  = Some (Some (Z.of_nat s), Some (Z.of_nat l), Some (Z.of_nat r)).
Proof.
  intros [Hring _ Hs Hl Hr _ _ _ Hnts Hleft Hright].
  assert (Hid : forall k, k < n -> idOf (Some k) w = Some (Z.of_nat k)).
  { intros k Hk. unfold idOf. cbn [mbind option_bind].
    destruct (RingOK_lookup n _ k Hring Hk) as (nd & E1 & E2 & _).
    rewrite E1. cbn [fmap option_fmap option_map]. rewrite E2. reflexivity. }
  unfold seamView. rewrite Hnts, Hleft, Hright, !Hid by assumption.
  reflexivity.
Qed.

(** C3: five items added to a fresh menu (ids 0 to 4) give selection
    id 0, right edge id 2 and left edge id 3; on the opened menu three
    [moveToNext] calls select ids 1, 2 and 3, each edge moving on by one
    node per call.  The triples are (selected, leftEdge, rightEdge). *)
Theorem C3_five_items_three_rotations (P : option Properties) :
  seamView (freshMenu P 5) = Some (Some 0, Some 3, Some 2)%Z
  /\ seamView (session P 5 [COpen; CNext]) = Some (Some 1, Some 4, Some 3)%Z
  /\ seamView (session P 5 [COpen; CNext; CNext])
     = Some (Some 2, Some 0, Some 4)%Z
  /\ seamView (session P 5 [COpen; CNext; CNext; CNext])
     = Some (Some 3, Some 1, Some 0)%Z.
Proof.
  destruct (freshMenu_built P 5 ltac:(lia)) as (w0 & Hw0 & HB).
  destruct (open_Built P 5 w0 ltac:(lia) HB) as (w1 & Hopen & HNav1).
  destruct (rotate_Nav true 5 _ _ _ w1 ltac:(lia) HNav1)
    as (w2 & Hrot2 & HNav2 & _).
  destruct (rotate_Nav true 5 _ _ _ w2 ltac:(lia) HNav2)
    as (w3 & Hrot3 & HNav3 & _).
  destruct (rotate_Nav true 5 _ _ _ w3 ltac:(lia) HNav3)
    as (w4 & Hrot4 & HNav4 & _).
  unfold session. rewrite Hw0. cbn [run exec bind].
  rewrite Hopen. cbn [bind]. rewrite Hrot2. cbn [bind].
  rewrite Hrot3. cbn [bind]. rewrite Hrot4. cbn [bind].
  rewrite (seamView_St 5 _ _ _ w0 (Built_St P 5 w0 ltac:(lia) HB)).
  destruct HNav2 as (HSt2 & _), HNav3 as (HSt3 & _), HNav4 as (HSt4 & _).
  rewrite (seamView_St 5 _ _ _ w2 HSt2), (seamView_St 5 _ _ _ w3 HSt3),
    (seamView_St 5 _ _ _ w4 HSt4).
  repeat split.
Qed.

(** C4 (as amended): on a ring of at least two nodes the edges are
    adjacent, [rightEdge == leftEdge.prev], after every completed
    [moveToNext] or [moveToPrev], and after the layout whenever the ring
    has at least three nodes. *)
Theorem C4_seam_adjacent (P : option Properties) (n : nat) (cs : list Cmd)
    (w : World) (c : Cmd) :
  2 <= n -> session P n cs = Ok w -> c = CNext \/ c = CPrev ->
  (3 <= n -> seamAdjacent w)
  /\ (isOpen 0 w = true ->
      exists w', exec 0 c w = Ok w' /\ seamAdjacent w').
Proof.
  intros Hn Hs Hc. pose proof (session_det P n cs w ltac:(lia) Hs) as HG.
  split.
  - intros H3. destruct (Good_St n w Hn HG) as (s & l & r & HSt & HE).
    destruct HE as [-> | [-> _]]; [|lia].
    apply (St_seam n s l w HSt).
  - intros Hop.
    destruct (Good_Nav n w Hn HG Hop) as (s & l & r & HNav & _).
    pose proof HNav as (HSt & _).
    assert (Hrot : forall fwd : bool,
               exists w', (if fwd then moveToNext 0 w else moveToPrev 0 w) = Ok w'
                          /\ seamAdjacent w').
    { intros fwd.
      destruct (rotate_Nav fwd n s l r w Hn HNav) as (w' & Hrun & (HSt' & _) & _).
      rewrite (stepRight_adjacent fwd n l r (st_l _ _ _ _ _ HSt)) in HSt'.
      exists w'. split; [exact Hrun|]. apply (St_seam n _ _ w' HSt'). }
    destruct Hc as [-> | ->]; cbn [exec].
    + apply (Hrot true).
    + apply (Hrot false).
Qed.

Lemma C4_seam_adjacent_witness :
  seamAdjacent (resultWorld (session None 3 [COpen]))
  /\ exists w', exec 0 CNext (resultWorld (session None 3 [COpen])) = Ok w'
                /\ seamAdjacent w'.
Proof.
  destruct (C4_seam_adjacent None 3 [COpen]
              (resultWorld (session None 3 [COpen])) CNext)
    as [H1 H2].
  - lia.
  - vm_compute. reflexivity.
  - left. reflexivity.
  - split; [apply H1; lia|apply H2; vm_compute; reflexivity].
Defined.

(** C4 as stated fails: straight after the layout of two items both edges
    are the second item, whose [prev] is the first. *)
Lemma C4_counterexample :
  exists w,
    freshMenu None 2 = Ok w
    /\ rightEdge w = Some 1 /\ leftEdge w = Some 1
    /\ prevOf (leftEdge w) w = Some 0
    /\ ~ seamAdjacent w.
Proof.
  exists (resultWorld (freshMenu None 2)).
  split; [vm_compute; reflexivity|].
  split; [vm_compute; reflexivity|].
  split; [vm_compute; reflexivity|].
  split; [vm_compute; reflexivity|].
  intros [_ H]. vm_compute in H. discriminate.
Qed.

(** C5 (as amended): on a non-empty open ring at rest whose edges are
    adjacent (or that has a single item), [moveToNext] followed by
    [moveToPrev] brings the selection, [leftEdge] and [rightEdge] back to
    the nodes they were on. *)
Theorem C5_next_then_prev (P : option Properties) (n : nat) (cs : list Cmd)
    (w : World) :
  1 <= n -> session P n cs = Ok w -> isOpen 0 w = true ->
  n = 1 \/ rightEdge w = prevOf (leftEdge w) w ->
  exists w1 w2,
    moveToNext 0 w = Ok w1 /\ moveToPrev 0 w1 = Ok w2
    /\ nodeToSelect w2 = nodeToSelect w
    /\ selectedNodes w2 = selectedNodes w
    /\ leftEdge w2 = leftEdge w
    /\ rightEdge w2 = rightEdge w.
Proof.
  intros Hn Hs Hop Hadj. pose proof (session_det P n cs w Hn Hs) as HG.
  destruct (Nat.eq_dec n 1) as [->|Hn1].
  - destruct HG as [_ _ Hcount _ _ _ (mn & Hm & _)].
    exists (set_keyPressed false w),
      (set_keyPressed false (set_keyPressed false w)).
    split; [apply (moveToNext_blocked w mn Hm); right; lia|].
    split; [apply (moveToPrev_blocked (set_keyPressed false w) mn Hm);
            right; cbn; lia|].
    repeat split.
  - destruct Hadj as [?|Hadj]; [lia|].
    destruct (Good_Nav n w ltac:(lia) HG Hop) as (s & l & r & HNav & _).
    pose proof HNav as (HSt & _).
    destruct (rotate_Nav true n s l r w ltac:(lia) HNav)
      as (w1 & Hrun1 & HNav1 & _).
    destruct (rotate_Nav false n _ _ _ w1 ltac:(lia) HNav1)
      as (w2 & Hrun2 & (HSt2 & _) & _).
    cbn [stepSel stepLeft stepRight] in HSt2.
    rewrite (pred_succ_mod n s (st_s _ _ _ _ _ HSt)) in HSt2.
    exists w1, w2. split; [exact Hrun1|]. split; [exact Hrun2|].
    rewrite (st_nts _ _ _ _ _ HSt2), (st_nts _ _ _ _ _ HSt).
    rewrite (st_left _ _ _ _ _ HSt2), (st_right _ _ _ _ _ HSt2).
    rewrite (selectedNodes_SelIs n s w2 (st_ring _ _ _ _ _ HSt2)
               (st_sel _ _ _ _ _ HSt2) (st_s _ _ _ _ _ HSt2)).
    rewrite (selectedNodes_SelIs n s w (st_ring _ _ _ _ _ HSt)
               (st_sel _ _ _ _ _ HSt) (st_s _ _ _ _ _ HSt)).
    rewrite Hadj, (st_left _ _ _ _ _ HSt).
    rewrite (prevOf_ring n w l (st_ring _ _ _ _ _ HSt) (st_l _ _ _ _ _ HSt)).
    repeat split.
Qed.

Lemma C5_next_then_prev_witness :
  exists w1 w2,
    moveToNext 0 (resultWorld (session None 4 [COpen])) = Ok w1
    /\ moveToPrev 0 w1 = Ok w2
    /\ nodeToSelect w2 = nodeToSelect (resultWorld (session None 4 [COpen]))
    /\ selectedNodes w2 = selectedNodes (resultWorld (session None 4 [COpen]))
    /\ leftEdge w2 = leftEdge (resultWorld (session None 4 [COpen]))
    /\ rightEdge w2 = rightEdge (resultWorld (session None 4 [COpen])).
Proof.
  apply (C5_next_then_prev None 4 [COpen]).
  - lia.
  - vm_compute. reflexivity.
  - vm_compute. reflexivity.
  - right. vm_compute. reflexivity.
Defined.

(** C5 as stated fails: on the two-item ring straight after layout the
    pair of calls leaves [rightEdge] on the first item, not the second. *)
Lemma C5_counterexample :
  exists w w1 w2,
    session None 2 [COpen] = Ok w /\ moveToNext 0 w = Ok w1
    /\ moveToPrev 0 w1 = Ok w2
    /\ rightEdge w = Some 1 /\ rightEdge w2 = Some 0
    /\ rightEdge w2 <> rightEdge w.
Proof.
  exists (resultWorld (session None 2 [COpen])),
    (resultWorld (session None 2 [COpen; CNext])),
    (resultWorld (session None 2 [COpen; CNext; CPrev])).
  split; [vm_compute; reflexivity|].
  split; [vm_compute; reflexivity|].
  split; [vm_compute; reflexivity|].
  split; [vm_compute; reflexivity|].
  split; [vm_compute; reflexivity|].
  vm_compute. discriminate.
Qed.

(** C6 (as amended): after any sequence of [open], [close], [moveToNext],
    [moveToPrev] and [selectItem] calls on a non-empty ring exactly one
    node has [selected = true], whether the menu is open or closed, and
    it is the node [nodeToSelect] refers to. *)
Theorem C6_one_selected (P : option Properties) (n : nat) (cs : list Cmd) :
  1 <= n ->
  exists w s,
    session P n cs = Ok w /\ selectedNodes w = [s]
    /\ nodeToSelect w = Some s.
Proof.
  intros Hn. destruct (session_Good P n cs Hn) as (w & Hw & HG).
  destruct (Good_selected n w Hn HG) as (s & H1 & H2 & _).
  exists w, s. auto.
Qed.

Lemma C6_one_selected_witness :
  exists w s,
    session None 3 [COpen; CNext; CSelect; CPrev; CClose] = Ok w
    /\ selectedNodes w = [s] /\ nodeToSelect w = Some s.
Proof. apply (C6_one_selected None 3). lia. Defined.

(** C6 as stated fails: after [open] then [close] on a one-item ring the
    menu is closed and the item still has [selected = true]. *)
Lemma C6_counterexample :
  exists w,
    session None 1 [COpen; CClose] = Ok w
    /\ isOpen 0 w = false /\ selectedNodes w = [0]
    /\ selectedNodes w <> [].
Proof.
  exists (resultWorld (session None 1 [COpen; CClose])).
  split; [vm_compute; reflexivity|].
  split; [vm_compute; reflexivity|].
  split; [vm_compute; reflexivity|].
  vm_compute. discriminate.
Qed.

(** ** The revolving flag *)

(** C7 (the code departs from it): a menu constructed with
    [revolvingMenu: false] still gets [revolvingMenu = true] from [init],
    so with three items the third [moveToNext] moves the selection from
    the last item round to the first instead of being refused; had the
    flag been stored, the guard of [moveToNext] would refuse the call. *)
Theorem C7_revolving_false_not_honoured :
  init_revolvingMenu nonRevolving = true
  /\ seamView (session nonRevolving 3 [COpen; CNext; CNext])
     = Some (Some 2, Some 1, Some 0)%Z
  /\ seamView (session nonRevolving 3 [COpen; CNext; CNext; CNext])
     = Some (Some 0, Some 2, Some 1)%Z
  /\ (let w := updMenu 0 (set_revolvingMenu false)
                 (resultWorld (session nonRevolving 3 [COpen; CNext; CNext])) in
      moveToNext 0 w = Ok (set_keyPressed false w)).
Proof.
  split; [reflexivity|].
  split; [vm_compute; reflexivity|].
  split; [vm_compute; reflexivity|].
  vm_compute. reflexivity.
Qed.

(** ** Hit-target resolution *)

Lemma clickAndSettle_single w t fuel :
  Good 1 w -> isOpen 0 w = true -> (0 <= t < 1)%Z ->
  exists k w',
    clickAndSettle fuel 0 (Some t) w = Ok (k, w')
    /\ k <= 0 /\ idOf (nodeToSelect w') w' = Some t.
Proof.
  intros [Hring _ _ _ Hclk (s & Hs & Hnts & _) (mn & Hm & _ & Hen)] Hop Ht.
  assert (s = 0) as -> by lia. assert (t = 0%Z) as -> by lia.
  rewrite (isOpen_menu w mn Hm) in Hop.
  unfold clickAndSettle, clickItem, getMenu. rewrite Hm.
  cbn [lookup list_lookup bind]. rewrite Hop, Hclk. cbn [negb orb].
  rewrite Hnts. ring_node 1 0. rewrite I. cbn [Z.of_nat Z.eqb].
  rewrite (selectItem_quiet 1 0 w mn Hring Hs Hnts Hm), Hop, (Hen Hop).
  cbn [negb orb bind]. eexists _, _. split; [reflexivity|]. split; [lia|].
  unfold idOf. wsimpl. rewrite Hnts. cbn [mbind option_bind].
  destruct (RingOK_lookup 1 _ 0 Hring Hs) as (nd & E1 & E2 & _).
  rewrite E1. cbn [fmap option_fmap option_map]. rewrite E2. reflexivity.
Qed.

(** C8 (as amended): on an open ring, a click on a tag that no node of
    the ring carries is ignored: no rotation, no interval, no error, the
    page unchanged.  A click on a tag of the ring ends with that item
    selected after at most [n - 1] single-step rotations. *)
Theorem C8_click_resolution (P : option Properties) (n : nat) (cs : list Cmd)
    (w : World) (t : Z) (fuel : nat) :
  1 <= n -> session P n cs = Ok w -> isOpen 0 w = true -> n - 1 <= fuel ->
  2 <= n \/ (0 <= t < Z.of_nat n)%Z ->
  if Z.leb 0 t && Z.ltb t (Z.of_nat n)
  then exists k w',
         clickAndSettle fuel 0 (Some t) w = Ok (k, w')
         /\ k <= n - 1 /\ idOf (nodeToSelect w') w' = Some t
  else clickItem 0 (Some t) w = Ok (Ignored, w)
       /\ clickAndSettle fuel 0 (Some t) w = Ok (0, w).
Proof.
  intros Hn Hs Hop Hfuel Hcase.
  pose proof (session_det P n cs w Hn Hs) as HG.
  destruct (Z.leb_spec 0 t), (Z.ltb_spec t (Z.of_nat n)); cbn [andb].
  - destruct (Nat.eq_dec n 1) as [->|Hn1].
    + apply clickAndSettle_single; try assumption. lia.
    + destruct (Good_Nav n w ltac:(lia) HG Hop) as (s & l & r & HNav & HE).
      destruct (clickAndSettle_present n s l r w (Z.to_nat t) fuel
                  ltac:(lia) HNav HE ltac:(lia) Hfuel)
        as (k & w' & Hrun & Hk & _ & Hid).
      rewrite Z2Nat.id in Hrun, Hid by lia.
      exists k, w'. auto.
  - destruct Hcase as [Hn2|?]; [|lia].
    destruct (Good_Nav n w Hn2 HG Hop) as (s & l & r & HNav & _).
    pose proof (clickItem_missing n s l r w t HNav ltac:(lia)) as E.
    split; [exact E|]. unfold clickAndSettle. rewrite E. reflexivity.
  - destruct Hcase as [Hn2|?]; [|lia].
    destruct (Good_Nav n w Hn2 HG Hop) as (s & l & r & HNav & _).
    pose proof (clickItem_missing n s l r w t HNav ltac:(lia)) as E.
    split; [exact E|]. unfold clickAndSettle. rewrite E. reflexivity.
  - lia.
Qed.

Lemma C8_click_resolution_witness :
  (exists k w',
      clickAndSettle 4 0 (Some 3%Z)
        (resultWorld (session None 5 [COpen; CNext])) = Ok (k, w')
      /\ k <= 5 - 1 /\ idOf (nodeToSelect w') w' = Some 3%Z)
  /\ clickItem 0 (Some 7%Z) (resultWorld (session None 5 [COpen; CNext]))
     = Ok (Ignored, resultWorld (session None 5 [COpen; CNext])).
Proof.
  split.
  - apply (C8_click_resolution None 5 [COpen; CNext] _ 3%Z 4).
    + lia.
    + vm_compute. reflexivity.
    + vm_compute. reflexivity.
    + lia.
    + left. lia.
  - apply (C8_click_resolution None 5 [COpen; CNext] _ 7%Z 4).
    + lia.
    + vm_compute. reflexivity.
    + vm_compute. reflexivity.
    + lia.
    + left. lia.
Defined.

(** C8 as stated fails: a click on tag 7 in an open three-item ring does
    not fail with any condition; the call returns normally, having done
    nothing. *)
Lemma C8_counterexample :
  exists w,
    session None 3 [COpen] = Ok w
    /\ clickItem 0 (Some 7%Z) w = Ok (Ignored, w)
    /\ ~ isFailure (clickItem 0 (Some 7%Z) w).
Proof.
  exists (resultWorld (session None 3 [COpen])).
  split; [vm_compute; reflexivity|].
  split; [vm_compute; reflexivity|].
  vm_compute. intros H. exact H.
Qed.

(** ** Commands on an empty or single-item ring *)

(** C9 (as amended): on a ring with no item or one item, [moveToNext] and
    [moveToPrev] change nothing but [keyPressed], which they clear, and
    raise no error; [selectItem] does the same on a closed menu, but on an
    open single-item ring it requests the selection pulse. *)
Theorem C9_commands_on_small_ring (P : option Properties) (n : nat)
    (cs : list Cmd) (w : World) :
  n <= 1 -> session P n cs = Ok w ->
  moveToNext 0 w = Ok (set_keyPressed false w)
  /\ moveToPrev 0 w = Ok (set_keyPressed false w)
  /\ match isOpen 0 w, n with
     | false, _ => selectItem 0 w = Ok (set_keyPressed false w)
     | true, 1 => exists act, selectItem 0 w = Ok (logMotion (Pulse 0 act) w)
     | true, _ => True
     end.
Proof.
  intros Hn Hs.
  assert (Hm : exists mn, menus w = [mn] /\ (nextNodeID w <= 1)%Z
                 /\ (opened mn = true -> n = 1 ->
                     exists act, selectItem 0 w = Ok (logMotion (Pulse 0 act) w))).
  { destruct n as [|[|n]]; [| |lia].
    - destruct (session_Empty P cs w Hs) as (Hc & _ & _ & mn & Hm).
      exists mn. split; [exact Hm|]. split; [lia|]. intros _ H. lia.
    - destruct (session_det P 1 cs w ltac:(lia) Hs)
        as [Hring _ Hc _ _ (s & Hlt & Hnts & _) (mn & Hm & _ & Hen)].
      exists mn. split; [exact Hm|]. split; [lia|]. intros Hop _.
      assert (s = 0) as -> by lia.
      rewrite (selectItem_quiet 1 0 w mn Hring Hlt Hnts Hm), Hop, (Hen Hop).
      cbn [negb orb]. eexists. reflexivity. }
  destruct Hm as (mn & Hm & Hc & Hsel).
  split; [apply (moveToNext_blocked w mn Hm); right; exact Hc|].
  split; [apply (moveToPrev_blocked w mn Hm); right; exact Hc|].
  rewrite (isOpen_menu w mn Hm).
  destruct (opened mn) eqn:Hop.
  - destruct n as [|[|n]]; auto.
  - unfold selectItem, getMenu. rewrite Hm. cbn [lookup list_lookup bind].
    rewrite Hop. reflexivity.
Qed.

Lemma C9_commands_on_small_ring_witness :
  moveToNext 0 (resultWorld (session None 1 [COpen]))
  = Ok (set_keyPressed false (resultWorld (session None 1 [COpen])))
  /\ moveToPrev 0 (resultWorld (session None 1 [COpen]))
     = Ok (set_keyPressed false (resultWorld (session None 1 [COpen])))
  /\ exists act,
       selectItem 0 (resultWorld (session None 1 [COpen]))
       = Ok (logMotion (Pulse 0 act) (resultWorld (session None 1 [COpen]))).
Proof.
  apply (C9_commands_on_small_ring None 1 [COpen]).
  - lia.
  - vm_compute. reflexivity.
Defined.

(** C9 as stated fails: [selectItem] on an open single-item ring is not a
    no-op; it asks the animation engine for the selection pulse. *)
Lemma C9_counterexample :
  exists w,
    session None 1 [COpen] = Ok w
    /\ selectItem 0 w = Ok (logMotion (Pulse 0 None) w)
    /\ selectItem 0 w <> Ok (set_keyPressed false w).
Proof.
  exists (resultWorld (session None 1 [COpen])).
  split; [vm_compute; reflexivity|].
  split; [vm_compute; reflexivity|].
  vm_compute. discriminate.
Qed.

(** ** Module-level state *)

(** C10: the counter, the selection, the edges and the first node are
    module-level, so constructing a menu on any page resets the counter
    to 0 and clears the selection and both edges, and the next [add], on
    whichever menu, makes the new node [firstNode].  In the two-menu
    scenario a rotation requested on the first menu then walks the second
    menu's ring: the selection moves between the second menu's nodes and
    the first menu's own first node keeps its stale [selected] flag. *)
Theorem C10_shared_module_state (P : option Properties) (w0 : World)
    (m : handle) (act : option nat) (w' : World) :
  add m act (snd (newMenu P w0)) = Ok w' ->
  nextNodeID (snd (newMenu P w0)) = 0%Z
  /\ nodeToSelect (snd (newMenu P w0)) = None
  /\ leftEdge (snd (newMenu P w0)) = None
  /\ rightEdge (snd (newMenu P w0)) = None
  /\ heap (snd (newMenu P w0)) = heap w0
  /\ firstNode w' = Some (length (heap w0))
  /\ (do w <- twoMenus; Ok (firstNode w, nodeToSelect w, selectedNodes w))
     = Ok (Some 3, Some 3, [0; 3])
  /\ (do w <- twoMenus; do w <- open 0 w; do w <- moveToNext 0 w;
      Ok (firstNode w, nodeToSelect w, selectedNodes w))
     = Ok (Some 3, Some 4, [0; 4]).
Proof.
  intros Hadd.
  split; [reflexivity|]. split; [reflexivity|]. split; [reflexivity|].
  split; [reflexivity|]. split; [reflexivity|].
  split; [apply (add_restarts m act (snd (newMenu P w0)) w' eq_refl Hadd)|].
  split; vm_compute; reflexivity.
Qed.

Lemma C10_shared_module_state_witness :
  nextNodeID (snd (newMenu None (resultWorld (freshMenu None 3)))) = 0%Z
  /\ nodeToSelect (snd (newMenu None (resultWorld (freshMenu None 3)))) = None
  /\ leftEdge (snd (newMenu None (resultWorld (freshMenu None 3)))) = None
  /\ rightEdge (snd (newMenu None (resultWorld (freshMenu None 3)))) = None
  /\ heap (snd (newMenu None (resultWorld (freshMenu None 3))))
     = heap (resultWorld (freshMenu None 3))
  /\ firstNode
       (resultWorld
          (add 0 None (snd (newMenu None (resultWorld (freshMenu None 3))))))
     = Some (length (heap (resultWorld (freshMenu None 3))))
  /\ (do w <- twoMenus; Ok (firstNode w, nodeToSelect w, selectedNodes w))
     = Ok (Some 3, Some 3, [0; 3])
  /\ (do w <- twoMenus; do w <- open 0 w; do w <- moveToNext 0 w;
      Ok (firstNode w, nodeToSelect w, selectedNodes w))
     = Ok (Some 3, Some 4, [0; 4]).
Proof.
  apply (C10_shared_module_state None (resultWorld (freshMenu None 3)) 0 None).
  vm_compute. reflexivity.
Defined.

(** * Further properties of the code *)

(** ** The ring that [add] builds *)

Lemma succ_mod_mod n a : a < n -> succ_mod n a = (a + 1) mod n.
Proof.
  intros Ha. unfold succ_mod.
  destruct (Nat.eqb_spec (S a) n) as [E|E].
  - replace (a + 1) with n by lia. rewrite Nat.Div0.mod_same. reflexivity.
  - rewrite Nat.mod_small; lia.
Qed.

Lemma pred_mod_mod n a : a < n -> pred_mod n a = (a + (n - 1)) mod n.
Proof.
  intros Ha. unfold pred_mod.
  destruct (Nat.eqb_spec a 0) as [E|E].
  - subst a. rewrite Nat.mod_small; lia.
  - replace (a + (n - 1)) with (a - 1 + 1 * n) by lia.
    rewrite Nat.Div0.mod_add, Nat.mod_small; lia.
Qed.

Lemma nthNext_mod n w :
  RingOK n (heap w) ->
  forall k a, a < n -> nthNext k (Some a) w = Some ((a + k) mod n).
Proof.
  intros Hring. induction k as [|k IH]; intros a Ha.
  - cbn [nthNext]. rewrite Nat.add_0_r, Nat.mod_small by exact Ha. reflexivity.
  - destruct (RingOK_lookup n _ a Hring Ha) as (nd & E & _ & X & _).
    cbn [nthNext]. rewrite E, X, IH by (apply succ_mod_lt, Ha).
    rewrite succ_mod_mod by exact Ha.
    rewrite Nat.Div0.add_mod_idemp_l. f_equal. f_equal. lia.
Qed.

Lemma nthPrev_mod n w :
  RingOK n (heap w) ->
  forall k a, a < n -> nthPrev k (Some a) w = Some ((a + k * (n - 1)) mod n).
Proof.
  intros Hring. induction k as [|k IH]; intros a Ha.
  - cbn [nthPrev]. rewrite Nat.mul_0_l, Nat.add_0_r, Nat.mod_small by exact Ha.
    reflexivity.
  - destruct (RingOK_lookup n _ a Hring Ha) as (nd & E & _ & _ & V).
    cbn [nthPrev]. rewrite E, V, IH by (apply pred_mod_lt, Ha).
    rewrite pred_mod_mod by exact Ha.
    rewrite Nat.Div0.add_mod_idemp_l. f_equal. f_equal. lia.
Qed.

Lemma nextOf_ring n w a :
  RingOK n (heap w) -> a < n -> nextOf (Some a) w = Some (succ_mod n a).
Proof.
  intros Hring Ha.
  destruct (RingOK_lookup n _ a Hring Ha) as (nd & E & _ & X & _).
  unfold nextOf. cbn [mbind option_bind]. rewrite E. exact X.
Qed.

Lemma succ_pred_mod n k : k < n -> succ_mod n (pred_mod n k) = k.
Proof.
  intros Hk. unfold succ_mod, pred_mod.
  destruct (Nat.eqb_spec k 0).
  - destruct (Nat.eqb_spec (S (n - 1)) n); lia.
  - destruct (Nat.eqb_spec (S (k - 1)) n); lia.
Qed.

(** X1: in every session of a one-menu page with [n >= 1] items the nodes
    form exactly one cycle of length [n]: from any node, [n] steps along
    [next] (or along [prev]) come back to it and no shorter positive walk
    along [next] does, and [next] and [prev] are inverse to each other.
    [add] builds the ring so, and no later call writes a link. *)
Theorem ring_is_one_cycle (P : option Properties) (n : nat) (cs : list Cmd)
    (w : World) (a : addr) :
  1 <= n -> session P n cs = Ok w -> a < n ->
  length (heap w) = n
  /\ nthNext n (Some a) w = Some a
  /\ nthPrev n (Some a) w = Some a
  /\ (forall k, 0 < k < n -> nthNext k (Some a) w <> Some a)
  /\ prevOf (nextOf (Some a) w) w = Some a
  /\ nextOf (prevOf (Some a) w) w = Some a.
Proof.
  intros Hn Hs Ha.
  pose proof (session_det P n cs w Hn Hs) as HG.
  pose proof (g_ring _ _ HG) as Hring.
  split; [apply (RingOK_length _ _ Hring)|].
  split.
  { rewrite (nthNext_mod n w Hring) by exact Ha.
    replace (a + n) with (a + 1 * n) by lia.
    rewrite Nat.Div0.mod_add, Nat.mod_small by exact Ha. reflexivity. }
  split.
  { rewrite (nthPrev_mod n w Hring) by exact Ha.
    replace (a + n * (n - 1)) with (a + (n - 1) * n) by lia.
    rewrite Nat.Div0.mod_add, Nat.mod_small by exact Ha. reflexivity. }
  split.
  { intros k Hk. rewrite (nthNext_mod n w Hring) by exact Ha.
    intros E. injection E as E.
    destruct (Nat.lt_ge_cases (a + k) n) as [Hlt|Hge].
    - rewrite Nat.mod_small in E by exact Hlt. lia.
    - replace (a + k) with (a + k - n + 1 * n) in E by lia.
      rewrite Nat.Div0.mod_add, Nat.mod_small in E by lia. lia. }
  split.
  - rewrite (nextOf_ring n w a Hring Ha).
    rewrite (prevOf_ring n w _ Hring (succ_mod_lt n a Ha)).
    rewrite pred_succ_mod by exact Ha. reflexivity.
  - rewrite (prevOf_ring n w a Hring Ha).
    rewrite (nextOf_ring n w _ Hring (pred_mod_lt n a Ha)).
    rewrite succ_pred_mod by exact Ha. reflexivity.
Qed.

Lemma ring_is_one_cycle_witness :
  length (heap (resultWorld (session None 4 [COpen; CNext]))) = 4
  /\ nthNext 4 (Some 2) (resultWorld (session None 4 [COpen; CNext])) = Some 2
  /\ nthPrev 4 (Some 2) (resultWorld (session None 4 [COpen; CNext])) = Some 2
  /\ (forall k, 0 < k < 4 ->
        nthNext k (Some 2) (resultWorld (session None 4 [COpen; CNext]))
        <> Some 2)
  /\ prevOf (nextOf (Some 2) (resultWorld (session None 4 [COpen; CNext])))
       (resultWorld (session None 4 [COpen; CNext])) = Some 2
  /\ nextOf (prevOf (Some 2) (resultWorld (session None 4 [COpen; CNext])))
       (resultWorld (session None 4 [COpen; CNext])) = Some 2.
Proof.
  apply (ring_is_one_cycle None 4 [COpen; CNext]).
  - lia.
  - vm_compute. reflexivity.
  - lia.
Defined.

(** ** What the commands never write *)

Lemma structure_updNode a f w :
  (forall nd, skeleton (f nd) = skeleton nd) ->
  structure (updNode a f w) = structure w.
Proof.
  intros Hf. unfold structure. wsimpl.
  rewrite (fmap_alter_same skeleton f a (heap w) Hf). reflexivity.
Qed.

Lemma structure_updMenu m f w :
  (forall mn, settings (f mn) = settings mn) ->
  structure (updMenu m f w) = structure w.
Proof.
  intros Hf. unfold structure. wsimpl.
  replace (settings <$> alter f m (menus w)) with (settings <$> menus w);
    [reflexivity|].
  symmetry. apply list_eq. intros i. rewrite !list_lookup_fmap.
  rewrite list_lookup_alter. case_decide as Hd; [subst i|reflexivity].
  destruct (menus w !! m); cbn; [|reflexivity].
  rewrite Hf. reflexivity.
Qed.

Ltac frame_leaf :=
  repeat match goal with
         | |- context [match ?o with Some _ => _ | None => _ end] => destruct o
         | |- context [if ?b then _ else _] => destruct b
         end;
  wsimpl;
  repeat first
    [ rewrite structure_updNode by (intros []; reflexivity)
    | rewrite structure_updMenu by (intros []; reflexivity)
    | progress change (structure (set_rightEdge ?a ?w)) with (structure w)
    | progress change (structure (set_leftEdge ?a ?w)) with (structure w)
    | progress change (structure (set_nodeToSelect ?a ?w)) with (structure w)
    | progress change (structure (set_isMoving ?a ?w)) with (structure w)
    | progress change (structure (set_keyPressed ?a ?w)) with (structure w)
    | progress change (structure (set_motions ?a ?w)) with (structure w)
    | progress change (structure (set_timers ?a ?w)) with (structure w)
    | progress change (structure (logMotion ?a ?w)) with (structure w) ];
  try reflexivity.

Lemma moveToNext_loop_structure gap :
  forall fuel current w w',
    moveToNext_loop fuel gap current w = Ok w' -> structure w' = structure w.
Proof.
  induction fuel as [|f IH]; intros current w w' H; [discriminate|].
  cbn [moveToNext_loop] in H.
  destruct (getNode current w) as [c0| |]; cbn [bind] in H; try discriminate.
  match type of H with
  | bind ?X _ = _ => destruct X as [w1| |] eqn:E1
  end; cbn [bind] in H; try discriminate.
  assert (F1 : structure w1 = structure w).
  { destruct (sameRef current (leftEdge w)).
    - destruct (getNode (leftEdge w) w) as [le| |]; cbn [bind] in E1;
        try discriminate.
      destruct (getNode (prev le) w) as [lp| |]; cbn [bind] in E1;
        try discriminate.
      injection E1 as <-. frame_leaf.
    - injection E1 as <-. reflexivity. }
  destruct (getNode current w1) as [cur| |]; cbn [bind] in H; try discriminate.
  match type of H with
  | bind (getNode ?a ?w2) _ = _ =>
      assert (F2 : structure w2 = structure w1) by frame_leaf;
      destruct (getNode a w2) as [nxt| |]; cbn [bind] in H; try discriminate
  end.
  match type of H with
  | bind (getNode ?a ?w2) _ = _ =>
      destruct (getNode a w2) as [fst| |]; cbn [bind] in H; try discriminate
  end.
  destruct (negb (Z.eqb (id nxt) (id fst))).
  - rewrite (IH _ _ _ H). congruence.
  - injection H as <-. congruence.
Qed.

Lemma moveToPrev_loop_structure gap :
  forall fuel current w w',
    moveToPrev_loop fuel gap current w = Ok w' -> structure w' = structure w.
Proof.
  induction fuel as [|f IH]; intros current w w' H; [discriminate|].
  cbn [moveToPrev_loop] in H.
  destruct (getNode current w) as [c0| |]; cbn [bind] in H; try discriminate.
  match type of H with
  | bind ?X _ = _ => destruct X as [w1| |] eqn:E1
  end; cbn [bind] in H; try discriminate.
  assert (F1 : structure w1 = structure w).
  { destruct (sameRef current (rightEdge w)).
    - destruct (getNode (rightEdge w) w) as [re| |]; cbn [bind] in E1;
        try discriminate.
      destruct (getNode (next re) w) as [rn| |]; cbn [bind] in E1;
        try discriminate.
      injection E1 as <-. frame_leaf.
    - injection E1 as <-. reflexivity. }
  destruct (getNode current w1) as [cur| |]; cbn [bind] in H; try discriminate.
  match type of H with
  | bind (getNode ?a ?w2) _ = _ =>
      assert (F2 : structure w2 = structure w1) by frame_leaf;
      destruct (getNode a w2) as [nxt| |]; cbn [bind] in H; try discriminate
  end.
  match type of H with
  | bind (getNode ?a ?w2) _ = _ =>
      destruct (getNode a w2) as [fst| |]; cbn [bind] in H; try discriminate
  end.
  destruct (negb (Z.eqb (id nxt) (id fst))).
  - rewrite (IH _ _ _ H). congruence.
  - injection H as <-. congruence.
Qed.

Lemma forEachNode_loop_structure req :
  forall fuel current w w',
    forEachNode_loop fuel req current w = Ok w' -> structure w' = structure w.
Proof.
  induction fuel as [|f IH]; intros current w w' H; [discriminate|].
  cbn [forEachNode_loop] in H.
  destruct (getNode current w) as [cur| |]; cbn [bind] in H; try discriminate.
  match type of H with
  | bind (getNode ?a ?w2) _ = _ =>
      assert (F2 : structure w2 = structure w) by frame_leaf;
      destruct (getNode a w2) as [nxt| |]; cbn [bind] in H; try discriminate
  end.
  match type of H with
  | bind (getNode ?a ?w2) _ = _ =>
      destruct (getNode a w2) as [fst| |]; cbn [bind] in H; try discriminate
  end.
  destruct (negb (Z.eqb (id nxt) (id fst))).
  - rewrite (IH _ _ _ H). congruence.
  - injection H as <-. congruence.
Qed.

Lemma moveToNext_structure m w w' :
  moveToNext m w = Ok w' -> structure w' = structure w.
Proof.
  unfold moveToNext. intros H.
  destruct (getMenu m w) as [mn| |]; cbn [bind] in H; try discriminate.
  match type of H with
  | (if ?b then _ else _) = _ => destruct b
  end; [injection H as <-; reflexivity|].
  match type of H with
  | bind ?X _ = _ => destruct X as [w1| |] eqn:E1
  end; cbn [bind] in H; try discriminate.
  apply moveToNext_loop_structure in E1.
  change (structure (set_isMoving true w)) with (structure w) in E1.
  destruct (getNode (leftEdge w1) w1) as [le| |]; cbn [bind] in H;
    try discriminate.
  repeat match type of H with
         | bind (getNode ?a ?w0) _ = _ =>
             destruct (getNode a w0) as [?nd| |]; cbn [bind] in H;
             try discriminate
         end.
  injection H as <-. rewrite <- E1. frame_leaf.
Qed.

Lemma moveToPrev_structure m w w' :
  moveToPrev m w = Ok w' -> structure w' = structure w.
Proof.
  unfold moveToPrev. intros H.
  destruct (getMenu m w) as [mn| |]; cbn [bind] in H; try discriminate.
  match type of H with
  | (if ?b then _ else _) = _ => destruct b
  end; [injection H as <-; reflexivity|].
  match type of H with
  | bind ?X _ = _ => destruct X as [w1| |] eqn:E1
  end; cbn [bind] in H; try discriminate.
  apply moveToPrev_loop_structure in E1.
  change (structure (set_isMoving true w)) with (structure w) in E1.
  destruct (getNode (rightEdge w1) w1) as [re| |]; cbn [bind] in H;
    try discriminate.
  repeat match type of H with
         | bind (getNode ?a ?w0) _ = _ =>
             destruct (getNode a w0) as [?nd| |]; cbn [bind] in H;
             try discriminate
         end.
  injection H as <-. rewrite <- E1. frame_leaf.
Qed.

Lemma selectItem_structure m w w' :
  selectItem m w = Ok w' -> structure w' = structure w.
Proof.
  unfold selectItem. intros H.
  destruct (getMenu m w) as [mn| |]; cbn [bind] in H; try discriminate.
  destruct (negb (opened mn) || negb (enabled mn));
    [injection H as <-; reflexivity|].
  destruct (getNode (nodeToSelect w) w) as [sel| |]; cbn [bind] in H;
    try discriminate.
  destruct (nodeToSelect w); [|discriminate].
  injection H as <-. reflexivity.
Qed.

Lemma open_structure m w w' :
  open m w = Ok w' -> structure w' = structure w.
Proof.
  unfold open. intros H.
  destruct (getMenu m w) as [mn| |]; cbn [bind] in H; try discriminate.
  destruct (opened mn); [injection H as <-; reflexivity|].
  match type of H with
  | bind ?X _ = _ => destruct X as [w1| |] eqn:E1
  end; cbn [bind] in H; try discriminate.
  injection H as <-.
  rewrite structure_updMenu by (intros []; reflexivity).
  destruct (Z.eqb (openBehavior mn) OPEN_GROW);
    [apply (forEachNode_loop_structure _ _ _ _ _ E1)|].
  destruct (Z.eqb (openBehavior mn) OPEN_TRANSPARENCY);
    [apply (forEachNode_loop_structure _ _ _ _ _ E1)|].
  injection E1 as <-. reflexivity.
Qed.

Lemma close_structure m w w' :
  close m w = Ok w' -> structure w' = structure w.
Proof.
  unfold close. intros H.
  destruct (getMenu m w) as [mn| |]; cbn [bind] in H; try discriminate.
  destruct (negb (opened mn)); [injection H as <-; reflexivity|].
  match type of H with
  | bind ?X _ = _ => destruct X as [w1| |] eqn:E1
  end; cbn [bind] in H; try discriminate.
  injection H as <-.
  rewrite structure_updMenu by (intros []; reflexivity).
  apply (forEachNode_loop_structure _ _ _ _ _ E1).
Qed.

Lemma exec_structure m c w w' :
  exec m c w = Ok w' -> structure w' = structure w.
Proof.
  destruct c; cbn [exec].
  - apply open_structure.
  - apply close_structure.
  - apply moveToNext_structure.
  - apply moveToPrev_structure.
  - apply selectItem_structure.
Qed.

Lemma run_structure m cs :
  forall w w', run m cs w = Ok w' -> structure w' = structure w.
Proof.
  induction cs as [|c cs IH]; intros w w' H; cbn [run] in H.
  - injection H as <-. reflexivity.
  - destruct (exec m c w) as [w1| |] eqn:E; cbn [bind] in H; try discriminate.
    rewrite (IH _ _ H). apply (exec_structure _ _ _ _ E).
Qed.

Lemma rotateToward_structure m fwd tag w o w' :
  rotateToward m fwd tag w = Ok (o, w') -> structure w' = structure w.
Proof.
  unfold rotateToward. intros H.
  match type of H with
  | bind ?X _ = _ => destruct X as [w1| |] eqn:E1
  end; cbn [bind] in H; try discriminate.
  assert (F1 : structure w1 = structure w).
  { destruct fwd; [apply (moveToNext_structure _ _ _ E1)
                  |apply (moveToPrev_structure _ _ _ E1)]. }
  destruct (getNode (nodeToSelect w1) w1) as [sel| |]; cbn [bind] in H;
    try discriminate.
  destruct (negb (Z.eqb (id sel) tag)); injection H as _ <-; exact F1.
Qed.

Lemma clickItem_structure m hit w o w' :
  clickItem m hit w = Ok (o, w') -> structure w' = structure w.
Proof.
  unfold clickItem. intros H.
  destruct (getMenu m w) as [mn| |]; cbn [bind] in H; try discriminate.
  destruct (negb (opened mn) || clicked w); [injection H as _ <-; reflexivity|].
  destruct hit as [tag|]; [|injection H as _ <-; reflexivity].
  destruct (getNode (nodeToSelect w) w) as [sel| |]; cbn [bind] in H;
    try discriminate.
  destruct (Z.eqb (id sel) tag).
  - destruct (selectItem m w) as [w1| |] eqn:E1; cbn [bind] in H;
      try discriminate.
    injection H as _ <-. apply (selectItem_structure _ _ _ E1).
  - match type of H with
    | bind ?X _ = _ => destruct X as [[|]| |]
    end; cbn [bind] in H; try discriminate.
    + apply (rotateToward_structure _ _ _ _ _ _ H).
    + match type of H with
      | bind ?X _ = _ => destruct X as [[|]| |]
      end; cbn [bind] in H; try discriminate.
      * apply (rotateToward_structure _ _ _ _ _ _ H).
      * injection H as _ <-. reflexivity.
Qed.

Lemma tick_structure i w w' :
  tick i w = Ok w' -> structure w' = structure w.
Proof.
  unfold tick. intros H.
  destruct (timers w !! i) as [[t|]|]; try (injection H as <-; reflexivity).
  match type of H with
  | bind ?X _ = _ => destruct X as [w1| |] eqn:E1
  end; cbn [bind] in H; try discriminate.
  assert (F1 : structure w1 = structure w).
  { destruct (t_forward t); [apply (moveToNext_structure _ _ _ E1)
                            |apply (moveToPrev_structure _ _ _ E1)]. }
  destruct (getNode (nodeToSelect w1) w1) as [sel| |]; cbn [bind] in H;
    try discriminate.
  destruct (Z.eqb (id sel) (t_target t)); injection H as <-; exact F1.
Qed.

Lemma runInterval_structure i :
  forall fuel w k w',
    runInterval fuel i w = Ok (k, w') -> structure w' = structure w.
Proof.
  induction fuel as [|f IH]; intros w k w' H; cbn [runInterval] in H.
  - destruct (timers w !! i) as [[t|]|]; try discriminate;
      injection H as _ <-; reflexivity.
  - destruct (timers w !! i) as [[t|]|];
      try (injection H as _ <-; reflexivity).
    destruct (tick i w) as [w1| |] eqn:E1; cbn [bind] in H; try discriminate.
    destruct (runInterval f i w1) as [[k1 w2]| |] eqn:E2; cbn [bind] in H;
      try discriminate.
    injection H as _ <-.
    rewrite (IH _ _ _ E2). apply (tick_structure _ _ _ E1).
Qed.

Lemma clickAndSettle_structure fuel m hit w k w' :
  clickAndSettle fuel m hit w = Ok (k, w') -> structure w' = structure w.
Proof.
  unfold clickAndSettle. intros H.
  destruct (clickItem m hit w) as [[o w1]| |] eqn:E1; cbn [bind] in H;
    try discriminate.
  apply clickItem_structure in E1.
  destruct o as [| |fwd [i|]]; try (injection H as _ <-; exact E1).
  destruct (runInterval fuel i w1) as [[k1 w2]| |] eqn:E2; cbn [bind] in H;
    try discriminate.
  injection H as _ <-.
  rewrite (runInterval_structure _ _ _ _ _ E2). exact E1.
Qed.

(** X2: whatever the page looks like (any number of menus, any store),
    a navigation command that returns, and a click resolved to its end,
    leave the structure of the page as it was: no node is added or
    removed, no id, link, action or tag is written, [firstNode],
    [latestNode] and [nextNodeID] keep their values, and every menu keeps
    its tray, item count and settings.  Only [new Menu] and [add] write
    these. *)
Theorem commands_keep_structure (m : handle) (cs : list Cmd)
    (hit : option Z) (fuel : nat) (w w1 w2 : World) (k : nat) :
  run m cs w = Ok w1 -> clickAndSettle fuel m hit w1 = Ok (k, w2) ->
  structure w1 = structure w /\ structure w2 = structure w
  /\ length (heap w2) = length (heap w).
Proof.
  intros H1 H2.
  pose proof (run_structure m cs w w1 H1) as E1.
  pose proof (clickAndSettle_structure fuel m hit w1 k w2 H2) as E2.
  split; [exact E1|]. split; [congruence|].
  assert (E : structure w2 = structure w) by congruence.
  unfold structure in E. injection E as E _ _ _ _.
  apply (f_equal length) in E. rewrite !length_fmap in E. exact E.
Qed.

Lemma commands_keep_structure_witness :
  structure (resultWorld (run 1 [COpen; CNext] (resultWorld twoMenus)))
  = structure (resultWorld twoMenus)
  /\ structure
       (snd (settled (clickAndSettle 3 1 (Some 0%Z)
          (resultWorld (run 1 [COpen; CNext] (resultWorld twoMenus))))))
     = structure (resultWorld twoMenus)
  /\ length (heap
       (snd (settled (clickAndSettle 3 1 (Some 0%Z)
          (resultWorld (run 1 [COpen; CNext] (resultWorld twoMenus)))))))
     = length (heap (resultWorld twoMenus)).
Proof.
  apply (commands_keep_structure 1 [COpen; CNext] (Some 0%Z) 3
           (resultWorld twoMenus) _ _
           (fst (settled (clickAndSettle 3 1 (Some 0%Z)
              (resultWorld (run 1 [COpen; CNext] (resultWorld twoMenus))))))).
  - vm_compute. reflexivity.
  - vm_compute. reflexivity.
Defined.

(** ** What [add] has built *)

Lemma repositionNodes_loop_structure gap median isEven :
  forall fuel current pos w pos' w',
    repositionNodes_loop fuel gap median isEven current pos w = Ok (pos', w') ->
    structure w' = structure w.
Proof.
  induction fuel as [|f IH]; intros current pos w pos' w' H; [discriminate|].
  cbn [repositionNodes_loop] in H.
  destruct (getNode current w) as [cur| |]; cbn [bind] in H; try discriminate.
  match type of H with
  | (let '(p, w0) := ?X in _) = _ => destruct X as [p1 w1] eqn:E1
  end.
  assert (F1 : structure w1 = structure w).
  { destruct (Z.eqb (id cur) median); injection E1 as _ <-; frame_leaf. }
  destruct (getNode (next cur) w1) as [nxt| |]; cbn [bind] in H;
    try discriminate.
  destruct (getNode (firstNode w1) w1) as [fst| |]; cbn [bind] in H;
    try discriminate.
  destruct (negb (Z.eqb (id nxt) (id fst))).
  - rewrite (IH _ _ _ _ _ H). exact F1.
  - injection H as _ <-. exact F1.
Qed.

Lemma repositionNodes_structure m w pos' w' :
  repositionNodes m w = Ok (pos', w') -> structure w' = structure w.
Proof.
  unfold repositionNodes. intros H.
  destruct (getMenu m w) as [mn| |]; cbn [bind] in H; try discriminate.
  match type of H with
  | bind ?X _ = _ => destruct X as [[p1 w1]| |] eqn:E1
  end; cbn [bind] in H; try discriminate.
  injection H as _ <-.
  rewrite structure_updMenu by (intros []; reflexivity).
  rewrite (repositionNodes_loop_structure _ _ _ _ _ _ _ _ _ E1).
  apply structure_updMenu. intros []; reflexivity.
Qed.

Lemma skeleton_ext (h : list MenuNode) n :
  linksOf <$> h = ringLinks n ->
  (fun nd => (action nd, itemTag nd)) <$> h
  = (fun k => (@None nat, Z.of_nat k)) <$> seq 0 n ->
  skeleton <$> h = ringSkeleton n <$> seq 0 n.
Proof.
  intros Hl Ht. apply list_eq. intros i.
  apply (f_equal (fun l => l !! i)) in Hl, Ht.
  unfold ringLinks in Hl.
  rewrite !list_lookup_fmap in *.
  destruct (h !! i) as [nd|], (seq 0 n !! i) as [k|];
    cbn in *; try discriminate; try reflexivity.
  injection Hl as L1 L2 L3. injection Ht as T1 T2.
  unfold skeleton, ringSkeleton. congruence.
Qed.

Lemma linked_tags n w :
  1 <= n -> length (heap w) = n ->
  (fun nd => (action nd, itemTag nd)) <$> heap w
  = (fun k => (@None nat, Z.of_nat k)) <$> seq 0 n ->
  (fun nd => (action nd, itemTag nd)) <$> heap (linked n w)
  = (fun k => (@None nat, Z.of_nat k)) <$> seq 0 (S n).
Proof.
  intros Hn Hlen Ht.
  rewrite (linked_heap n w Hn Hlen), fmap_app.
  rewrite !fmap_alter_same by (intros []; reflexivity).
  rewrite Ht, seq_S, fmap_app. reflexivity.
Qed.

Lemma structure_tags w w' :
  structure w' = structure w ->
  (fun nd => (action nd, itemTag nd)) <$> heap w'
  = (fun nd => (action nd, itemTag nd)) <$> heap w.
Proof.
  intros E. unfold structure in E. injection E as E _ _ _ _.
  apply (f_equal (fmap (fun p : Z * option nat * option addr * option addr * Z =>
                          (p.1.1.1.2, p.2)))) in E.
  rewrite <- !list_fmap_compose in E. exact E.
Qed.

Lemma freshMenu_tags P n :
  1 <= n ->
  exists w, freshMenu P n = Ok w /\ Built P n w
            /\ (fun nd => (action nd, itemTag nd)) <$> heap w
               = (fun k => (@None nat, Z.of_nat k)) <$> seq 0 n.
Proof.
  intros Hn. induction n as [|n IH]; [lia|].
  destruct (Nat.eq_dec n 0) as [->|Hn0].
  - exists (firstAdded P). split; [apply add_first|].
    split; [apply firstAdded_built|reflexivity].
  - destruct (IH ltac:(lia)) as (w & Hw & HB & Ht).
    destruct (add_step P n w ltac:(lia) HB) as (w' & Hadd & HB').
    exists w'. unfold freshMenu in *. cbn [addItems]. rewrite Hw. cbn [bind].
    split; [exact Hadd|]. split; [exact HB'|].
    rewrite (add_linked P n w ltac:(lia) HB) in Hadd.
    destruct (repositionNodes 0 (linked n w)) as [[p w1]| |] eqn:E;
      cbn [bind] in Hadd; try discriminate.
    injection Hadd as <-.
    rewrite (structure_tags _ _ (repositionNodes_structure _ _ _ _ E)).
    apply linked_tags; [lia| |exact Ht].
    apply (RingOK_length _ _ (b_ring _ _ _ HB)).
Qed.

Lemma freshMenu_structure P n :
  1 <= n ->
  exists w, freshMenu P n = Ok w /\ Built P n w
            /\ structure w = builtStructure P n.
Proof.
  intros Hn. destruct (freshMenu_tags P n Hn) as (w & Hw & HB & Ht).
  exists w. split; [exact Hw|]. split; [exact HB|].
  destruct HB as [Hring _ _ _ _ Hmenus Hrest].
  unfold restOf in Hrest. injection Hrest as _ _ _ R4 R5 _ R7 _ _.
  unfold structure, builtStructure.
  rewrite (skeleton_ext _ n Hring Ht), Hmenus, R4, R5, R7.
  cbn [fmap list_fmap]. unfold settings, builtMenu.
  cbn [itemTray itemCount gapBetweenItems menuOffsetItems revolvingMenu
       openBehavior].
  rewrite init_revolvingMenu_true. reflexivity.
Qed.

(** X3: on a one-menu page, [n >= 1] calls of [add] return and leave
    exactly this structure: node [k] (the [k]-th added) has id [k] and its
    mesh carries tag [k], its [next] is node [k+1] and its [prev] node
    [k-1] modulo [n]; the tray lists the nodes in insertion order,
    [itemCount] and [nextNodeID] are [n], [firstNode] is the first node
    added and [latestNode] the last.  In particular the tag a ray hit
    reports is the id of the node hit. *)
Theorem add_builds_structure (P : option Properties) (n : nat) :
  1 <= n ->
  exists w, freshMenu P n = Ok w /\ structure w = builtStructure P n.
Proof.
  intros Hn. destruct (freshMenu_structure P n Hn) as (w & Hw & _ & Hs).
  exists w. auto.
Qed.

Lemma add_builds_structure_witness :
  exists w, freshMenu None 4 = Ok w /\ structure w = builtStructure None 4.
Proof. apply (add_builds_structure None 4). lia. Defined.

(** ** What a rotation writes and requests *)

Lemma the_position_ext j w w' :
  (position <$> heap w') !! j = (position <$> heap w) !! j ->
  position (the j w') = position (the j w).
Proof.
  rewrite !list_lookup_fmap. unfold the.
  destruct (heap w' !! j), (heap w !! j); cbn; congruence.
Qed.

Lemma positions_alter_selected b a (h : list MenuNode) :
  position <$> alter (set_selected b) a h = position <$> h.
Proof. apply fmap_alter_same. intros []; reflexivity. Qed.

Lemma the_position_selected b a k w :
  position (the k (updNode a (set_selected b) w)) = position (the k w).
Proof.
  apply the_position_ext. wsimpl. rewrite positions_alter_selected.
  reflexivity.
Qed.

Lemma next_iter_positions n gap l k w :
  position <$> heap (next_iter n gap l k w)
  = if Nat.eqb k l
    then <[l := vadd (position (the (pred_mod n l) w)) gap]> (position <$> heap w)
    else position <$> heap w.
Proof.
  unfold next_iter. cbv zeta.
  destruct (Nat.eqb k l);
    match goal with |- context [if ?b then _ else _] => destruct b end;
    wsimpl;
    rewrite ?positions_alter_selected, ?positions_alter_position; reflexivity.
Qed.

Lemma next_iter_motions n gap l k w :
  motions (next_iter n gap l k w)
  = motions w ++ [MoveTo k (vsub (position (the k (next_iter n gap l k w))) gap)].
Proof.
  unfold next_iter. cbv zeta.
  destruct (Nat.eqb k l);
    match goal with |- context [if selected ?c then _ else _] =>
      destruct (selected c) end;
    wsimpl; rewrite ?the_position_selected; reflexivity.
Qed.

Lemma prev_iter_positions n gap r k w :
  position <$> heap (prev_iter n gap r k w)
  = if Nat.eqb k r
    then <[r := vsub (position (the (succ_mod n r) w)) gap]> (position <$> heap w)
    else position <$> heap w.
Proof.
  unfold prev_iter. cbv zeta.
  destruct (Nat.eqb k r);
    match goal with |- context [if ?b then _ else _] => destruct b end;
    wsimpl;
    rewrite ?positions_alter_selected, ?positions_alter_position; reflexivity.
Qed.

Lemma prev_iter_motions n gap r k w :
  motions (prev_iter n gap r k w)
  = motions w ++ [MoveTo k (vadd (position (the k (prev_iter n gap r k w))) gap)].
Proof.
  unfold prev_iter. cbv zeta.
  destruct (Nat.eqb k r);
    match goal with |- context [if selected ?c then _ else _] =>
      destruct (selected c) end;
    wsimpl; rewrite ?the_position_selected; reflexivity.
Qed.

Lemma succ_mod_ne n k : 2 <= n -> k < n -> succ_mod n k <> k.
Proof. intros Hn Hk. unfold succ_mod. destruct (Nat.eqb_spec (S k) n); lia. Qed.

Lemma pred_mod_ne n k : 2 <= n -> k < n -> pred_mod n k <> k.
Proof. intros Hn Hk. unfold pred_mod. destruct (Nat.eqb_spec k 0); lia. Qed.

Lemma moveToNext_loop_moves n gap l :
  2 <= n -> l < n ->
  forall fuel k w w',
    k < n ->
    RingOK n (heap w) -> firstNode w = Some 0 -> leftEdge w = Some l ->
    moveToNext_loop fuel gap (Some k) w = Ok w' ->
    position <$> heap w'
    = (if Nat.leb k l
       then <[l := vadd (position (the (pred_mod n l) w)) gap]>
              (position <$> heap w)
       else position <$> heap w)
    /\ motions w'
       = motions w
         ++ ((fun j => MoveTo j (vsub (position (the j w')) gap))
             <$> seq k (n - k)).
Proof.
  intros Hn Hl.
  induction fuel as [|f IH]; intros k w w' Hk Hring Hfirst Hleft H;
    [discriminate|].
  rewrite (moveToNext_loop_step n gap l f k w Hring Hfirst Hleft Hl Hk) in H.
  set (w1 := next_iter n gap l k w) in *.
  pose proof (next_iter_positions n gap l k w) as Hp1. fold w1 in Hp1.
  pose proof (next_iter_motions n gap l k w) as Hm1. fold w1 in Hm1.
  destruct (Nat.eqb_spec (S k) n) as [E|E].
  - injection H as <-. rewrite Hp1, Hm1.
    replace (n - k) with 1 by lia. cbn [seq fmap list_fmap].
    split; [|reflexivity].
    destruct (Nat.eqb_spec k l), (Nat.leb_spec k l); try reflexivity; lia.
  - assert (Hring1 : RingOK n (heap w1)).
    { unfold RingOK, w1. rewrite next_iter_links. exact Hring. }
    assert (Hctl1 : ctl w1 = ctl w) by apply next_iter_ctl.
    assert (Hfirst1 : firstNode w1 = Some 0).
    { unfold ctl in Hctl1. injection Hctl1 as _ _ _ _ E1 _ _ _. congruence. }
    assert (Hleft1 : leftEdge w1 = Some l).
    { unfold w1. rewrite next_iter_left. exact Hleft. }
    destruct (IH (S k) w1 w' ltac:(lia) Hring1 Hfirst1 Hleft1 H) as [Hp Hm].
    assert (Hpk : position (the k w') = position (the k w1)).
    { apply the_position_ext. rewrite Hp.
      destruct (Nat.leb_spec (S k) l); [|reflexivity].
      rewrite list_lookup_insert_ne by lia. reflexivity. }
    split.
    + rewrite Hp, Hp1.
      destruct (Nat.eqb_spec k l), (Nat.leb_spec k l), (Nat.leb_spec (S k) l);
        try reflexivity; try lia.
      f_equal. f_equal. apply the_position_ext. rewrite Hp1. reflexivity.
    + rewrite Hm, Hm1, <- app_assoc. f_equal.
      replace (n - k) with (S (n - S k)) by lia.
      cbn [seq fmap list_fmap app]. rewrite Hpk. reflexivity.
Qed.

Lemma downFrom_S k : downFrom (S k) = S k :: downFrom k.
Proof.
  unfold downFrom. rewrite seq_S, reverse_snoc. reflexivity.
Qed.

Lemma moveToPrev_loop_moves n gap r :
  2 <= n -> r < n ->
  forall fuel k w w',
    1 <= k < n ->
    RingOK n (heap w) -> firstNode w = Some 0 -> rightEdge w = Some r ->
    moveToPrev_loop fuel gap (Some k) w = Ok w' ->
    position <$> heap w'
    = (if Nat.leb 1 r && Nat.leb r k
       then <[r := vsub (position (the (succ_mod n r) w)) gap]>
              (position <$> heap w)
       else position <$> heap w)
    /\ motions w'
       = motions w
         ++ ((fun j => MoveTo j (vadd (position (the j w')) gap))
             <$> downFrom k).
Proof.
  intros Hn Hr.
  induction fuel as [|f IH]; intros k w w' Hk Hring Hfirst Hright H;
    [discriminate|].
  rewrite (moveToPrev_loop_step n gap r f k w Hring Hfirst Hright Hr) in H
    by lia.
  set (w1 := prev_iter n gap r k w) in *.
  pose proof (prev_iter_positions n gap r k w) as Hp1. fold w1 in Hp1.
  pose proof (prev_iter_motions n gap r k w) as Hm1. fold w1 in Hm1.
  assert (Hpred : pred_mod n k = k - 1).
  { unfold pred_mod. destruct (Nat.eqb_spec k 0); lia. }
  rewrite Hpred in H.
  destruct k as [|k]; [lia|]. rewrite downFrom_S.
  replace (S k - 1) with k in H by lia.
  destruct (Nat.eqb_spec k 0) as [E|E].
  - injection H as <-. rewrite Hp1, Hm1. subst k.
    split; [|reflexivity].
    destruct (Nat.eqb_spec 1 r), (Nat.leb_spec 1 r), (Nat.leb_spec r 1);
      cbn [andb]; try reflexivity; lia.
  - assert (Hring1 : RingOK n (heap w1)).
    { unfold RingOK, w1. rewrite prev_iter_links. exact Hring. }
    assert (Hctl1 : ctl w1 = ctl w) by apply prev_iter_ctl.
    assert (Hfirst1 : firstNode w1 = Some 0).
    { unfold ctl in Hctl1. injection Hctl1 as _ _ _ _ E1 _ _ _. congruence. }
    assert (Hright1 : rightEdge w1 = Some r).
    { unfold w1. rewrite prev_iter_right. exact Hright. }
    destruct (IH k w1 w' ltac:(lia) Hring1 Hfirst1 Hright1 H) as [Hp Hm].
    assert (Hpk : position (the (S k) w') = position (the (S k) w1)).
    { apply the_position_ext. rewrite Hp.
      destruct (Nat.leb 1 r && Nat.leb r k) eqn:Eb; [|reflexivity].
      apply andb_prop in Eb. destruct Eb as [_ Eb]. apply Nat.leb_le in Eb.
      rewrite list_lookup_insert_ne by lia. reflexivity. }
    split.
    + rewrite Hp, Hp1.
      destruct (Nat.eqb_spec (S k) r), (Nat.leb_spec 1 r),
        (Nat.leb_spec r (S k)), (Nat.leb_spec r k);
        cbn [andb]; try reflexivity; try lia.
      f_equal. f_equal. apply the_position_ext. rewrite Hp1. reflexivity.
    + rewrite Hm, Hm1, <- app_assoc. f_equal.
      cbn [fmap list_fmap app]. rewrite Hpk. reflexivity.
Qed.

Lemma moves_ext (f : Vec3 -> Vec3) (ks : list nat) w w' :
  position <$> heap w' = position <$> heap w ->
  (fun j => MoveTo j (f (position (the j w')))) <$> ks
  = (fun j => MoveTo j (f (position (the j w)))) <$> ks.
Proof.
  intros E. apply list_fmap_ext. intros i j _.
  rewrite (the_position_ext j w w') by (rewrite E; reflexivity). reflexivity.
Qed.

Lemma moveToNext_run n s l r w mn :
  2 <= n -> St n s l r w -> menus w = [mn] ->
  rotationBlocked mn
    (Z.leb (Z.of_nat (length (itemTray mn)) - 1) (itemSelected mn)) w = false ->
  exists w',
    moveToNext 0 w = Ok w'
    /\ St n (succ_mod n s) (succ_mod n l) l w'
    /\ menus w' = [set_itemSelected (Z.of_nat (succ_mod n s)) mn]
    /\ bystanders w' = bystanders w
    /\ position <$> heap w'
       = <[l := vadd (position (the (pred_mod n l) w)) (gapBetweenItems mn)]>
           (position <$> heap w)
    /\ motions w'
       = motions w
         ++ ((fun j => MoveTo j (vsub (position (the j w')) (gapBetweenItems mn)))
             <$> seq 0 n).
Proof.
  intros Hn [Hring Hsel Hs Hl Hr Hfirst Hcount Hidle Hnts Hleft Hright]
    Hmenus Hguard.
  pose proof (RingOK_length _ _ Hring) as Hlen.
  unfold moveToNext, getMenu.
  rewrite Hmenus. cbn [lookup list_lookup bind]. rewrite Hguard.
  destruct (moveToNext_loop_ring n (gapBetweenItems mn) s l Hs Hl
              (walkFuel (set_isMoving true w)) 0 (set_isMoving true w))
    as (w1 & Hrun & Q1 & Q2 & Q3 & Q4 & Q5 & Q6);
    try assumption; try lia.
  { unfold walkFuel. wsimpl. lia. }
  { left. split; [lia|exact Hsel]. }
  destruct (moveToNext_loop_moves n (gapBetweenItems mn) l Hn Hl _ 0
              (set_isMoving true w) w1 ltac:(lia) Hring Hfirst Hleft Hrun)
    as [Hp Hm].
  change (firstNode (set_isMoving true w)) with (firstNode w).
  rewrite Hfirst, Hrun. cbn [bind].
  unfold ctl in Q6. wsimpl. injection Q6 as C1 C2 C3 C4 C5 C6 C7 C8.
  rewrite Q4. ring_node n l. rewrite X. wsimpl. rewrite Q3.
  ring_node n (succ_mod n s). wsimpl. rewrite ?Q3. wsimpl.
  ring_node n (succ_mod n s).
  eexists. split; [reflexivity|]. wsimpl.
  split; [split|split; [|split; [|split]]]; wsimpl.
  - unfold RingOK. rewrite links_alter by apply keepsLinks_selected. exact Q1.
  - unfold SelIs. rewrite flags_alter_selected, Q2. apply flags_set.
  - apply succ_mod_lt, Hs.
  - apply succ_mod_lt, Hl.
  - exact Hl.
  - congruence.
  - congruence.
  - reflexivity.
  - exact Q3.
  - reflexivity.
  - exact Q5.
  - rewrite C1, Hmenus, I1. reflexivity.
  - unfold bystanders. wsimpl. congruence.
  - rewrite positions_alter_selected. exact Hp.
  - rewrite Hm, Nat.sub_0_r. f_equal. symmetry.
    apply (moves_ext (fun p => vsub p (gapBetweenItems mn))). wsimpl.
    apply positions_alter_selected.
Qed.

Lemma moveToPrev_run n s l r w mn :
  2 <= n -> St n s l r w -> menus w = [mn] ->
  rotationBlocked mn (Z.leb (itemSelected mn) 0) w = false ->
  exists w',
    moveToPrev 0 w = Ok w'
    /\ St n (pred_mod n s) r (pred_mod n r) w'
    /\ menus w' = [set_itemSelected (Z.of_nat (pred_mod n s)) mn]
    /\ bystanders w' = bystanders w
    /\ position <$> heap w'
       = <[r := vsub (position (the (succ_mod n r) w)) (gapBetweenItems mn)]>
           (position <$> heap w)
    /\ motions w'
       = motions w
         ++ ((fun j => MoveTo j (vadd (position (the j w')) (gapBetweenItems mn)))
             <$> (0 :: downFrom (n - 1))).
Proof.
  intros Hn [Hring Hsel Hs Hl Hr Hfirst Hcount Hidle Hnts Hleft Hright]
    Hmenus Hguard.
  pose proof (RingOK_length _ _ Hring) as Hlen.
  unfold moveToPrev, getMenu.
  rewrite Hmenus. cbn [lookup list_lookup bind]. rewrite Hguard.
  set (w0 := set_isMoving true w).
  assert (Hring0 : RingOK n (heap w0)) by exact Hring.
  change (firstNode w0) with (firstNode w). rewrite Hfirst.
  unfold walkFuel. change (heap w0) with (heap w). rewrite Hlen.
  rewrite (moveToPrev_loop_step n (gapBetweenItems mn) r n 0 w0 Hring0 Hfirst
             Hright Hr) by lia.
  assert (Hp0 : pred_mod n 0 = n - 1) by reflexivity.
  rewrite Hp0. destruct (Nat.eqb_spec (n - 1) 0) as [E|_]; [lia|].
  set (w1 := prev_iter n (gapBetweenItems mn) r 0 w0).
  pose proof (prev_iter_positions n (gapBetweenItems mn) r 0 w0) as Hp1.
  pose proof (prev_iter_motions n (gapBetweenItems mn) r 0 w0) as Hm1.
  fold w1 in Hp1, Hm1.
  assert (Hring1 : RingOK n (heap w1)).
  { unfold RingOK, w1. rewrite prev_iter_links. exact Hring. }
  assert (Hctl1 : ctl w1 = ctl w0) by apply prev_iter_ctl.
  assert (Hfirst1 : firstNode w1 = Some 0).
  { unfold ctl in Hctl1. injection Hctl1 as _ _ _ _ E _ _ _.
    rewrite E. exact Hfirst. }
  assert (Hright1 : rightEdge w1 = Some r).
  { unfold w1. rewrite prev_iter_right. exact Hright. }
  assert (Hleft1 : leftEdge w1 = if Nat.eqb 0 r then Some r else Some l).
  { unfold w1. rewrite prev_iter_left. destruct (Nat.eqb 0 r); auto. }
  assert (Hph1 : Phase n s (pred_mod n s) (1 <= s <= n - 1) w1).
  { apply (prev_iter_phase n _ s r 0 w0 True); [lia|lia|].
    left. split; [exact I|exact Hsel]. }
  destruct (moveToPrev_loop_ring n (gapBetweenItems mn) s r Hs Hr n (n - 1) w1)
    as (w' & Hrun & Q1 & Q2 & Q3 & Q4 & Q5 & Q6);
    try assumption; try lia.
  destruct (moveToPrev_loop_moves n (gapBetweenItems mn) r Hn Hr _ (n - 1)
              w1 w' ltac:(lia) Hring1 Hfirst1 Hright1 Hrun) as [Hp Hm].
  rewrite Hrun. cbn [bind].
  assert (Hleft' : leftEdge w' = Some r).
  { rewrite Q5, Hleft1.
    destruct (Nat.eqb_spec 0 r), (Nat.leb_spec 1 r), (Nat.leb_spec r (n - 1));
      cbn [andb]; try reflexivity; lia. }
  assert (Hpos : position <$> heap w'
                 = <[r := vsub (position (the (succ_mod n r) w))
                            (gapBetweenItems mn)]> (position <$> heap w)).
  { rewrite Hp, Hp1. change (heap w0) with (heap w).
    change (the (succ_mod n r) w0) with (the (succ_mod n r) w).
    destruct (Nat.eqb_spec 0 r), (Nat.leb_spec 1 r), (Nat.leb_spec r (n - 1));
      cbn [andb]; try reflexivity; try lia.
    f_equal. f_equal. apply the_position_ext. rewrite Hp1.
    destruct (Nat.eqb_spec 0 r); [lia|]. reflexivity. }
  assert (Hp0' : position (the 0 w') = position (the 0 w1)).
  { apply the_position_ext. rewrite Hp.
    destruct (Nat.leb_spec 1 r); cbn [andb]; [|reflexivity].
    destruct (Nat.leb r (n - 1)); [|reflexivity].
    rewrite list_lookup_insert_ne by lia. reflexivity. }
  unfold ctl in Q6, Hctl1. unfold w0 in Hctl1. wsimpl.
  injection Q6 as C1 C2 C3 C4 C5 C6 C7 C8.
  injection Hctl1 as D1 D2 D3 D4 D5 D6 D7 D8.
  rewrite Q4. ring_node n r. rewrite V. wsimpl. rewrite Q3.
  ring_node n (pred_mod n s). wsimpl. rewrite ?Q3. wsimpl.
  ring_node n (pred_mod n s).
  eexists. split; [reflexivity|].
  split; [split|split; [|split; [|split]]]; wsimpl.
  - unfold RingOK. rewrite links_alter by apply keepsLinks_selected. exact Q1.
  - unfold SelIs. rewrite flags_alter_selected, Q2. apply flags_set.
  - apply pred_mod_lt, Hs.
  - exact Hr.
  - apply pred_mod_lt, Hr.
  - congruence.
  - congruence.
  - reflexivity.
  - exact Q3.
  - exact Hleft'.
  - reflexivity.
  - rewrite C1, D1, Hmenus, I1. reflexivity.
  - unfold bystanders. wsimpl. congruence.
  - rewrite positions_alter_selected. exact Hpos.
  - rewrite Hm, Hm1. change (motions w0) with (motions w).
    rewrite <- app_assoc. f_equal. cbn [fmap list_fmap app].
    rewrite <- Hp0'. f_equal.
    + f_equal. f_equal. symmetry. apply the_position_ext. wsimpl.
      rewrite positions_alter_selected. reflexivity.
    + symmetry. apply (moves_ext (fun p => vadd p (gapBetweenItems mn))).
      wsimpl. apply positions_alter_selected.
Qed.

(** ** The carousel between completed rotations *)







Lemma foldl_insert_length (f : nat -> Vec3) ks :
  forall ps : list Vec3, length (foldl (fun ps j => <[j := f j]> ps) ps ks) = length ps.
Proof.
  induction ks as [|k ks IH]; intros ps; [reflexivity|].
  cbn [foldl]. rewrite IH. apply length_insert.
Qed.









Lemma Nav_unblocked n s l r w mn b :
  2 <= n -> Nav n s l r w -> menus w = [mn] -> rotationBlocked mn b w = false.
Proof.
  intros Hn [HSt [_ (mn' & Hm & Hop & _ & Hrev)]] Hmenus.
  rewrite Hmenus in Hm. injection Hm as <-.
  unfold rotationBlocked.
  rewrite Hop, Hrev, (st_idle _ _ _ _ _ HSt), (st_count _ _ _ _ _ HSt).
  replace (Z.of_nat n <=? 1)%Z with false by (symmetry; apply Z.leb_gt; lia).
  reflexivity.
Qed.

Ltac ring_arith :=
  unfold stepSel, stepLeft, stepRight, Centred, distTo, slotZ in *;
  unfold succ_mod, pred_mod in *;
  repeat match goal with
         | H : context [Nat.leb ?a ?b] |- _ => destruct (Nat.leb_spec a b)
         | H : context [Nat.eqb ?a ?b] |- _ => destruct (Nat.eqb_spec a b)
         | |- context [Nat.leb ?a ?b] => destruct (Nat.leb_spec a b)
         | |- context [Nat.eqb ?a ?b] => destruct (Nat.eqb_spec a b)
         end;
  try lia.






Lemma distTo_self n s : distTo true n s s = 0.
Proof. unfold distTo. rewrite Nat.leb_refl. lia. Qed.






Lemma Centred_step fwd n s l r :
  3 <= n -> s < n -> l < n -> r < n -> Centred n s l r ->
  Centred n (stepSel fwd n s) (stepLeft fwd n l r) (stepRight fwd n l r).
Proof.
  intros Hn Hs Hl Hr HC.
  pose proof (Nat.div_mod_eq n 2) as Hd.
  pose proof (Nat.mod_upper_bound n 2 ltac:(lia)) as Hmod.
  destruct fwd; split; ring_arith.
Qed.




(** ** Opening and closing *)

Lemma open_exact n w mn :
  1 <= n -> RingOK n (heap w) -> firstNode w = Some 0 -> menus w = [mn] ->
  open 0 w = Ok (if opened mn then w else opening n mn w).
Proof.
  intros Hn Hring Hfirst Hmenus.
  pose proof (RingOK_length _ _ Hring) as Hlen.
  unfold open, getMenu. rewrite Hmenus. cbn [lookup list_lookup bind].
  destruct (opened mn); [reflexivity|].
  unfold opening, openRequests.
  destruct (Z.eqb (openBehavior mn) OPEN_GROW).
  - rewrite Hfirst, (forEachNode_loop_ring n) by
      (try assumption; unfold walkFuel; lia).
    cbn [bind]. unfold updMenu. wsimpl. rewrite Hmenus, Nat.sub_0_r.
    reflexivity.
  - destruct (Z.eqb (openBehavior mn) OPEN_TRANSPARENCY).
    + rewrite Hfirst, (forEachNode_loop_ring n) by
        (try assumption; unfold walkFuel; lia).
      cbn [bind]. unfold updMenu. wsimpl. rewrite Hmenus, Nat.sub_0_r.
      reflexivity.
    + cbn [bind]. unfold updMenu, set_motions, set_menus. wsimpl.
      rewrite Hmenus, app_nil_r. reflexivity.
Qed.

Lemma close_exact n w mn :
  1 <= n -> RingOK n (heap w) -> firstNode w = Some 0 -> menus w = [mn] ->
  close 0 w = Ok (if opened mn then closing n mn w else w).
Proof.
  intros Hn Hring Hfirst Hmenus.
  pose proof (RingOK_length _ _ Hring) as Hlen.
  unfold close, getMenu. rewrite Hmenus. cbn [lookup list_lookup bind].
  destruct (opened mn); cbn [negb]; [|reflexivity].
  rewrite Hfirst, (forEachNode_loop_ring n) by
    (try assumption; unfold walkFuel; lia).
  cbn [bind]. unfold closing, updMenu. wsimpl. rewrite Hmenus, Nat.sub_0_r.
  reflexivity.
Qed.







(** ** The menu with no item *)

Lemma walk_empty req w :
  firstNode w = None -> forEachNode_loop (walkFuel w) req (firstNode w) w = TypeError.
Proof. intros ->. reflexivity. Qed.

(** X6: on a one-menu page to which nothing has been added the loops of
    [open] and [close] read the undefined [firstNode]: [open] on the
    closed menu throws when [openBehavior] is [OPEN_GROW] or
    [OPEN_TRANSPARENCY] and goes through otherwise; once the menu is open,
    [close] throws, [selectItem] throws and a click that hits anything
    throws, each on a property of [undefined]. *)
Theorem empty_menu_calls (P : option Properties) (cs : list Cmd) (w : World)
    (mn : Menu) :
  session P 0 cs = Ok w -> menus w = [mn] ->
  (opened mn = true ->
   close 0 w = TypeError
   /\ (enabled mn = true -> selectItem 0 w = TypeError)
   /\ (clicked w = false -> forall t, clickItem 0 (Some t) w = TypeError))
  /\ (opened mn = false ->
      open 0 w
      = if Z.eqb (openBehavior mn) OPEN_GROW
           || Z.eqb (openBehavior mn) OPEN_TRANSPARENCY
        then TypeError
        else Ok (set_menus [set_opened_enabled true mn] w)).
Proof.
  intros Hs Hmenus.
  destruct (session_Empty P cs w Hs) as (Hc & Hfirst & Hnts & _).
  split; intros Hop.
  - split; [|split].
    + unfold close, getMenu. rewrite Hmenus. cbn [lookup list_lookup bind].
      rewrite Hop. cbn [negb]. rewrite walk_empty by exact Hfirst.
      reflexivity.
    + intros Hen. unfold selectItem, getMenu. rewrite Hmenus.
      cbn [lookup list_lookup bind]. rewrite Hop, Hen, Hnts. reflexivity.
    + intros Hclk t. unfold clickItem, getMenu. rewrite Hmenus.
      cbn [lookup list_lookup bind]. rewrite Hop, Hclk, Hnts. reflexivity.
  - unfold open, getMenu. rewrite Hmenus. cbn [lookup list_lookup bind].
    rewrite Hop.
    destruct (Z.eqb (openBehavior mn) OPEN_GROW); cbn [orb].
    + rewrite walk_empty by exact Hfirst. reflexivity.
    + destruct (Z.eqb (openBehavior mn) OPEN_TRANSPARENCY).
      * rewrite walk_empty by exact Hfirst. reflexivity.
      * cbn [bind]. unfold updMenu. wsimpl. rewrite Hmenus. reflexivity.
Qed.

Lemma empty_menu_calls_witness :
  close 0 (resultWorld (session None 0 [COpen])) = TypeError
  /\ selectItem 0 (resultWorld (session None 0 [COpen])) = TypeError
  /\ (forall t,
        clickItem 0 (Some t) (resultWorld (session None 0 [COpen]))
        = TypeError).
Proof.
  destruct (empty_menu_calls None [COpen]
              (resultWorld (session None 0 [COpen]))
              (mkMenu [] 0 true true 0 vzero (mkVec3 1 0 0) vzero true 0))
    as [H _].
  - vm_compute. reflexivity.
  - vm_compute. reflexivity.
  - destruct (H eq_refl) as (H1 & H2 & H3).
    split; [exact H1|]. split; [apply H2; reflexivity|].
    apply H3. reflexivity.
Defined.

(** ** The carousel after any number of completed rotations *)



Lemma stepSel_lt fwd n s : s < n -> stepSel fwd n s < n.
Proof.
  intros Hs. destruct fwd; [apply succ_mod_lt|apply pred_mod_lt]; exact Hs.
Qed.






(** ** Sequences of rotations *)

Lemma netSel_mod n ds :
  forall s, s < n ->
    netSel n ds s = (s + steps true ds + steps false ds * (n - 1)) mod n.
Proof.
  unfold netSel, steps. induction ds as [|d ds IH]; intros s Hs.
  - cbn. rewrite Nat.add_0_r, Nat.add_0_r, Nat.mod_small by exact Hs.
    reflexivity.
  - cbn [foldl]. rewrite IH by (apply stepSel_lt, Hs).
    rewrite !filter_cons. destruct d; cbn [stepSel].
    + rewrite succ_mod_mod by exact Hs.
      destruct (decide (true = true)) as [_|?]; [|congruence].
      destruct (decide (true = false)) as [?|_]; [congruence|].
      cbn [length]. rewrite <- Nat.add_assoc, Nat.Div0.add_mod_idemp_l.
      f_equal. lia.
    + rewrite pred_mod_mod by exact Hs.
      destruct (decide (false = true)) as [?|_]; [congruence|].
      destruct (decide (false = false)) as [_|?]; [|congruence].
      cbn [length]. rewrite <- Nat.add_assoc, Nat.Div0.add_mod_idemp_l.
      f_equal. lia.
Qed.

Lemma Nav_run n :
  2 <= n ->
  forall ds s l r w,
    Nav n s l r w ->
    exists w' l' r',
      run 0 (rotCmd <$> ds) w = Ok w' /\ Nav n (netSel n ds s) l' r' w'
      /\ (ds <> [] -> r' = pred_mod n l').
Proof.
  intros Hn. induction ds as [|d ds IH]; intros s l r w HNav.
  - exists w, l, r. split; [reflexivity|]. split; [exact HNav|]. congruence.
  - destruct (rotate_Nav d n s l r w Hn HNav) as (w1 & Hrun & HNav1 & _).
    destruct (IH _ _ _ w1 HNav1) as (w' & l' & r' & Hrun' & HNav' & Hadj).
    exists w', l', r'. split; [|split; [exact HNav'|]].
    + cbn [fmap list_fmap run]. unfold rotCmd at 1.
      destruct d; cbn [exec]; rewrite Hrun; exact Hrun'.
    + intros _. destruct ds as [|d' ds]; [|apply Hadj; discriminate].
      cbn [fmap list_fmap run] in Hrun'. injection Hrun' as <-.
      destruct HNav as [HSt _]. destruct HNav1 as [HSt1 _].
      destruct HNav' as [HSt' _].
      pose proof (st_left _ _ _ _ _ HSt1) as E1.
      pose proof (st_right _ _ _ _ _ HSt1) as E2.
      rewrite (st_left _ _ _ _ _ HSt') in E1.
      rewrite (st_right _ _ _ _ _ HSt') in E2.
      injection E1 as ->. injection E2 as ->.
      apply stepRight_adjacent, (st_l _ _ _ _ _ HSt).
Qed.

(** X8: rotations add up.  In every session of a one-menu page with
    [n >= 2] items whose menu is open, any sequence of [moveToNext] and
    [moveToPrev] calls returns, and the one selected node afterwards is
    the one reached from the selection before by one step along [next]
    for every [moveToNext] and one step along [prev] for every
    [moveToPrev]: index [s + nexts + prevs * (n - 1)] modulo [n].  So [n]
    calls in one direction, or as many calls one way as the other in any
    order, bring the selection back; and after at least one call the
    edges are adjacent across the seam. *)
Theorem rotations_add_up (P : option Properties) (n : nat) (cs : list Cmd)
    (w : World) (ds : list bool) :
  2 <= n -> session P n cs = Ok w -> isOpen 0 w = true ->
  exists s w',
    nodeToSelect w = Some s
    /\ run 0 (rotCmd <$> ds) w = Ok w'
    /\ nodeToSelect w'
       = Some ((s + steps true ds + steps false ds * (n - 1)) mod n)
    /\ selectedNodes w'
       = [(s + steps true ds + steps false ds * (n - 1)) mod n]
    /\ (ds <> [] -> seamAdjacent w').
Proof.
  intros Hn Hs Hop.
  pose proof (session_det P n cs w ltac:(lia) Hs) as HG.
  destruct (Good_Nav n w Hn HG Hop) as (s & l & r & HNav & _).
  destruct (Nav_run n Hn ds s l r w HNav) as (w' & l' & r' & Hrun & HNav' & Hadj).
  pose proof HNav as [HSt _]. pose proof HNav' as [HSt' _].
  rewrite (netSel_mod n ds s (st_s _ _ _ _ _ HSt)) in HSt'.
  exists s, w'.
  split; [apply (st_nts _ _ _ _ _ HSt)|]. split; [exact Hrun|].
  split; [apply (st_nts _ _ _ _ _ HSt')|].
  split.
  - apply (selectedNodes_SelIs n); [apply HSt'|apply HSt'|apply HSt'].
  - intros Hne. rewrite (Hadj Hne) in HSt'. apply (St_seam n _ _ w' HSt').
Qed.

Lemma rotations_add_up_witness :
  exists s w',
    nodeToSelect (resultWorld (session None 5 [COpen; CNext])) = Some s
    /\ run 0 (rotCmd <$> [true; false; false; true; true])
         (resultWorld (session None 5 [COpen; CNext])) = Ok w'
    /\ nodeToSelect w'
       = Some ((s + steps true [true; false; false; true; true]
                + steps false [true; false; false; true; true] * (5 - 1))
               mod 5)
    /\ selectedNodes w'
       = [(s + steps true [true; false; false; true; true]
           + steps false [true; false; false; true; true] * (5 - 1)) mod 5]
    /\ ([true; false; false; true; true] <> [] -> seamAdjacent w').
Proof.
  apply (rotations_add_up None 5 [COpen; CNext]).
  - lia.
  - vm_compute. reflexivity.
  - vm_compute. reflexivity.
Defined.

(** ** The way a click takes *)

Lemma St_navView n s l r w w' :
  navView w' = navView w -> St n s l r w -> St n s l r w'.
Proof.
  unfold navView. intros E. injection E as E1 E2 E3 E4 E5 E6 E7 E8.
  intros [Hring Hsel Hs Hl Hr Hfirst Hcount Hidle Hnts Hleft Hright].
  split; try assumption; try congruence;
    unfold RingOK, SelIs in *; congruence.
Qed.

Lemma St_unique n s l r s' l' r' w :
  St n s l r w -> St n s' l' r' w -> s' = s /\ l' = l /\ r' = r.
Proof.
  intros H H'.
  pose proof (st_nts _ _ _ _ _ H) as E1. rewrite (st_nts _ _ _ _ _ H') in E1.
  pose proof (st_left _ _ _ _ _ H) as E2. rewrite (st_left _ _ _ _ _ H') in E2.
  pose proof (st_right _ _ _ _ _ H) as E3.
  rewrite (st_right _ _ _ _ _ H') in E3.
  injection E1 as ->. injection E2 as ->. injection E3 as ->. auto.
Qed.

Lemma exec_Tidy n c w :
  3 <= n -> Tidy n w -> exists w', exec 0 c w = Ok w' /\ Tidy n w'.
Proof.
  intros Hn (HG & Htm & s & l & r & HSt & HC).
  destruct (exec_Good n c w ltac:(lia) HG) as (w' & Hrun & HG').
  exists w'. split; [exact Hrun|]. split; [exact HG'|].
  pose proof HG as
    [Hring Hfirst Hcount Hidle Hclk _ (mn & Hmenus & Hrev & Hen)].
  assert (Hquiet : forall w0, navView w0 = navView w -> timers w0 = timers w ->
            w' = w0 ->
            timers w' = [] /\ exists s l r, St n s l r w' /\ Centred n s l r).
  { intros w0 E1 E2 ->. split; [congruence|].
    exists s, l, r. split; [|exact HC]. apply (St_navView n s l r w); auto. }
  assert (Hturn : forall fwd : bool,
            opened mn = true ->
            (if fwd then moveToNext 0 w else moveToPrev 0 w) = Ok w' ->
            timers w' = [] /\ exists s l r, St n s l r w' /\ Centred n s l r).
  { intros fwd Hop Hrot.
    assert (HNav : Nav n s l r w).
    { split; [exact HSt|]. split; [exact Hclk|]. exists mn. auto. }
    destruct (rotate_Nav fwd n s l r w ltac:(lia) HNav)
      as (w1 & Hrot1 & [HSt1 _] & Ht1).
    rewrite Hrot in Hrot1. injection Hrot1 as <-.
    split; [congruence|].
    eexists _, _, _. split; [exact HSt1|].
    apply Centred_step; try assumption; apply HSt. }
  destruct c; cbn [exec] in Hrun.
  - rewrite (open_exact n w mn ltac:(lia) Hring Hfirst Hmenus) in Hrun.
    injection Hrun as Hrun. symmetry in Hrun.
    destruct (opened mn); (refine (Hquiet _ _ _ Hrun); reflexivity).
  - rewrite (close_exact n w mn ltac:(lia) Hring Hfirst Hmenus) in Hrun.
    injection Hrun as Hrun. symmetry in Hrun.
    destruct (opened mn); (refine (Hquiet _ _ _ Hrun); reflexivity).
  - destruct (opened_cases mn) as [Hop|Hop].
    + apply (Hturn true Hop Hrun).
    + rewrite (moveToNext_blocked w mn Hmenus) in Hrun by (left; exact Hop).
      injection Hrun as Hrun. symmetry in Hrun.
      (refine (Hquiet _ _ _ Hrun); reflexivity).
  - destruct (opened_cases mn) as [Hop|Hop].
    + apply (Hturn false Hop Hrun).
    + rewrite (moveToPrev_blocked w mn Hmenus) in Hrun by (left; exact Hop).
      injection Hrun as Hrun. symmetry in Hrun.
      (refine (Hquiet _ _ _ Hrun); reflexivity).
  - rewrite (selectItem_quiet n s w mn Hring (st_s _ _ _ _ _ HSt)
               (st_nts _ _ _ _ _ HSt) Hmenus) in Hrun.
    injection Hrun as Hrun. symmetry in Hrun.
    destruct (negb (opened mn) || negb (enabled mn));
      (refine (Hquiet _ _ _ Hrun); reflexivity).
Qed.

Lemma run_Tidy n cs :
  3 <= n -> forall w, Tidy n w -> exists w', run 0 cs w = Ok w' /\ Tidy n w'.
Proof.
  intros Hn. induction cs as [|c cs IH]; intros w HT.
  - exists w. split; [reflexivity|exact HT].
  - destruct (exec_Tidy n c w Hn HT) as (w1 & Hrun & HT1).
    destruct (IH w1 HT1) as (w' & Hrun' & HT').
    exists w'. split; [|exact HT'].
    cbn [run]. rewrite Hrun. exact Hrun'.
Qed.

Lemma Built_Tidy P n w : 3 <= n -> Built P n w -> Tidy n w.
Proof.
  intros Hn HB. split; [apply (Built_Good P n w ltac:(lia) HB)|].
  pose proof HB as [_ _ _ _ _ _ Hrest].
  unfold restOf in Hrest. injection Hrest as _ _ _ _ _ _ _ _ R9.
  split; [exact R9|].
  exists 0, (leftIndex n), (n / 2).
  split; [apply (Built_St P n w ltac:(lia) HB)|].
  pose proof (Nat.div_mod_eq n 2) as Hd.
  pose proof (Nat.mod_upper_bound n 2 ltac:(lia)) as Hmod.
  unfold Centred, distTo, leftIndex. cbn [Nat.leb].
  destruct (Nat.eqb_spec n 2); lia.
Qed.

Lemma session_Tidy P n cs w :
  3 <= n -> session P n cs = Ok w -> Tidy n w.
Proof.
  intros Hn H.
  destruct (freshMenu_built P n ltac:(lia)) as (w0 & Hw0 & HB).
  destruct (run_Tidy n cs Hn w0 (Built_Tidy P n w0 Hn HB)) as (w' & Hrun & HT).
  unfold session in H. rewrite Hw0 in H. cbn [bind] in H.
  rewrite Hrun in H. injection H as <-. exact HT.
Qed.

Lemma fwdArc_distTo n s r t :
  s < n -> r < n -> t < n ->
  fwdArc n s r (Z.of_nat t)
  = Nat.leb (distTo true n s t) (distTo true n s r).
Proof.
  intros Hs Hr Ht. unfold fwdArc, distTo.
  destruct (Nat.leb_spec s r), (Nat.leb_spec s t); bool_cases.
Qed.

Lemma bwdArc_distTo n s l t :
  s < n -> l < n -> t < n ->
  bwdArc n s l (Z.of_nat t)
  = Nat.leb (distTo false n s t) (distTo false n s l).
Proof.
  intros Hs Hl Ht. unfold bwdArc, distTo.
  destruct (Nat.leb_spec l s), (Nat.leb_spec t s); bool_cases.
Qed.

Lemma distTo_back n s t :
  s < n -> t < n -> s <> t -> distTo false n s t = n - distTo true n s t.
Proof. intros Hs Ht Hne. unfold distTo. bool_cases. Qed.

(** A rotation toward a target, its interval run to the end: the count of
    rotations, and the interval cleared. *)
Lemma rotateToward_clears (fwd : bool) n s l r w t fuel :
  2 <= n -> Nav n s l r w -> timers w = [] -> t < n -> s <> t ->
  n - 1 <= fuel ->
  exists o w1 w',
    rotateToward 0 fwd (Z.of_nat t) w = Ok (o, w1)
    /\ match o with
       | Rotated _ None => Ok (1, w1)
       | Rotated _ (Some i) => do (k, w2) <- runInterval fuel i w1; Ok (S k, w2)
       | _ => Ok (0, w1)
       end = Ok (distTo fwd n s t, w')
    /\ nodeToSelect w' = Some t
    /\ (timers w' = [] \/ timers w' = [None]).
Proof.
  intros Hn HNav Htm Ht Hne Hfuel.
  pose proof HNav as (HSt & _). pose proof (st_s _ _ _ _ _ HSt) as Hs.
  destruct (rotate_Nav fwd n s l r w Hn HNav) as (w1 & Hrot & HNav1 & Ht1).
  set (l1 := stepLeft fwd n l r) in *. set (r1 := stepRight fwd n l r) in *.
  pose proof HNav1 as (HSt1 & _).
  unfold rotateToward. rewrite Hrot. cbn [bind].
  rewrite (st_nts _ _ _ _ _ HSt1).
  destruct (getNode_the n w1 (stepSel fwd n s) (st_ring _ _ _ _ _ HSt1)
              (st_s _ _ _ _ _ HSt1)) as (G & I & _).
  rewrite G. cbn [bind]. rewrite I, Zeqb_of_nat.
  rewrite (distTo_step fwd n s t Hs Ht Hne).
  pose proof (distTo_bound fwd n s t Hs Ht) as Hb.
  rewrite (distTo_step fwd n s t Hs Ht Hne) in Hb.
  destruct (Nat.eqb_spec (stepSel fwd n s) t) as [E|E]; cbn [negb].
  - exists (Rotated fwd None), w1, w1.
    split; [reflexivity|].
    split; [|split; [rewrite <- E; apply (st_nts _ _ _ _ _ HSt1)
                    |left; congruence]].
    rewrite E. replace (distTo fwd n t t) with 0; [reflexivity|].
    unfold distTo. destruct fwd; bool_cases.
  - unfold setInterval.
    set (w2 := set_timers (timers w1 ++ [Some (mkTimer 0 fwd (Z.of_nat t))]) w1).
    assert (HNav2 : Nav n (stepSel fwd n s) l1 r1 w2)
      by apply Nav_timers, HNav1.
    assert (Hlive : timers w2 !! length (timers w1)
                    = Some (Some (mkTimer 0 fwd (Z.of_nat t)))).
    { unfold w2. wsimpl. apply lookup_snoc. reflexivity. }
    destruct (runInterval_reaches fwd n t (length (timers w1)) Hn Ht
                _ _ l1 r1 w2 fuel HNav2 E eq_refl ltac:(lia) Hlive)
      as (w' & l' & r' & Hrun & [HSt' _] & _ & Ht').
    exists (Rotated fwd (Some (length (timers w1)))), w2, w'.
    split; [reflexivity|]. rewrite Hrun. cbn [bind].
    split; [reflexivity|]. split; [apply (st_nts _ _ _ _ _ HSt')|].
    right. rewrite Ht'. unfold w2. wsimpl. rewrite Ht1, Htm. reflexivity.
Qed.

(** X9: a click takes the short way round.  In every session of a
    one-menu page with [n >= 3] items whose menu is open, a click on the
    item with id [t], followed to the end of the interval it may start,
    selects that item after exactly the smaller of the two distances
    from the selection, along [next] and along [prev] (along [next] when
    they are equal): never more than [n / 2] single-step rotations; and
    when it is over no interval is left running. *)
Theorem click_takes_short_way (P : option Properties) (n : nat)
    (cs : list Cmd) (w : World) (t fuel : nat) :
  3 <= n -> session P n cs = Ok w -> isOpen 0 w = true -> t < n ->
  n - 1 <= fuel ->
  exists s k w',
    nodeToSelect w = Some s
    /\ clickAndSettle fuel 0 (Some (Z.of_nat t)) w = Ok (k, w')
    /\ k = Nat.min (distTo true n s t) (distTo false n s t)
    /\ k <= n / 2
    /\ nodeToSelect w' = Some t
    /\ (timers w' = [] \/ timers w' = [None]).
Proof.
  intros Hn Hs Hop Ht Hfuel.
  destruct (session_Tidy P n cs w Hn Hs)
    as (HG & Htm & s & l & r & HSt & [HCr HCl]).
  destruct (Good_Nav n w ltac:(lia) HG Hop) as (s' & l' & r' & HNav & _).
  destruct (St_unique n s l r s' l' r' w HSt (proj1 HNav)) as (-> & -> & ->).
  pose proof HNav as (_ & Hclk & mn & Hmenus & Hopn & Hen & Hrev).
  pose proof (st_s _ _ _ _ _ HSt) as Hs'.
  pose proof (st_l _ _ _ _ _ HSt) as Hl.
  pose proof (st_r _ _ _ _ _ HSt) as Hr.
  pose proof (Nat.div_mod_eq n 2) as Hd.
  pose proof (Nat.mod_upper_bound n 2 ltac:(lia)) as Hmod.
  exists s. unfold clickAndSettle.
  rewrite (clickItem_Nav n s l r w _ HNav), Zeqb_of_nat.
  destruct (Nat.eqb_spec s t) as [->|Hne].
  - rewrite (selectItem_quiet n t w mn (st_ring _ _ _ _ _ HSt) Ht
               (st_nts _ _ _ _ _ HSt) Hmenus).
    rewrite Hopn, Hen. cbn [negb orb bind].
    eexists _, _. split; [apply (st_nts _ _ _ _ _ HSt)|].
    split; [reflexivity|].
    split; [unfold distTo; rewrite Nat.leb_refl; lia|].
    split; [lia|]. split; [apply (st_nts _ _ _ _ _ HSt)|].
    left. exact Htm.
  - assert (Hls : l <> s).
    { intros ->. rewrite distTo_self in HCl. lia. }
    pose proof (distTo_back n s t Hs' Ht Hne) as Hbt.
    pose proof (distTo_back n s l Hs' Hl ltac:(auto)) as Hbl.
    pose proof (distTo_bound true n s t Hs' Ht) as Hb.
    assert (Hpos : 1 <= distTo true n s t).
    { destruct (distTo true n s t) eqn:E; [|lia].
      exfalso. apply Hne. apply (distTo_zero true n); assumption. }
    rewrite (fwdArc_distTo n s r t Hs' Hr Ht), HCr.
    rewrite (bwdArc_distTo n s l t Hs' Hl Ht), Hbl, HCl, Hbt.
    destruct (Nat.leb_spec (distTo true n s t) (n / 2)) as [Hle|Hgt].
    + destruct (rotateToward_clears true n s l r w t fuel ltac:(lia) HNav Htm
                  Ht Hne Hfuel) as (o & w1 & w' & Hrot & Hrest & Hnts & Htm').
      rewrite Hrot. cbn [bind].
      exists (distTo true n s t), w'.
      split; [apply (st_nts _ _ _ _ _ HSt)|].
      split; [destruct o as [| |f [i|]]; exact Hrest|].
      split; [lia|]. split; [exact Hle|]. split; assumption.
    + destruct (Nat.leb_spec (n - distTo true n s t) (n - (n / 2 + 1)));
        [|lia].
      destruct (rotateToward_clears false n s l r w t fuel ltac:(lia) HNav Htm
                  Ht Hne Hfuel) as (o & w1 & w' & Hrot & Hrest & Hnts & Htm').
      rewrite Hrot. cbn [bind].
      exists (distTo false n s t), w'.
      split; [apply (st_nts _ _ _ _ _ HSt)|].
      split; [destruct o as [| |f [i|]]; exact Hrest|].
      split; [lia|]. split; [lia|]. split; assumption.
Qed.

Lemma click_takes_short_way_witness :
  exists s k w',
    nodeToSelect (resultWorld (session None 6 [COpen; CNext])) = Some s
    /\ clickAndSettle 5 0 (Some (Z.of_nat 5))
         (resultWorld (session None 6 [COpen; CNext])) = Ok (k, w')
    /\ k = Nat.min (distTo true 6 s 5) (distTo false 6 s 5)
    /\ k <= 6 / 2
    /\ nodeToSelect w' = Some 5
    /\ (timers w' = [] \/ timers w' = [None]).
Proof.
  apply (click_takes_short_way None 6 [COpen; CNext]).
  - lia.
  - vm_compute. reflexivity.
  - vm_compute. reflexivity.
  - lia.
  - lia.
Defined.

(** ** The menu that does not revolve *)

Lemma Linear_step (fwd : bool) n s w :
  2 <= n -> Linear n s w ->
  exists w',
    exec 0 (rotCmd fwd) w = Ok w' /\ Linear n (clampSel fwd n s) w'
    /\ (clampSel fwd n s = s -> w' = set_keyPressed false w).
Proof.
  intros Hn (l & r & mn & HSt & Hmenus & Hop & Hrev & Hsel & Hlen).
  pose proof (st_s _ _ _ _ _ HSt) as Hs.
  assert (Hg : forall b, rotationBlocked mn b w = b).
  { intros b. unfold rotationBlocked.
    rewrite Hop, Hrev, (st_idle _ _ _ _ _ HSt), (st_count _ _ _ _ _ HSt).
    replace (Z.of_nat n <=? 1)%Z with false by (symmetry; apply Z.leb_gt; lia).
    reflexivity. }
  destruct fwd; cbn [rotCmd exec clampSel].
  - destruct (Nat.eq_dec s (n - 1)) as [Hlast|Hmid].
    + exists (set_keyPressed false w).
      replace (Nat.min (S s) (n - 1)) with s by lia.
      split; [|split; [|reflexivity]].
      * unfold moveToNext, getMenu. rewrite Hmenus.
        cbn [lookup list_lookup bind]. rewrite Hg, Hlen, Hsel.
        replace (Z.of_nat n - 1 <=? Z.of_nat s)%Z with true
          by (symmetry; apply Z.leb_le; lia).
        reflexivity.
      * exists l, r, mn.
        split; [apply (St_navView n s l r w); [reflexivity|exact HSt]|].
        auto.
    + destruct (moveToNext_run n s l r w mn Hn HSt Hmenus) as
        (w' & Hrun & HSt' & Hm' & _).
      { rewrite Hg, Hlen, Hsel. apply Z.leb_gt. lia. }
      assert (Hsucc : succ_mod n s = S s).
      { unfold succ_mod. destruct (Nat.eqb_spec (S s) n); lia. }
      rewrite Hsucc in HSt', Hm'.
      replace (Nat.min (S s) (n - 1)) with (S s) by lia.
      exists w'. split; [exact Hrun|]. split; [|lia].
      eexists _, _, _. split; [exact HSt'|]. split; [exact Hm'|].
      cbn [opened revolvingMenu itemSelected itemTray set_itemSelected]. auto.
  - destruct (Nat.eq_dec s 0) as [Hfirst|Hmid].
    + exists (set_keyPressed false w). subst s. cbn [Nat.sub].
      split; [|split; [|reflexivity]].
      * unfold moveToPrev, getMenu. rewrite Hmenus.
        cbn [lookup list_lookup bind]. rewrite Hg, Hsel. reflexivity.
      * exists l, r, mn.
        split; [apply (St_navView n 0 l r w); [reflexivity|exact HSt]|].
        auto.
    + destruct (moveToPrev_run n s l r w mn Hn HSt Hmenus) as
        (w' & Hrun & HSt' & Hm' & _).
      { rewrite Hg, Hsel. apply Z.leb_gt. lia. }
      assert (Hpred : pred_mod n s = s - 1).
      { unfold pred_mod. destruct (Nat.eqb_spec s 0); lia. }
      rewrite Hpred in HSt', Hm'.
      exists w'. split; [exact Hrun|]. split; [|lia].
      eexists _, _, _. split; [exact HSt'|]. split; [exact Hm'|].
      cbn [opened revolvingMenu itemSelected itemTray set_itemSelected]. auto.
Qed.

Lemma Linear_run n :
  2 <= n ->
  forall ds s w,
    Linear n s w ->
    exists w',
      run 0 (rotCmd <$> ds) w = Ok w'
      /\ Linear n (clampWalk n ds s) w'.
Proof.
  intros Hn. unfold clampWalk. induction ds as [|d ds IH]; intros s w HL.
  - exists w. split; [reflexivity|exact HL].
  - destruct (Linear_step d n s w Hn HL) as (w1 & Hrun & HL1 & _).
    destruct (IH _ w1 HL1) as (w' & Hrun' & HL').
    exists w'. split; [|exact HL'].
    cbn [fmap list_fmap run]. rewrite Hrun. exact Hrun'.
Qed.

Lemma Linear_opened P n w :
  2 <= n -> Built P n w ->
  exists w0, open 0 w = Ok w0 /\ Linear n 0 (setRevolving 0 false w0).
Proof.
  intros Hn HB.
  destruct (open_Built P n w Hn HB) as (w0 & Hopen & [HSt _]).
  exists w0. split; [exact Hopen|].
  pose proof HB as [Hring _ _ _ _ Hmenus Hrest].
  unfold restOf in Hrest. injection Hrest as _ _ _ R4 _ _ _ _ _.
  rewrite (open_exact n w _ ltac:(lia) Hring R4 Hmenus) in Hopen.
  cbn [builtMenu opened] in Hopen. injection Hopen as <-.
  eexists _, _, _.
  split; [refine (St_navView n _ _ _ _ _ _ HSt); reflexivity|].
  split; [reflexivity|].
  cbn [opened revolvingMenu itemSelected itemTray set_revolvingMenu
       set_opened_enabled builtMenu].
  rewrite length_seq. auto.
Qed.

(** X10: a menu that does not revolve never wraps.  On a one-menu page
    with [n >= 2] items, opened, once [revolvingMenu] has been set to
    [false] every sequence of [moveToNext] and [moveToPrev] calls returns
    and moves the selection one item at a time between the first and the
    last: [moveToNext] on the last item and [moveToPrev] on the first
    leave the selection where it is.  The one selected node afterwards is
    the one this clamped walk ends on, and [itemSelected] is its id. *)
Theorem linear_menu_never_wraps (P : option Properties) (n : nat)
    (ds : list bool) :
  2 <= n ->
  exists w0 w mn,
    session P n [COpen] = Ok w0
    /\ run 0 (rotCmd <$> ds) (setRevolving 0 false w0) = Ok w
    /\ nodeToSelect w = Some (clampWalk n ds 0)
    /\ selectedNodes w = [clampWalk n ds 0]
    /\ menus w = [mn]
    /\ itemSelected mn = Z.of_nat (clampWalk n ds 0).
Proof.
  intros Hn.
  destruct (freshMenu_built P n ltac:(lia)) as (wb & Hwb & HB).
  destruct (Linear_opened P n wb Hn HB) as (w0 & Hopen & HL0).
  destruct (Linear_run n Hn ds 0 _ HL0)
    as (w & Hrun & l & r & mn & HSt & Hmenus & _ & _ & Hsel & _).
  exists w0, w, mn.
  split.
  { unfold session. rewrite Hwb. cbn [bind run exec]. rewrite Hopen.
    reflexivity. }
  split; [exact Hrun|]. split; [apply (st_nts _ _ _ _ _ HSt)|].
  split; [|auto].
  apply (selectedNodes_SelIs n); apply HSt.
Qed.

Lemma linear_menu_never_wraps_witness :
  exists w0 w mn,
    session None 3 [COpen] = Ok w0
    /\ run 0 (rotCmd <$> [true; true; true; false])
         (setRevolving 0 false w0) = Ok w
    /\ nodeToSelect w
       = Some (clampWalk 3 [true; true; true; false] 0)
    /\ selectedNodes w
       = [clampWalk 3 [true; true; true; false] 0]
    /\ menus w = [mn]
    /\ itemSelected mn
       = Z.of_nat (clampWalk 3 [true; true; true; false] 0).
Proof. apply (linear_menu_never_wraps None 3 [true; true; true; false]). lia. Defined.

(** ** The keyboard *)

Lemma exec_unlocked n c w w' :
  1 <= n -> Good n w -> keyPressed w = false -> exec 0 c w = Ok w' ->
  keyPressed w' = false.
Proof.
  intros Hn HG Hk Hrun.
  pose proof HG as
    [Hring Hfirst Hcount Hidle Hclk (s & Hs & Hnts & Hsel & Hedges)
       (mn & Hmenus & Hrev & Hen)].
  assert (Hturn : forall fwd : bool,
            (if fwd then moveToNext 0 w else moveToPrev 0 w) = Ok w' ->
            keyPressed w' = false).
  { intros fwd Hrot.
    destruct (opened_cases mn) as [Hop|Hop];
      [destruct (Nat.eq_dec n 1) as [->|Hn1]|].
    - destruct fwd;
        [rewrite (moveToNext_blocked w mn Hmenus) in Hrot by (right; lia)
        |rewrite (moveToPrev_blocked w mn Hmenus) in Hrot by (right; lia)];
        injection Hrot as <-; reflexivity.
    - destruct (Good_St n w ltac:(lia) HG) as (s' & l & r & HSt & _).
      destruct fwd.
      + destruct (moveToNext_St n s' l r w mn ltac:(lia) HSt Hmenus Hop Hrev)
          as (w1 & Hrun1 & _ & _ & Hby).
        rewrite Hrot in Hrun1. injection Hrun1 as <-.
        unfold bystanders in Hby. injection Hby as B1 _ _ _. congruence.
      + destruct (moveToPrev_St n s' l r w mn ltac:(lia) HSt Hmenus Hop Hrev)
          as (w1 & Hrun1 & _ & _ & Hby).
        rewrite Hrot in Hrun1. injection Hrun1 as <-.
        unfold bystanders in Hby. injection Hby as B1 _ _ _. congruence.
    - destruct fwd;
        [rewrite (moveToNext_blocked w mn Hmenus) in Hrot by (left; exact Hop)
        |rewrite (moveToPrev_blocked w mn Hmenus) in Hrot by (left; exact Hop)];
        injection Hrot as <-; reflexivity. }
  destruct c; cbn [exec] in Hrun.
  - rewrite (open_exact n w mn Hn Hring Hfirst Hmenus) in Hrun.
    injection Hrun as <-. destruct (opened mn); exact Hk.
  - rewrite (close_exact n w mn Hn Hring Hfirst Hmenus) in Hrun.
    injection Hrun as <-. destruct (opened mn); exact Hk.
  - apply (Hturn true Hrun).
  - apply (Hturn false Hrun).
  - rewrite (selectItem_quiet n s w mn Hring Hs Hnts Hmenus) in Hrun.
    injection Hrun as <-.
    destruct (negb (opened mn) || negb (enabled mn)); [reflexivity|exact Hk].
Qed.

Lemma run_unlocked n cs :
  1 <= n ->
  forall w w', Good n w -> keyPressed w = false -> run 0 cs w = Ok w' ->
               keyPressed w' = false.
Proof.
  intros Hn. induction cs as [|c cs IH]; intros w w' HG Hk Hrun;
    cbn [run] in Hrun.
  - injection Hrun as <-. exact Hk.
  - destruct (exec_Good n c w Hn HG) as (w1 & E & HG1).
    rewrite E in Hrun. cbn [bind] in Hrun.
    apply (IH w1 w' HG1 (exec_unlocked n c w w1 Hn HG Hk E) Hrun).
Qed.

Lemma session_unlocked P n cs w :
  1 <= n -> session P n cs = Ok w -> keyPressed w = false.
Proof.
  intros Hn H.
  destruct (freshMenu_built P n Hn) as (w0 & Hw0 & HB).
  unfold session in H. rewrite Hw0 in H. cbn [bind] in H.
  apply (run_unlocked n cs Hn w0 w (Built_Good P n w0 Hn HB)); [|exact H].
  destruct HB as [_ _ _ _ _ _ Hrest].
  unfold restOf in Hrest. injection Hrest as R1 _ _ _ _ _ _ _ _. exact R1.
Qed.

Lemma Nav_keyPressed n s l r w b :
  Nav n s l r w -> Nav n s l r (set_keyPressed b w).
Proof.
  intros ([Hring Hsel Hs Hl Hr Hfirst Hcount Hidle Hnts Hleft Hright]
            & Hclk & Hmn).
  split; [split; assumption|]. split; assumption.
Qed.

Lemma keydown_locked m key w mn :
  menus w !! m = Some mn -> keyPressed w = true -> keydown m key w = Ok w.
Proof.
  intros Hm Hk. unfold keydown, getMenu. rewrite Hm. cbn [bind].
  rewrite Hk. reflexivity.
Qed.

Lemma settle_unlocks w ms mo :
  motions w = ms ++ [mo] -> ~ keepsPlace mo \/ (exists a act, mo = Pulse a act) ->
  keyPressed (settle w) = false.
Proof.
  intros Hm Hmo. unfold settle. wsimpl. rewrite Hm, foldl_app. cbn [foldl].
  destruct Hmo as [Hmo|(a & act & ->)]; [|reflexivity].
  destruct mo; try reflexivity; exfalso; apply Hmo; exact I.
Qed.

(** X11: one keystroke, one action, until its animation is over.  In
    every session of a one-menu page with [n >= 2] items whose menu is
    open, a [keydown] of the previous, next or select key runs
    [moveToPrev], [moveToNext] or [selectItem], which go through and send
    their requests, and leaves [keyPressed] set; every further [keydown],
    whatever its key, then changes nothing; once the requests have
    completed [keyPressed] is clear again.  A [keydown] of any other key
    changes nothing at all. *)
Theorem keystroke_locks_until_done (P : option Properties) (n : nat)
    (cs : list Cmd) (w : World) (key : string) :
  2 <= n -> session P n cs = Ok w -> isOpen 0 w = true ->
  if String.eqb key prevKey || String.eqb key nextKey || String.eqb key selectKey
  then exists w1,
         keydown 0 key w = Ok w1
         /\ exec 0 (if String.eqb key prevKey then CPrev
                    else if String.eqb key nextKey then CNext else CSelect)
              (set_keyPressed true w) = Ok w1
         /\ keyPressed w1 = true
         /\ length (motions w) < length (motions w1)
         /\ (forall key', keydown 0 key' w1 = Ok w1)
         /\ keyPressed (settle w1) = false
  else keydown 0 key w = Ok w.
Proof.
  intros Hn Hs Hop.
  pose proof (session_det P n cs w ltac:(lia) Hs) as HG.
  pose proof (session_unlocked P n cs w ltac:(lia) Hs) as Hk.
  destruct (Good_Nav n w Hn HG Hop) as (s & l & r & HNav & _).
  pose proof (Nav_keyPressed n s l r w true HNav) as HNav1.
  pose proof HNav1 as (HSt & Hclk & mn & Hmenus & Hopn & Hen & Hrev).
  assert (Hm0 : menus w !! 0 = Some mn).
  { change (menus w) with (menus (set_keyPressed true w)). rewrite Hmenus.
    reflexivity. }
  assert (Hkd : keydown 0 key w
                = if String.eqb key prevKey
                  then moveToPrev 0 (set_keyPressed true w)
                  else if String.eqb key nextKey
                       then moveToNext 0 (set_keyPressed true w)
                       else if String.eqb key selectKey
                            then selectItem 0 (set_keyPressed true w)
                            else Ok (set_keyPressed false (set_keyPressed true w))).
  { unfold keydown, getMenu. rewrite Hm0. cbn [bind]. rewrite Hk, Hen.
    reflexivity. }
  assert (Hlock : forall w1, menus w1 !! 0 = Some mn \/
                             (exists z, menus w1 = [set_itemSelected z mn]) ->
                    keyPressed w1 = true ->
                    forall key', keydown 0 key' w1 = Ok w1).
  { intros w1 [Hm|(z & Hm)] Hk1 key'.
    - apply (keydown_locked 0 key' w1 mn Hm Hk1).
    - apply (keydown_locked 0 key' w1 (set_itemSelected z mn)); [|exact Hk1].
      rewrite Hm. reflexivity. }
  assert (Hturn : forall fwd : bool,
            exists w1,
              (if fwd then moveToNext 0 (set_keyPressed true w)
               else moveToPrev 0 (set_keyPressed true w)) = Ok w1
              /\ keyPressed w1 = true
              /\ length (motions w) < length (motions w1)
              /\ (forall key', keydown 0 key' w1 = Ok w1)
              /\ keyPressed (settle w1) = false).
  { intros fwd.
    assert (Hg : forall b, rotationBlocked mn b (set_keyPressed true w) = false)
      by (intros b; apply (Nav_unblocked n s l r _ mn b Hn HNav1 Hmenus)).
    assert (Hseq : seq 0 n = seq 0 (n - 1) ++ [n - 1]).
    { replace n with (S (n - 1)) at 1 by lia. apply seq_S. }
    destruct fwd.
    - destruct (moveToNext_run n s l r _ mn Hn HSt Hmenus
                  (Hg _))
        as (w1 & Hrun & _ & Hm1 & Hby & _ & Hmo).
      unfold bystanders in Hby. injection Hby as B1 _ _ _.
      exists w1. split; [exact Hrun|]. split; [exact B1|].
      split; [rewrite Hmo, length_app, length_fmap, length_seq; wsimpl; lia|].
      split; [apply Hlock; [right; eexists; exact Hm1|exact B1]|].
      rewrite Hseq, fmap_app, app_assoc in Hmo.
      apply (settle_unlocks _ _ _ Hmo). left. intros [].
    - destruct (moveToPrev_run n s l r _ mn Hn HSt Hmenus
                  (Hg _))
        as (w1 & Hrun & _ & Hm1 & Hby & _ & Hmo).
      unfold bystanders in Hby. injection Hby as B1 _ _ _.
      exists w1. split; [exact Hrun|]. split; [exact B1|].
      split; [rewrite Hmo, length_app, length_fmap; cbn [length]; wsimpl; lia|].
      split; [apply Hlock; [right; eexists; exact Hm1|exact B1]|].
      assert (Hlast : exists ks k, 0 :: downFrom (n - 1) = ks ++ [k]).
      { destruct (n - 1) as [|k] eqn:E; [lia|].
        unfold downFrom. rewrite <- cons_seq, reverse_cons.
        exists (0 :: reverse (seq 2 k)), 1. reflexivity. }
      destruct Hlast as (ks & k & Hlast).
      rewrite Hlast, fmap_app, app_assoc in Hmo.
      apply (settle_unlocks _ _ _ Hmo). left. intros []. }
  rewrite Hkd.
  destruct (String.eqb key prevKey); cbn [orb exec].
  { destruct (Hturn false) as (w1 & H1 & H2); eauto. }
  destruct (String.eqb key nextKey); cbn [orb exec].
  { destruct (Hturn true) as (w1 & H1 & H2); eauto. }
  destruct (String.eqb key selectKey); cbn [orb exec].
  - rewrite (selectItem_quiet n s _ mn (st_ring _ _ _ _ _ HSt)
               (st_s _ _ _ _ _ HSt) (st_nts _ _ _ _ _ HSt) Hmenus).
    rewrite Hopn, Hen. cbn [negb orb].
    eexists. split; [reflexivity|]. split; [reflexivity|].
    split; [reflexivity|].
    split; [unfold logMotion; wsimpl; rewrite length_app; cbn [length]; lia|].
    split; [apply Hlock; [left; exact Hm0|reflexivity]|].
    apply (settle_unlocks _ (motions w) (Pulse s (action (the s (set_keyPressed true w))))).
    + reflexivity.
    + right. eauto.
  - f_equal. destruct w. cbn in Hk. subst. reflexivity.
Qed.

Lemma keystroke_locks_until_done_witness :
  exists w1,
    keydown 0 "ArrowRight" (resultWorld (session None 3 [COpen])) = Ok w1
    /\ exec 0 CNext (set_keyPressed true (resultWorld (session None 3 [COpen])))
       = Ok w1
    /\ keyPressed w1 = true
    /\ length (motions (resultWorld (session None 3 [COpen])))
       < length (motions w1)
    /\ (forall key', keydown 0 key' w1 = Ok w1)
    /\ keyPressed (settle w1) = false.
Proof.
  apply (keystroke_locks_until_done None 3 [COpen]
           (resultWorld (session None 3 [COpen])) "ArrowRight").
  - lia.
  - vm_compute. reflexivity.
  - vm_compute. reflexivity.
Defined.

(** ** The animation frame *)

Lemma animate_loop_ring n s t :
  forall fuel k w calls,
    k < n -> n - k <= fuel -> RingOK n (heap w) -> SelIs n s (heap w) ->
    animate_loop fuel t (Some 0) (Some k) w calls
    = Ok (calls ++ (frameCall (Some s) t <$> seq k (n - k))).
Proof.
  induction fuel as [|f IH]; intros k w calls Hk Hfuel Hring Hsel; [lia|].
  destruct (getNode_the n w k Hring Hk) as (G & I & X & V).
  destruct (getNode_the n w (succ_mod n k) Hring (succ_mod_lt n k Hk))
    as (G1 & I1 & _).
  destruct (getNode_the n w 0 Hring ltac:(lia)) as (G0 & I0 & _).
  cbn [animate_loop]. rewrite G. cbn [bind]. rewrite X, G1. cbn [bind].
  rewrite G0. cbn [bind]. rewrite I1, I0, Zeqb_of_nat.
  rewrite (the_selected k w _ (SelIs_lookup n s _ k Hsel Hk)).
  assert (Hcall : (if Nat.eqb k s then AnimateSelected k t
                   else AnimateDefault k t) = frameCall (Some s) t k)
    by reflexivity.
  rewrite Hcall. unfold succ_mod.
  destruct (Nat.eqb_spec (S k) n) as [E|E]; cbn [Nat.eqb negb].
  - replace (n - k) with 1 by lia. reflexivity.
  - destruct (Nat.eqb_spec (S k) 0); [lia|]. cbn [negb].
    rewrite IH by (try assumption; lia).
    replace (n - k) with (S (n - S k)) by lia. cbn [seq fmap list_fmap].
    rewrite <- app_assoc. reflexivity.
Qed.

(** X12: a frame animates every item once.  In every session of a
    one-menu page, whatever the number of items, [animate] with a
    non-zero elapsed time returns having made exactly one call per item,
    in ring order from the first item: [animateSelected] on the selected
    item and [animateDefault] on every other; with no item it makes no
    call and raises nothing.  It makes no call when the elapsed time is
    absent or zero.  The menu it is called on plays no part. *)
Theorem animate_one_call_per_item (P : option Properties) (n : nat)
    (cs : list Cmd) (w : World) (m : handle) (t : Z) :
  session P n cs = Ok w -> t <> 0%Z ->
  animate m (Some t) w = Ok (frameCall (nodeToSelect w) t <$> seq 0 n)
  /\ animate m (Some 0%Z) w = Ok []
  /\ animate m None w = Ok [].
Proof.
  intros Hs Ht. split; [|split; reflexivity].
  unfold animate. destruct (Z.eqb_spec t 0) as [|_]; [contradiction|].
  destruct n as [|n].
  - destruct (session_Empty P cs w Hs) as (_ & -> & _).
    reflexivity.
  - pose proof (session_det P (S n) cs w ltac:(lia) Hs) as
      [Hring Hfirst _ _ _ (s & Hlt & Hnts & Hsel & _) _].
    rewrite Hfirst, Hnts.
    rewrite (animate_loop_ring (S n) s t) by
      (try assumption; unfold walkFuel;
       rewrite ?(RingOK_length _ _ Hring); lia).
    rewrite Nat.sub_0_r. reflexivity.
Qed.

Lemma animate_one_call_per_item_witness :
  animate 0 (Some 16%Z) (resultWorld (session None 3 [COpen; CNext]))
  = Ok (frameCall (nodeToSelect (resultWorld (session None 3 [COpen; CNext])))
          16 <$> seq 0 3)
  /\ animate 0 (Some 0%Z) (resultWorld (session None 3 [COpen; CNext])) = Ok []
  /\ animate 0 None (resultWorld (session None 3 [COpen; CNext])) = Ok [].
Proof.
  apply (animate_one_call_per_item None 3 [COpen; CNext]).
  - vm_compute. reflexivity.
  - discriminate.
Defined.

(** ** [add] on a page that already has items *)

Lemma add_linkedWith n mn w act :
  1 <= n -> Ready n mn w ->
  add 0 act w = do (_, w0) <- repositionNodes 0 (linkedWith act n w); Ok w0.
Proof.
  intros Hn [Hring R4 R5 R7 Hmenus Htray].
  pose proof (RingOK_length _ _ Hring) as Hlen.
  unfold add, getMenu, linkedWith. rewrite Hmenus.
  cbn [lookup list_lookup bind]. rewrite Htray, Hlen.
  wsimpl. rewrite R7.
  replace (Z.of_nat n =? 0)%Z with false by (symmetry; apply Z.eqb_neq; lia).
  wsimpl. rewrite R4, R5.
  unfold getNode at 1. wsimpl.
  rewrite !list_lookup_alter_eq, (lookup_snoc _ _ n Hlen).
  cbn [fmap option_fmap option_map bind set_next set_prev MenuNode_new prev next].
  match goal with |- context [getNode (Some (n - 1)) ?w1] =>
    destruct (getNode_lt (n - 1) w1) as [x1 ->] end.
  { wsimpl. rewrite !length_alter, length_app, Hlen. simpl. lia. }
  cbn [bind].
  unfold getNode at 1. wsimpl.
  rewrite list_lookup_alter_ne by lia.
  rewrite !list_lookup_alter_eq, (lookup_snoc _ _ n Hlen).
  cbn [fmap option_fmap option_map bind set_next set_prev MenuNode_new prev next].
  match goal with |- context [getNode (Some 0) ?w1] =>
    destruct (getNode_lt 0 w1) as [x2 ->] end.
  { wsimpl. rewrite !length_alter, length_app, Hlen. simpl. lia. }
  cbn [bind]. wsimpl. rewrite ?R7. reflexivity.
Qed.

Lemma linkedWith_heap act n w :
  1 <= n -> length (heap w) = n ->
  heap (linkedWith act n w)
  = alter (set_prev (Some n)) 0 (alter (set_next (Some n)) (n - 1) (heap w))
    ++ [mkNode (Z.of_nat n) false act (Some 0) (Some (n - 1)) vzero (Z.of_nat n)].
Proof.
  intros Hn Hlen. unfold linkedWith. wsimpl.
  rewrite !(alter_snoc _ _ _ n Hlen).
  rewrite alter_app_l by lia.
  rewrite alter_app_l by (rewrite length_alter; lia).
  rewrite !(alter_snoc _ _ _ n) by (rewrite !length_alter; exact Hlen).
  reflexivity.
Qed.

Lemma linkedWith_ring act n w :
  1 <= n -> RingOK n (heap w) -> RingOK (S n) (heap (linkedWith act n w)).
Proof.
  intros Hn Hring. pose proof (RingOK_length _ _ Hring) as Hlen.
  unfold RingOK in *. rewrite linkedWith_heap by assumption.
  rewrite fmap_app, ringLinks_S by exact Hn.
  rewrite (fmap_alter_commute linksOf _ (fun l => (l.1.1, l.1.2, Some n)))
    by reflexivity.
  rewrite (fmap_alter_commute linksOf _ (fun l => (l.1.1, Some n, l.2)))
    by reflexivity.
  rewrite Hring. reflexivity.
Qed.

(** What one more [add] does to a page that already has items. *)
Lemma add_ready n mn w act :
  1 <= n -> Ready n mn w ->
  exists w',
    add 0 act w = Ok w'
    /\ Ready (S n) (grownMenu n mn) w'
    /\ selected <$> heap w' = (selected <$> heap w) ++ [false]
    /\ (fun nd => (action nd, itemTag nd)) <$> heap w'
       = ((fun nd => (action nd, itemTag nd)) <$> heap w) ++ [(act, Z.of_nat n)]
    /\ (forall j, j < S n ->
          (position <$> heap w') !! j
          = Some (slot (S n) (gapBetweenItems mn) j))
    /\ leftEdge w' = Some (leftIndex (S n))
    /\ rightEdge w' = Some (S n / 2)
    /\ addFrame w' = addFrame w.
Proof.
  intros Hn HR. rewrite (add_linkedWith n mn w act Hn HR).
  destruct HR as [Hring R4 R5 R7 Hmenus Htray].
  pose proof (RingOK_length _ _ Hring) as Hlen.
  destruct (repositionNodes_ring (S n) (linkedWith act n w)
              (set_itemCount (itemCount mn + 1)
                 (set_itemTray (itemTray mn ++ [n]) mn)))
    as (pos' & w' & Hrun & Q1 & Q2 & Q3 & Q4 & Q5 & Q6 & Q7).
  - lia.
  - apply linkedWith_ring; assumption.
  - unfold linkedWith. wsimpl. exact R4.
  - unfold linkedWith. wsimpl. lia.
  - unfold linkedWith. wsimpl. rewrite Hmenus. reflexivity.
  - rewrite Hrun. cbn [bind]. exists w'. split; [reflexivity|].
    unfold restOf in Q7. injection Q7 as F1 F2 F3 F4 F5 F6 F7 F8 F9.
    unfold linkedWith in F1, F2, F3, F4, F5, F6, F7, F8, F9. wsimpl.
    pose proof (repositionNodes_structure _ _ _ _ Hrun) as Hstr.
    split; [|split; [|split; [|split; [|split; [|split]]]]].
    + split.
      * exact Q1.
      * congruence.
      * rewrite F5. f_equal. lia.
      * rewrite F7. lia.
      * rewrite Q6. reflexivity.
      * cbn [itemTray grownMenu]. rewrite length_app, Htray. cbn. lia.
    + rewrite Q2, linkedWith_heap by assumption.
      rewrite fmap_app, !fmap_alter_same by reflexivity. reflexivity.
    + rewrite (structure_tags _ _ Hstr), linkedWith_heap by assumption.
      rewrite fmap_app, !fmap_alter_same by (intros []; reflexivity).
      reflexivity.
    + exact Q3.
    + rewrite Q4.
      destruct (Nat.ltb_spec (leftIndex (S n)) (S n)) as [|Hge]; [reflexivity|].
      pose proof (leftIndex_lt (S n)). lia.
    + exact Q5.
    + unfold addFrame. congruence.
Qed.

Lemma Built_Ready P n w : 1 <= n -> Built P n w -> Ready n (builtMenu P n) w.
Proof.
  intros Hn [Hring _ _ _ _ Hmenus Hrest].
  unfold restOf in Hrest. injection Hrest as _ _ _ R4 R5 _ R7 _ _.
  split; try assumption. cbn [builtMenu itemTray]. apply length_seq.
Qed.

Lemma add_built P n w act :
  1 <= n -> Built P n w ->
  exists w',
    add 0 act w = Ok w' /\ Built P (S n) w'
    /\ action <$> heap w' = (action <$> heap w) ++ [act].
Proof.
  intros Hn HB.
  destruct (add_ready n _ w act Hn (Built_Ready P n w Hn HB))
    as (w' & Hadd & HR & Hsel' & Htag & Hpos' & Hl' & Hr' & Hfr).
  exists w'. split; [exact Hadd|].
  destruct HB as [Hring Hsel Hpos Hleft Hright Hmenus Hrest].
  unfold restOf in Hrest. injection Hrest as R1 R2 R3 R4 R5 R6 R7 R8 R9.
  unfold addFrame in Hfr. injection Hfr as F1 F2 F3 F4 F5 F6 F7.
  split; [split|].
  - apply HR.
  - unfold SelIs in *. rewrite Hsel', Hsel, seq_S, fmap_app.
    cbn [fmap list_fmap]. destruct (Nat.eqb_spec (0 + n) 0); [lia|].
    reflexivity.
  - exact Hpos'.
  - rewrite Hl'.
    destruct (Nat.ltb_spec (leftIndex (S n)) (S n)) as [|Hge]; [reflexivity|].
    pose proof (leftIndex_lt (S n)). lia.
  - exact Hr'.
  - rewrite (rd_menus _ _ _ HR). unfold grownMenu, builtMenu.
    cbn [itemTray itemSelected enabled opened itemCount groupPosition
         gapBetweenItems menuOffsetItems revolvingMenu openBehavior].
    rewrite seq_S. repeat f_equal. lia.
  - unfold restOf.
    rewrite F1, F2, F3, F4, F5, F6, F7, (rd_latest _ _ _ HR), (rd_count _ _ _ HR).
    rewrite R1, R2, R3, R4, R6, R8, R9. repeat f_equal; lia.
  - apply (f_equal (fmap fst)) in Htag.
    rewrite fmap_app, <- !list_fmap_compose in Htag. exact Htag.
Qed.

Lemma addAll_built P :
  forall acts n w done,
    1 <= n -> Built P n w -> action <$> heap w = done ->
    exists w',
      addAll acts 0 w = Ok w' /\ Built P (n + length acts) w'
      /\ action <$> heap w' = done ++ acts.
Proof.
  induction acts as [|act acts IH]; intros n w done Hn HB Hd.
  - exists w. cbn [addAll length]. rewrite Nat.add_0_r, app_nil_r. auto.
  - destruct (add_built P n w act Hn HB) as (w1 & Hadd & HB1 & Ha1).
    destruct (IH (S n) w1 (done ++ [act]) ltac:(lia) HB1) as (w' & Hrun & HB' & Ha').
    { rewrite Ha1, Hd. reflexivity. }
    exists w'. cbn [addAll length]. rewrite Hadd. cbn [bind].
    replace (n + S (length acts)) with (S n + length acts) by lia.
    rewrite <- app_assoc in Ha'. auto.
Qed.

Lemma add_first_with P act :
  exists w, add 0 act (snd (newMenu P initial)) = Ok w /\ Built P 1 w
            /\ action <$> heap w = [act].
Proof.
  exists (updNode 0 (fun nd => mkNode (id nd) (selected nd) act (next nd)
                                 (prev nd) (position nd) (itemTag nd))
            (firstAdded P)).
  split; [vm_compute; reflexivity|]. split; [|reflexivity].
  pose proof (firstAdded_built P) as [B1 B2 B3 B4 B5 B6 B7].
  split; try assumption; reflexivity.
Qed.

Lemma addAll_fresh P acts :
  acts <> [] ->
  exists w,
    addAll acts 0 (snd (newMenu P initial)) = Ok w
    /\ Built P (length acts) w /\ action <$> heap w = acts.
Proof.
  destruct acts as [|act acts]; [congruence|]. intros _.
  destruct (add_first_with P act) as (w1 & Hadd & HB1 & Ha1).
  destruct (addAll_built P acts 1 w1 [act] ltac:(lia) HB1 Ha1)
    as (w & Hrun & HB & Ha).
  exists w. cbn [addAll length]. rewrite Hadd. cbn [bind]. auto.
Qed.

Lemma structure_actions w w' :
  structure w' = structure w -> action <$> heap w' = action <$> heap w.
Proof.
  intros E. apply structure_tags in E.
  apply (f_equal (fmap fst)) in E.
  rewrite <- !list_fmap_compose in E. exact E.
Qed.

Lemma the_action k w acts :
  action <$> heap w = acts -> action (the k w) = default None (acts !! k).
Proof.
  intros <-. rewrite list_lookup_fmap. unfold the.
  destruct (heap w !! k); reflexivity.
Qed.

(** X13: the select key runs the callback of the selected item.  On a
    one-menu page whose items were added with the callbacks [acts], after
    any sequence of commands that leaves the menu open, [selectItem]
    returns having requested one pulse, of the selected item; and the
    callback the engine runs when that pulse completes is the one given
    to [add] with that item (none when it was given none). *)
Theorem select_runs_items_callback (P : option Properties)
    (acts : list (option nat)) (cs : list Cmd) (w : World) :
  acts <> [] -> sessionWith P acts cs = Ok w -> isOpen 0 w = true ->
  exists s,
    nodeToSelect w = Some s /\ s < length acts
    /\ selectItem 0 w
       = Ok (logMotion (Pulse s (default None (acts !! s))) w)
    /\ actionsRun [Pulse s (default None (acts !! s))]
       = match default None (acts !! s) with Some a => [a] | None => [] end.
Proof.
  intros Hne Hs Hop.
  destruct (addAll_fresh P acts Hne) as (w0 & Hw0 & HB & Ha).
  assert (Hn : 1 <= length acts) by (destruct acts; [congruence|cbn; lia]).
  unfold sessionWith in Hs. rewrite Hw0 in Hs. cbn [bind] in Hs.
  destruct (run_Good (length acts) cs Hn w0 (Built_Good P _ w0 Hn HB))
    as (w' & Hrun & HG).
  rewrite Hs in Hrun. injection Hrun as <-.
  pose proof (structure_actions _ _ (run_structure 0 cs w0 w Hs)) as Hact.
  rewrite Ha in Hact.
  pose proof HG as
    [Hring _ _ _ _ (s & Hlt & Hnts & _) (mn & Hmenus & _ & Hen)].
  rewrite (isOpen_menu w mn Hmenus) in Hop.
  exists s. split; [exact Hnts|]. split; [exact Hlt|]. split.
  - rewrite (selectItem_quiet _ s w mn Hring Hlt Hnts Hmenus).
    rewrite Hop, (Hen Hop). cbn [negb orb].
    rewrite (the_action s w acts Hact). reflexivity.
  - unfold actionsRun. cbn [mbind list_bind].
    destruct (default None (acts !! s)); reflexivity.
Qed.

Lemma select_runs_items_callback_witness :
  exists s,
    nodeToSelect (resultWorld (sessionWith None [Some 7; None; Some 9]
                                 [COpen; CPrev]))
    = Some s
    /\ s < length [Some 7; None; Some 9]
    /\ selectItem 0 (resultWorld (sessionWith None [Some 7; None; Some 9]
                                    [COpen; CPrev]))
       = Ok (logMotion (Pulse s (default None ([Some 7; None; Some 9] !! s)))
               (resultWorld (sessionWith None [Some 7; None; Some 9]
                               [COpen; CPrev])))
    /\ actionsRun [Pulse s (default None ([Some 7; None; Some 9] !! s))]
       = match default None ([Some 7; None; Some 9] !! s) with
         | Some a => [a]
         | None => []
         end.
Proof.
  apply (select_runs_items_callback None [Some 7; None; Some 9] [COpen; CPrev]).
  - discriminate.
  - vm_compute. reflexivity.
  - vm_compute. reflexivity.
Defined.

(** ** [add] after the menu has been navigated *)




(** ** Transitions of the group and of the items *)

Lemma session_settings P n cs w :
  session P n cs = Ok w ->
  exists mn, menus w = [mn] /\ itemTray mn = seq 0 n
             /\ menuOffsetItems mn = offsetOf P.
Proof.
  intros Hs.
  assert (Hset : settings <$> menus w
                 = [(seq 0 n, Z.of_nat n, gapOf P, offsetOf P, true,
                     init_openBehavior P)]).
  { destruct n as [|n].
    - unfold session, freshMenu in Hs. cbn [addItems bind] in Hs.
      pose proof (run_structure 0 cs _ w Hs) as Hstr.
      unfold structure in Hstr. injection Hstr as _ S2 _ _ _.
      rewrite S2. cbn [newMenu init snd menus fmap list_fmap set_menus app
                       initial].
      unfold settings.
      cbn [itemTray itemCount gapBetweenItems menuOffsetItems revolvingMenu
           openBehavior seq].
      rewrite init_revolvingMenu_true. reflexivity.
    - destruct (freshMenu_structure P (S n) ltac:(lia)) as (w0 & Hw0 & _ & Hstr0).
      unfold session in Hs. rewrite Hw0 in Hs. cbn [bind] in Hs.
      pose proof (run_structure 0 cs w0 w Hs) as Hstr. rewrite Hstr0 in Hstr.
      unfold structure, builtStructure in Hstr.
      injection Hstr as _ S2 _ _ _. exact S2. }
  destruct (menus w) as [|mn [|mn' ms]]; try discriminate.
  cbn [fmap list_fmap] in Hset. unfold settings in Hset.
  injection Hset as T1 _ _ T4 _ _.
  exists mn. auto.
Qed.

(** X15: [resetMenu] on an open and on a closed menu.  In every session
    of a one-menu page, whatever the number of items, [resetMenu] returns.
    It always asks every item, in tray order, to turn back to rotation
    zero about each axis and to scale one, in half a second; and it asks
    the group to go back to the menu offset, rotation zero and scale one
    only while the menu is open: on a closed menu the items are reset and
    the group is left where it is.  Called without [parms], [moveMenu]
    returns having asked nothing and [itemTransition] raises a
    [TypeError]. *)
Theorem resetMenu_requests (P : option Properties) (n : nat) (cs : list Cmd)
    (w : World) :
  session P n cs = Ok w ->
  resetMenu 0 w
  = Ok ((if isOpen 0 w then groupReset (offsetOf P) else [])
        ++ (seq 0 n ≫= itemReset))
  /\ moveMenu 0 None w = Ok []
  /\ itemTransition 0 None w = TypeError.
Proof.
  intros Hs.
  destruct (session_settings P n cs w Hs) as (mn & Hmenus & Htray & Hoff).
  unfold resetMenu, moveMenu, itemTransition, getMenu, isOpen.
  rewrite Hmenus. cbn [lookup list_lookup bind]. rewrite Htray, Hoff.
  split; [|split; reflexivity].
  destruct (opened mn); reflexivity.
Qed.

Lemma resetMenu_requests_witness :
  resetMenu 0 (resultWorld (session None 2 [COpen; CNext; CClose]))
  = Ok ((if isOpen 0 (resultWorld (session None 2 [COpen; CNext; CClose]))
         then groupReset (offsetOf None) else [])
        ++ (seq 0 2 ≫= itemReset))
  /\ moveMenu 0 None (resultWorld (session None 2 [COpen; CNext; CClose]))
     = Ok []
  /\ itemTransition 0 None
       (resultWorld (session None 2 [COpen; CNext; CClose]))
     = TypeError.
Proof.
  apply (resetMenu_requests None 2 [COpen; CNext; CClose]).
  vm_compute. reflexivity.
Defined.

Lemma scaleObject_ignores vy vz parms :
  numberIn (parms_scaleX parms) = None \/ truthy (parms_scale parms) = true ->
  scaleObject (set_scaleYZ vy vz parms) = scaleObject parms.
Proof.
  unfold scaleObject, set_scaleYZ, moveDur.
  cbn [parms_scale parms_scaleX parms_scaleY parms_scaleZ parms_duration].
  intros [-> | ->]; [|reflexivity].
  destruct (truthy (parms_scale parms)); reflexivity.
Qed.

(** X16: the scales per axis go through [scaleX].  Whatever the page and
    the menu, when [parms.scaleX] is not a non-zero number, or when
    [parms.scale] is truthy, neither [moveMenu] nor [itemTransition]
    looks at [parms.scaleY] and [parms.scaleZ]: any values there give the
    same outcome, so a call with [scaleY] alone changes no scale.  And
    when [parms.scaleX] is a non-zero number and [parms.scale] is falsy,
    the scale request carries [parms.scaleY] and [parms.scaleZ] as they
    are, with no check and no default: [undefined] when they are
    absent. *)
Theorem scaleY_scaleZ_go_through_scaleX (m : handle) (parms : Parms)
    (vy vz : JsValue) (w : World) :
  numberIn (parms_scaleX parms) = None \/ truthy (parms_scale parms) = true ->
  moveMenu m (Some (set_scaleYZ vy vz parms)) w = moveMenu m (Some parms) w
  /\ itemTransition m (Some (set_scaleYZ vy vz parms)) w
     = itemTransition m (Some parms) w
  /\ forall q parms',
       parms_scaleX parms' = JNumber q -> truthy (JNumber q) = true ->
       truthy (parms_scale parms') = false ->
       scaleObject parms'
       = [("x", JNumber q); ("y", parms_scaleY parms'); ("z", parms_scaleZ parms');
          ("duration", moveDur parms')]%string.
Proof.
  intros Hig. pose proof (scaleObject_ignores vy vz parms Hig) as Hsc.
  split; [|split].
  - unfold moveMenu. rewrite Hsc. reflexivity.
  - unfold itemTransition, itemTweens. rewrite Hsc. reflexivity.
  - intros q parms' Hx Hq Hs. unfold scaleObject, numberIn.
    rewrite Hs, Hx, Hq. reflexivity.
Qed.

Lemma scaleY_scaleZ_go_through_scaleX_witness :
  moveMenu 0 (Some (set_scaleYZ (JNumber (lit 3)) (JNumber (lit 2)) noParms))
    (resultWorld (session None 2 [COpen]))
  = moveMenu 0 (Some noParms) (resultWorld (session None 2 [COpen]))
  /\ itemTransition 0
       (Some (set_scaleYZ (JNumber (lit 3)) (JNumber (lit 2)) noParms))
       (resultWorld (session None 2 [COpen]))
     = itemTransition 0 (Some noParms) (resultWorld (session None 2 [COpen]))
  /\ forall q parms',
       parms_scaleX parms' = JNumber q -> truthy (JNumber q) = true ->
       truthy (parms_scale parms') = false ->
       scaleObject parms'
       = [("x", JNumber q); ("y", parms_scaleY parms'); ("z", parms_scaleZ parms');
          ("duration", moveDur parms')]%string.
Proof.
  apply (scaleY_scaleZ_go_through_scaleX 0 noParms (JNumber (lit 3))
           (JNumber (lit 2))).
  left. reflexivity.
Defined.

(** ** The pointer listener *)

Lemma set_clicked_same w : clicked w = false -> set_clicked false w = w.
Proof. destruct w. cbn. intros ->. reflexivity. Qed.

Lemma set_clicked_twice b b' w :
  set_clicked b (set_clicked b' w) = set_clicked b w.
Proof. reflexivity. Qed.

Lemma elem_of_pendingFrom ts :
  forall k j evt,
    (j, evt) ∈ pendingFrom k ts
    <-> exists d, j = k + d /\ ts !! d = Some (Some evt).
Proof.
  induction ts as [|[e|] ts IH]; intros k j evt; cbn [pendingFrom].
  - split; [intros H; inversion H|intros (d & _ & H); discriminate].
  - rewrite elem_of_cons, IH. split.
    + intros [E|(d & -> & H)].
      * injection E as -> ->. exists 0. split; [lia|reflexivity].
      * exists (S d). split; [lia|exact H].
    + intros ([|d] & -> & H).
      * cbn in H. injection H as ->. left. f_equal. lia.
      * right. exists d. split; [lia|exact H].
  - rewrite IH. split.
    + intros (d & -> & H). exists (S d). split; [lia|exact H].
    + intros ([|d] & -> & H); [discriminate|].
      exists d. split; [lia|exact H].
Qed.

Lemma pendingFrom_snoc ts evt :
  forall k, pendingFrom k (ts ++ [Some evt])
            = pendingFrom k ts ++ [(k + length ts, evt)].
Proof.
  induction ts as [|[e|] ts IH]; intros k; cbn [pendingFrom app length].
  - rewrite Nat.add_0_r. reflexivity.
  - rewrite IH. cbn [app]. rewrite Nat.add_succ_r. reflexivity.
  - rewrite IH, Nat.add_succ_r. reflexivity.
Qed.

Lemma pendingFrom_clear ts :
  forall k i,
    (forall p, p ∈ pendingFrom k ts -> p.1 = k + i) ->
    pendingFrom k (<[i := None]> ts) = [].
Proof.
  induction ts as [|[e|] ts IH]; intros k i Hall; [reflexivity| |].
  - destruct i as [|i].
    + cbn [insert list_insert pendingFrom].
      destruct (pendingFrom (S k) ts) as [|[j e'] ps] eqn:E; [reflexivity|].
      assert (Hin : (j, e') ∈ pendingFrom (S k) ts)
        by (rewrite E; apply list_elem_of_here).
      pose proof (proj1 (elem_of_pendingFrom ts (S k) j e') Hin)
        as (d & -> & _).
      specialize (Hall (S k + d, e')). cbn [pendingFrom fst] in Hall.
      rewrite E in Hall.
      specialize (Hall ltac:(apply list_elem_of_further, list_elem_of_here)).
      lia.
    + specialize (Hall (k, e)). cbn [pendingFrom fst] in Hall.
      specialize (Hall ltac:(apply list_elem_of_here)). lia.
  - destruct i as [|i]; cbn [insert list_insert pendingFrom].
    + destruct (pendingFrom (S k) ts) as [|[j e'] ps] eqn:E; [reflexivity|].
      assert (Hin : (j, e') ∈ pendingFrom (S k) ts)
        by (rewrite E; apply list_elem_of_here).
      pose proof (proj1 (elem_of_pendingFrom ts (S k) j e') Hin)
        as (d & -> & _).
      specialize (Hall (S k + d, e')). cbn [pendingFrom fst] in Hall.
      rewrite E in Hall.
      specialize (Hall ltac:(apply list_elem_of_here)). lia.
    + apply (IH (S k) i). intros p Hp. cbn [pendingFrom] in Hall.
      rewrite (Hall p Hp). lia.
Qed.

Lemma Waiting_Armed i evt l w : Waiting i evt l -> Armed l w.
Proof.
  intros (Ht & Hp & _). unfold Armed. rewrite Ht, Hp.
  intros p Hin. apply list_elem_of_singleton in Hin. subst p. reflexivity.
Qed.

Lemma pointerup_Armed evt l w :
  Armed l w ->
  Waiting (length (timeouts l)) evt (pointerup evt (l, w)).1
  /\ (pointerup evt (l, w)).2 = set_clicked false w.
Proof.
  unfold Armed, pointerup, Waiting, pending, setTimeout, clearTimeout.
  destruct (clickTimer l) as [i|]; cbn [fst snd clickTimer timeouts].
  - intros Hall.
    rewrite pendingFrom_snoc, (pendingFrom_clear _ 0 i Hall).
    rewrite length_app, !length_insert. cbn [length app].
    repeat split; try reflexivity. lia.
  - intros [Hp Hc]. rewrite pendingFrom_snoc, Hp, length_app.
    cbn [length app]. rewrite (set_clicked_same w Hc).
    repeat split; try reflexivity. lia.
Qed.

Lemma pointerups_Armed evts :
  forall evt l w w0,
    Armed l w -> set_clicked false w = set_clicked false w0 ->
    Waiting (length (timeouts l) + length evts) evt
      (pointerups (evts ++ [evt]) (l, w)).1
    /\ (pointerups (evts ++ [evt]) (l, w)).2 = set_clicked false w0.
Proof.
  unfold pointerups.
  induction evts as [|e evts IH]; intros evt l w w0 HA Hw.
  - cbn [app foldl length]. rewrite Nat.add_0_r, <- Hw.
    apply pointerup_Armed, HA.
  - cbn [app foldl length].
    destruct (pointerup_Armed e l w HA) as [HW1 Hw1].
    destruct (pointerup e (l, w)) as [l1 w1]. cbn [fst snd] in HW1, Hw1.
    pose proof HW1 as (_ & _ & Hlen).
    destruct (IH evt l1 w1 w0 (Waiting_Armed _ e l1 w1 HW1)) as [HW2 Hw2].
    { rewrite Hw1, set_clicked_twice. exact Hw. }
    rewrite Hlen in HW2.
    replace (length (timeouts l) + S (length evts))
      with (S (length (timeouts l)) + length evts) by lia.
    auto.
Qed.

Lemma clickItem_menu m hit w o w' :
  clickItem m hit w = Ok (o, w') -> exists mn, getMenu m w' = Ok mn.
Proof.
  intros H. pose proof (clickItem_structure m hit w o w' H) as Hstr.
  unfold structure in Hstr. injection Hstr as _ S2 _ _ _.
  unfold clickItem in H.
  destruct (getMenu m w) as [mn| |] eqn:G; cbn [bind] in H; try discriminate.
  unfold getMenu in *.
  destruct (menus w !! m) as [mn0|] eqn:L; [|discriminate].
  assert (L' : (settings <$> menus w') !! m = Some (settings mn0))
    by (rewrite S2, list_lookup_fmap, L; reflexivity).
  rewrite list_lookup_fmap in L'.
  destruct (menus w' !! m) as [mn1|]; [eauto|discriminate].
Qed.

(** X17: the pointer listener handles the last event of a burst, once.
    Whatever the page, when the listener and the page are in step, after
    any burst of [pointerup] events with no timeout coming due in between
    exactly one timeout is left, the one of the last event, and [clicked]
    is unset; every other timeout coming due does nothing.  When that one
    comes due it calls [clickItem] once, for the last event and with
    [clicked] unset, so the listener never stops its own click; if the
    call returns, nothing is left to come due, [clicked] is set, and the
    listener and the page are in step again; from then on, until the
    next [pointerup], [clickItem] called by the page itself does
    nothing. *)
Theorem pointerup_keeps_last_click (m : handle) (l : Listener) (w : World)
    (evts : list (option Z)) (evt : option Z) :
  Armed l w ->
  clickTimer (pointerups (evts ++ [evt]) (l, w)).1
  = Some (length (timeouts l) + length evts)
  /\ pending (pointerups (evts ++ [evt]) (l, w)).1
     = [(length (timeouts l) + length evts, evt)]
  /\ (pointerups (evts ++ [evt]) (l, w)).2 = set_clicked false w
  /\ (forall j, j <> length (timeouts l) + length evts ->
        timeoutFires m j (pointerups (evts ++ [evt]) (l, w))
        = Ok (Ignored, pointerups (evts ++ [evt]) (l, w)))
  /\ (forall o l2 w2,
        timeoutFires m (length (timeouts l) + length evts)
          (pointerups (evts ++ [evt]) (l, w)) = Ok (o, (l2, w2)) ->
        (exists w1, clickItem m evt (set_clicked false w) = Ok (o, w1)
                    /\ w2 = set_clicked true w1)
        /\ pending l2 = [] /\ Armed l2 w2
        /\ forall hit, clickItem m hit w2 = Ok (Ignored, w2)).
Proof.
  intros HA.
  pose proof (pointerups_Armed evts evt l w w HA eq_refl) as HW.
  destruct (pointerups (evts ++ [evt]) (l, w)) as [l1 w1].
  cbn [fst snd] in *. destruct HW as [(Ht & Hp & Hlen) Hw1].
  set (i := length (timeouts l) + length evts) in *.
  assert (Hat : timeouts l1 !! i = Some (Some evt)).
  { pose proof (proj1 (elem_of_pendingFrom (timeouts l1) 0 i evt)) as H.
    unfold pending in Hp. rewrite Hp in H.
    destruct (H ltac:(apply list_elem_of_here)) as (d & Hd & Hl).
    cbn in Hd. subst d. exact Hl. }
  assert (Hother : forall j e, timeouts l1 !! j = Some (Some e) -> j = i).
  { intros j e Hl.
    pose proof (proj2 (elem_of_pendingFrom (timeouts l1) 0 j e)) as H.
    unfold pending in Hp. rewrite Hp in H.
    specialize (H ltac:(exists j; auto)).
    apply list_elem_of_singleton in H. congruence. }
  split; [exact Ht|]. split; [exact Hp|]. split; [exact Hw1|].
  split.
  - intros j Hj. unfold timeoutFires.
    destruct (timeouts l1 !! j) as [[e|]|] eqn:E; try reflexivity.
    elim Hj. apply (Hother j e E).
  - intros o l2 w2. unfold timeoutFires. rewrite Hat, Hw1.
    destruct (clickItem m evt (set_clicked false w)) as [[o1 w3]| |] eqn:Hc;
      cbn [bind]; try discriminate.
    intros H. injection H as <- <- <-.
    assert (Hp2 : pending (mkListener (clickTimer l1)
                             (<[i := None]> (timeouts l1))) = []).
    { unfold pending. cbn [timeouts]. apply (pendingFrom_clear _ 0 i).
      intros p Hin. unfold pending in Hp. rewrite Hp in Hin.
      apply list_elem_of_singleton in Hin. subst p. reflexivity. }
    split; [eauto|]. split; [exact Hp2|]. split.
    + unfold Armed. cbn [clickTimer]. rewrite Hp2, Ht.
      intros p Hin. inversion Hin.
    + intros hit. destruct (clickItem_menu m evt _ o1 w3 Hc) as [mn Hmn].
      unfold clickItem.
      change (getMenu m (set_clicked true w3)) with (getMenu m w3).
      rewrite Hmn. cbn [bind set_clicked clicked].
      rewrite orb_true_r. reflexivity.
Qed.

Lemma pointerup_keeps_last_click_witness :
  clickTimer (pointerups ([Some 1%Z; None] ++ [Some 2%Z])
                (mkListener None [],
                 resultWorld (session None 4 [COpen]))).1
  = Some (length (timeouts (mkListener None [])) + length [Some 1%Z; None])
  /\ pending (pointerups ([Some 1%Z; None] ++ [Some 2%Z])
                (mkListener None [],
                 resultWorld (session None 4 [COpen]))).1
     = [(length (timeouts (mkListener None [])) + length [Some 1%Z; None],
         Some 2%Z)]
  /\ (pointerups ([Some 1%Z; None] ++ [Some 2%Z])
        (mkListener None [], resultWorld (session None 4 [COpen]))).2
     = set_clicked false (resultWorld (session None 4 [COpen]))
  /\ (forall j,
        j <> length (timeouts (mkListener None [])) + length [Some 1%Z; None] ->
        timeoutFires 0 j
          (pointerups ([Some 1%Z; None] ++ [Some 2%Z])
             (mkListener None [], resultWorld (session None 4 [COpen])))
        = Ok (Ignored,
              pointerups ([Some 1%Z; None] ++ [Some 2%Z])
                (mkListener None [], resultWorld (session None 4 [COpen]))))
  /\ (forall o l2 w2,
        timeoutFires 0
          (length (timeouts (mkListener None [])) + length [Some 1%Z; None])
          (pointerups ([Some 1%Z; None] ++ [Some 2%Z])
             (mkListener None [], resultWorld (session None 4 [COpen])))
        = Ok (o, (l2, w2)) ->
        (exists w1,
           clickItem 0 (Some 2%Z)
             (set_clicked false (resultWorld (session None 4 [COpen])))
           = Ok (o, w1)
           /\ w2 = set_clicked true w1)
        /\ pending l2 = [] /\ Armed l2 w2
        /\ forall hit, clickItem 0 hit w2 = Ok (Ignored, w2)).
Proof.
  apply (pointerup_keeps_last_click 0 (mkListener None [])
           (resultWorld (session None 4 [COpen])) [Some 1%Z; None] (Some 2%Z)).
  split; reflexivity.
Defined.

(** ** Two intervals at once *)

Lemma tick_misses (fwd : bool) n s l r w i t :
  2 <= n -> Nav n s l r w -> stepSel fwd n s <> t ->
  timers w !! i = Some (Some (mkTimer 0 fwd (Z.of_nat t))) ->
  exists w',
    tick i w = Ok w'
    /\ Nav n (stepSel fwd n s) (stepLeft fwd n l r) (stepRight fwd n l r) w'
    /\ timers w' = timers w.
Proof.
  intros Hn HNav Hne Hlive.
  destruct (rotate_Nav fwd n s l r w Hn HNav) as (w1 & Hrot & HNav1 & Ht1).
  pose proof HNav1 as (HSt1 & _).
  exists w1. split; [|auto].
  unfold tick. rewrite Hlive. cbn [t_forward t_menu t_target].
  rewrite Hrot. cbn [bind]. rewrite (st_nts _ _ _ _ _ HSt1).
  destruct (getNode_the n w1 (stepSel fwd n s) (st_ring _ _ _ _ _ HSt1)
              (st_s _ _ _ _ _ HSt1)) as (G & I & _).
  rewrite G. cbn [bind]. rewrite I, Zeqb_of_nat.
  destruct (Nat.eqb_spec (stepSel fwd n s) t); [contradiction|reflexivity].
Qed.

Lemma periods_oscillate n s a b i j :
  2 <= n -> s < n -> succ_mod n s <> a -> s <> b ->
  forall k w,
    (exists l r, Nav n s l r w) ->
    timers w !! i = Some (Some (mkTimer 0 true (Z.of_nat a))) ->
    timers w !! j = Some (Some (mkTimer 0 false (Z.of_nat b))) ->
    exists w',
      periods k i j w = Ok w' /\ (exists l r, Nav n s l r w')
      /\ timers w' = timers w.
Proof.
  intros Hn Hs Ha Hb. induction k as [|k IH]; intros w (l & r & HNav) Hi Hj.
  - exists w. cbn [periods]. eauto.
  - destruct (tick_misses true n s l r w i a Hn HNav Ha Hi)
      as (w1 & Hr1 & HNav1 & Ht1).
    cbn [stepSel] in HNav1.
    destruct (tick_misses false n _ _ _ w1 j b Hn HNav1) as (w2 & Hr2 & HNav2 & Ht2).
    { cbn [stepSel]. rewrite (pred_succ_mod n s Hs). exact Hb. }
    { rewrite Ht1. exact Hj. }
    cbn [stepSel] in HNav2. rewrite (pred_succ_mod n s Hs) in HNav2.
    destruct (IH w2) as (w' & Hrun & HNav' & Ht').
    { eauto. }
    { rewrite Ht2, Ht1. exact Hi. }
    { rewrite Ht2, Ht1. exact Hj. }
    exists w'. cbn [periods]. rewrite Hr1. cbn [bind]. rewrite Hr2. cbn [bind].
    split; [exact Hrun|]. split; [exact HNav'|]. congruence.
Qed.

Lemma rotateToward_starts (fwd : bool) n s l r w t :
  2 <= n -> Nav n s l r w -> stepSel fwd n s <> t ->
  exists w1,
    rotateToward 0 fwd (Z.of_nat t) w
    = Ok (Rotated fwd (Some (length (timers w))), w1)
    /\ Nav n (stepSel fwd n s) (stepLeft fwd n l r) (stepRight fwd n l r) w1
    /\ timers w1 = timers w ++ [Some (mkTimer 0 fwd (Z.of_nat t))].
Proof.
  intros Hn HNav Hne.
  destruct (rotate_Nav fwd n s l r w Hn HNav) as (w1 & Hrot & HNav1 & Ht1).
  pose proof HNav1 as (HSt1 & _).
  unfold rotateToward. rewrite Hrot. cbn [bind].
  rewrite (st_nts _ _ _ _ _ HSt1).
  destruct (getNode_the n w1 (stepSel fwd n s) (st_ring _ _ _ _ _ HSt1)
              (st_s _ _ _ _ _ HSt1)) as (G & I & _).
  rewrite G. cbn [bind]. rewrite I, Zeqb_of_nat.
  destruct (Nat.eqb_spec (stepSel fwd n s) t); [contradiction|].
  cbn [negb]. unfold setInterval. rewrite <- Ht1.
  eexists. split; [reflexivity|]. split; [apply Nav_timers, HNav1|].
  reflexivity.
Qed.

(** X18: two clicks that pull opposite ways never settle.  In a session
    of a one-menu page whose menu is open, let the selection be [s], let
    item [a] be two or more steps ahead on the short way along [next],
    and let item [b], other than [s], lie on the short way along [prev]
    from the node after [s].  [clickItem] on [a] rotates once to that
    node and starts an interval that repeats [moveToNext]; [clickItem] on
    [b] while it runs rotates back to [s] and starts a second interval,
    which repeats [moveToPrev].  From then on each period takes the
    selection to the node after [s] and back to [s]; neither target is
    ever what its interval finds selected, so after any number of
    periods both intervals are still running. *)
Theorem opposite_clicks_never_settle (P : option Properties) (n : nat)
    (cs : list Cmd) (w : World) (s a b k : nat) :
  session P n cs = Ok w -> isOpen 0 w = true -> nodeToSelect w = Some s ->
  a < n -> b < n ->
  2 <= distTo true n s a -> distTo true n s a <= n / 2 ->
  n / 2 < distTo true n (succ_mod n s) b -> b <> s ->
  exists w1 w2 wk,
    clickItem 0 (Some (Z.of_nat a)) w = Ok (Rotated true (Some 0), w1)
    /\ nodeToSelect w1 = Some (succ_mod n s)
    /\ clickItem 0 (Some (Z.of_nat b)) w1 = Ok (Rotated false (Some 1), w2)
    /\ nodeToSelect w2 = Some s
    /\ periods k 0 1 w2 = Ok wk
    /\ nodeToSelect wk = Some s
    /\ timers wk = [Some (mkTimer 0 true (Z.of_nat a));
                    Some (mkTimer 0 false (Z.of_nat b))].
Proof.
  intros Hs Hop Hnts Ha Hb Ha2 Hah Hbh Hbs.
  assert (Hn : 3 <= n).
  { pose proof (Nat.div_mod_eq n 2).
    pose proof (Nat.mod_upper_bound n 2 ltac:(lia)). lia. }
  destruct (session_Tidy P n cs w Hn Hs)
    as (HG & Htm & s0 & l & r & HSt & HC).
  destruct (Good_Nav n w ltac:(lia) HG Hop) as (s' & l' & r' & HNav & _).
  destruct (St_unique n s0 l r s' l' r' w HSt (proj1 HNav)) as (-> & -> & ->).
  rewrite (st_nts _ _ _ _ _ HSt) in Hnts. injection Hnts as ->.
  pose proof (st_s _ _ _ _ _ HSt) as Hs'.
  pose proof (st_l _ _ _ _ _ HSt) as Hl.
  pose proof (st_r _ _ _ _ _ HSt) as Hr.
  pose proof HC as [HCr HCl].
  assert (Hsa : s <> a).
  { intros ->. rewrite distTo_self in Ha2. lia. }
  assert (Hs1a : stepSel true n s <> a).
  { intros E. pose proof (distTo_step true n s a Hs' Ha Hsa) as Hd.
    rewrite E, distTo_self in Hd. lia. }
  (* the first click *)
  destruct (rotateToward_starts true n s l r w a ltac:(lia) HNav Hs1a)
    as (w1 & Hrot1 & HNav1 & Ht1).
  rewrite Htm in Hrot1, Ht1. cbn [length app] in Hrot1, Ht1.
  pose proof (Centred_step true n s l r Hn Hs' Hl Hr HC) as HC1.
  set (s1 := stepSel true n s) in *.
  set (l1 := stepLeft true n l r) in *. set (r1 := stepRight true n l r) in *.
  pose proof HNav1 as (HSt1 & _).
  pose proof (st_s _ _ _ _ _ HSt1) as Hs1.
  pose proof (st_l _ _ _ _ _ HSt1) as Hl1.
  pose proof (st_r _ _ _ _ _ HSt1) as Hr1.
  destruct HC1 as [HCr1 HCl1].
  change (succ_mod n s) with s1 in Hbh |- *.
  assert (Hs1b : s1 <> b).
  { intros E. rewrite E, distTo_self in Hbh. lia. }
  assert (Hl1s : l1 <> s1).
  { intros E. rewrite E, distTo_self in HCl1. lia. }
  assert (Hback : stepSel false n s1 = s) by apply (pred_succ_mod n s Hs').
  (* the second click *)
  destruct (rotateToward_starts false n s1 l1 r1 w1 b ltac:(lia) HNav1)
    as (w2 & Hrot2 & HNav2 & Ht2).
  { rewrite Hback. auto. }
  rewrite Ht1 in Hrot2, Ht2. cbn [length app] in Hrot2, Ht2.
  rewrite Hback in HNav2.
  destruct (periods_oscillate n s a b 0 1 ltac:(lia) Hs' Hs1a ltac:(auto) k w2)
    as (wk & Hrun & (lk & rk & HNavk) & Htk).
  { eauto. }
  { rewrite Ht2. reflexivity. }
  { rewrite Ht2. reflexivity. }
  exists w1, w2, wk.
  split.
  { rewrite (clickItem_Nav n s l r w _ HNav), Zeqb_of_nat.
    destruct (Nat.eqb_spec s a); [contradiction|].
    rewrite (fwdArc_distTo n s r a Hs' Hr Ha), HCr.
    destruct (Nat.leb_spec (distTo true n s a) (n / 2)); [|lia].
    exact Hrot1. }
  split; [apply (st_nts _ _ _ _ _ HSt1)|].
  split.
  { rewrite (clickItem_Nav n s1 l1 r1 w1 _ HNav1), Zeqb_of_nat.
    destruct (Nat.eqb_spec s1 b); [contradiction|].
    rewrite (fwdArc_distTo n s1 r1 b Hs1 Hr1 Hb), HCr1.
    destruct (Nat.leb_spec (distTo true n s1 b) (n / 2)); [lia|].
    rewrite (bwdArc_distTo n s1 l1 b Hs1 Hl1 Hb).
    rewrite (distTo_back n s1 b Hs1 Hb Hs1b).
    rewrite (distTo_back n s1 l1 Hs1 Hl1 ltac:(auto)), HCl1.
    destruct (Nat.leb_spec (n - distTo true n s1 b) (n - (n / 2 + 1)));
      [|lia].
    exact Hrot2. }
  split; [apply (st_nts _ _ _ _ _ (proj1 HNav2))|].
  split; [exact Hrun|].
  split; [apply (st_nts _ _ _ _ _ (proj1 HNavk))|].
  rewrite Htk, Ht2. reflexivity.
Qed.

Lemma opposite_clicks_never_settle_witness :
  exists w1 w2 wk,
    clickItem 0 (Some (Z.of_nat 2)) (resultWorld (session None 5 [COpen]))
    = Ok (Rotated true (Some 0), w1)
    /\ nodeToSelect w1 = Some (succ_mod 5 0)
    /\ clickItem 0 (Some (Z.of_nat 4)) w1 = Ok (Rotated false (Some 1), w2)
    /\ nodeToSelect w2 = Some 0
    /\ periods 7 0 1 w2 = Ok wk
    /\ nodeToSelect wk = Some 0
    /\ timers wk = [Some (mkTimer 0 true (Z.of_nat 2));
                    Some (mkTimer 0 false (Z.of_nat 4))].
Proof.
  apply (opposite_clicks_never_settle None 5 [COpen]
           (resultWorld (session None 5 [COpen])) 0 2 4 7).
  - vm_compute. reflexivity.
  - vm_compute. reflexivity.
  - vm_compute. reflexivity.
  - lia.
  - lia.
  - vm_compute. lia.
  - vm_compute. lia.
  - vm_compute. lia.
  - discriminate.
Defined.
